(** * Interactive account picker of beancount.ingest.interactive

    A shallow embedding of [guesser.py] (the term-weighted suggestion
    model), [interactive.py] (the account tree navigator and the review
    loop) and [extract.py] (duplicate marking, date cut-off and the training
    bootstrap), with the properties stated about them.

    Conventions of the embedding
    - a Python [dict] is an insertion-ordered association list: iteration
      order is observable in the source ([list(d)], [.index], [max]);
    - a Python exception is the [Raise] branch of [result];
    - the calls into [curses] and the functions that draw with them are
      parameters that return or raise; logging calls are kept in a list
      where a property is about them, and left out elsewhere;
    - an entry is an immutable tuple, and the list its [postings] field
      refers to is an object with an identity, kept in a store where the
      code assigns into it across entries;
    - Python [int] is [Z]; a Python [float] is a binary64 number, and every
      operation on floats rounds its exact result to the nearest one, ties
      to even;
    - a [str] is a [string] whose characters are read as code points below
      256, so that [len] is [String.length]. *)

From Stdlib Require Import List String Ascii Bool ZArith QArith Qround Qpower.
From Stdlib Require Import Lia Lqa ZifyBool Sorted.
From Stdlib Require SpecFloat.
Import ListNotations.

Set Implicit Arguments.
Local Open Scope string_scope.
Local Open Scope list_scope.
Local Open Scope Z_scope.

(** ** Exceptions and results *)

Inductive exn : Set :=
| TypeError | KeyError | IndexError | ValueError
| ZeroDivisionError | OverflowError | AttributeError | AssertionError
| curses_error.

Inductive result (A : Type) : Type :=
| Ok (a : A)
| Raise (e : exn).

Arguments Ok {A} a.
Arguments Raise {A} e.

Definition bind {A B} (c : result A) (k : A -> result B) : result B :=
  match c with
  | Ok a => k a
  | Raise e => Raise e
  end.

Notation "x <- c ;; k" := (bind c (fun x => k))
  (at level 61, c at next level, right associativity).

(** A [for] loop whose body may raise: the state is threaded from left to
    right and the first exception ends the loop. *)
Fixpoint for_each {A S} (body : S -> A -> result S) (xs : list A) (s : S)
  : result S :=
  match xs with
  | [] => Ok s
  | x :: xs' => s' <- body s x ;; for_each body xs' s'
  end.

(** ** Floating-point numbers *)

(** A Python [float]: a finite binary64 number, given by its value, an
    infinity, or a NaN. The sign of a zero is not kept; nothing the three
    modules compute depends on it. *)
Inductive float : Set :=
| Finite (q : Q)
| Inf (negative : bool)
| NaN.

(** [2 ** e] for an integer exponent of either sign. *)
Definition pow2 (e : Z) : Q := (2 ^ e)%Q.

(** The integer part of the binary logarithm of a positive rational: the
    logarithms of numerator and denominator differ from it by at most one. *)
Definition ilog2 (x : Q) : Z :=
  let k := Z.log2 (Qnum x) - Z.log2 (Zpos (Qden x)) in
  if Qle_bool (pow2 k) x then k else k - 1.

(** The exponent of the last of the 53 bits of a positive number, not
    below that of the subnormal numbers. *)
Definition exponent (x : Q) : Z := Z.max (ilog2 x - 52) (-1074).

(** The nearest integer, the even one of two that are equally near. *)
Definition rne (m : Q) : Z :=
  let f := Qfloor m in
  match (m - inject_Z f ?= 1 # 2)%Q with
  | Lt => f
  | Gt => f + 1
  | Eq => if Z.even f then f else f + 1
  end.

(** A positive number rounded to 53 bits. *)
Definition round_pos (x : Q) : Q :=
  let e := exponent x in (inject_Z (rne (x / pow2 e)) * pow2 e)%Q.

(** The binary64 number nearest to a rational, ties to even; an infinity
    when rounding reaches [2 ** 1024]. *)
Definition round64 (x : Q) : float :=
  match (x ?= 0)%Q with
  | Eq => Finite 0
  | Gt => let y := round_pos x in
          if Qle_bool (pow2 1024) y then Inf false else Finite (Qred y)
  | Lt => let y := round_pos (- x) in
          if Qle_bool (pow2 1024) y then Inf true else Finite (Qred (- y))
  end.

(** [a + b] on floats *)
Definition fadd (a b : float) : float :=
  match a, b with
  | NaN, _ | _, NaN => NaN
  | Finite x, Finite y => round64 (x + y)
  | Inf s, Finite _ | Finite _, Inf s => Inf s
  | Inf s, Inf t => if Bool.eqb s t then Inf s else NaN
  end.

(** [a * b] on floats *)
Definition fmul (a b : float) : float :=
  match a, b with
  | NaN, _ | _, NaN => NaN
  | Finite x, Finite y => round64 (x * y)
  | Inf s, Finite y | Finite y, Inf s =>
      match (y ?= 0)%Q with
      | Eq => NaN
      | Gt => Inf s
      | Lt => Inf (negb s)
      end
  | Inf s, Inf t => Inf (xorb s t)
  end.

(** [a < b] on rationals *)
Definition Qlt_bool (a b : Q) : bool := negb (Qle_bool b a).

(** [a < b] on floats; a comparison with a NaN is false. *)
Definition flt (a b : float) : bool :=
  match a, b with
  | NaN, _ | _, NaN => false
  | Finite x, Finite y => Qlt_bool x y
  | Inf s, Inf t => s && negb t
  | Inf s, Finite _ => s
  | Finite _, Inf t => negb t
  end.

(** [a / b] on integers: the exact quotient, rounded once. *)
Definition int_true_div (a b : Z) : result float :=
  if b =? 0 then Raise ZeroDivisionError
  else
    match round64 (inject_Z a / inject_Z b) with
    | Inf _ => Raise OverflowError
    | q => Ok q
    end.

(** The float an [int] operand of a float operation is converted to. The
    operand is a length here, which is at most [sys.maxsize] and far from
    the [2 ** 1024] where the conversion fails. *)
Definition float_of_int (n : Z) : float := round64 (inject_Z n).

(** The floats of the Standard Library's specification of IEEE 754
    arithmetic, which binary64 instantiates at 53 bits of precision and
    the exponent bound 1024: the float such a value stands for, and a
    value that stands for a float whose denominator is a power of two. *)
Definition of_spec_float (f : SpecFloat.spec_float) : float :=
  match f with
  | SpecFloat.S754_zero _ => Finite 0
  | SpecFloat.S754_infinity s => Inf s
  | SpecFloat.S754_nan => NaN
  | SpecFloat.S754_finite s m e =>
      Finite (Qred ((if s then - 1 else 1) * inject_Z (Zpos m) * pow2 e))
  end.

Definition to_spec_float (x : float) : SpecFloat.spec_float :=
  match x with
  | Finite q =>
      match Qnum q with
      | Z0 => SpecFloat.S754_zero false
      | Zpos m => SpecFloat.S754_finite false m (- Z.log2 (Zpos (Qden q)))
      | Zneg m => SpecFloat.S754_finite true m (- Z.log2 (Zpos (Qden q)))
      end
  | Inf s => SpecFloat.S754_infinity s
  | NaN => SpecFloat.S754_nan
  end.

(** ** Python values that can be dictionary keys *)

(** Equality test of a hashable Python type, and the law it obeys. *)
Class Hashable (K : Type) := { keqb : K -> K -> bool }.

Class HashableLaws (K : Type) `{Hashable K} := {
  keqb_spec : forall a b : K, reflect (a = b) (keqb a b)
}.

Arguments HashableLaws K {_}.

#[export] Instance string_Hashable : Hashable string :=
  {| keqb := String.eqb |}.

(** A metadata value or a term: a [str], a [bool], some other hashable
    object that has no [len] (a date, [None], a number other than 0 and 1),
    or some other hashable object that has one (a tuple, [bytes], an
    [Amount]). Objects of the last two kinds are told apart by the natural
    number that names them, equal objects having the same length; a [str]
    is never equal to a value of another kind. *)
Inductive pyval : Set :=
| PStr (s : string)
| PBool (b : bool)
| PObj (n : nat)
| PSized (n : nat) (size : nat).

Definition pyval_eqb (a b : pyval) : bool :=
  match a, b with
  | PStr s, PStr t => String.eqb s t
  | PBool x, PBool y => Bool.eqb x y
  | PObj n, PObj m => Nat.eqb n m
  | PSized n k, PSized m l => Nat.eqb n m && Nat.eqb k l
  | _, _ => false
  end.

#[export] Instance pyval_Hashable : Hashable pyval :=
  {| keqb := pyval_eqb |}.

(** [len(x)]: the number of characters of a string, the length of a sized
    object; the other values have none. *)
Definition py_len (x : pyval) : result Z :=
  match x with
  | PStr s => Ok (Z.of_nat (String.length s))
  | PSized _ size => Ok (Z.of_nat size)
  | PBool _ | PObj _ => Raise TypeError
  end.

(** ** Dictionaries *)

Section Dict.
Context {K V : Type} `{Hashable K}.

Definition dict := list (K * V).

Definition keys (d : dict) : list K := map fst d.
Definition values (d : dict) : list V := map snd d.

(** [d.get(k)] *)
Fixpoint dict_get (d : dict) (k : K) : option V :=
  match d with
  | [] => None
  | (k', v) :: d' => if keqb k' k then Some v else dict_get d' k
  end.

(** [k in d] *)
Definition dict_mem (d : dict) (k : K) : bool :=
  match dict_get d k with Some _ => true | None => false end.

(** [d[k]] *)
Definition dict_item (d : dict) (k : K) : result V :=
  match dict_get d k with
  | Some v => Ok v
  | None => Raise KeyError
  end.

(** [d[k] = v]: an existing key keeps its position, a new one goes last. *)
Fixpoint dict_set (d : dict) (k : K) (v : V) : dict :=
  match d with
  | [] => [(k, v)]
  | (k', v') :: d' =>
      if keqb k' k then (k', v) :: d' else (k', v') :: dict_set d' k v
  end.

(** [d.setdefault(k, v)]: the value now stored at [k], and the dictionary. *)
Definition dict_setdefault (d : dict) (k : K) (v : V) : V * dict :=
  match dict_get d k with
  | Some v' => (v', d)
  | None => (v, dict_set d k v)
  end.
End Dict.

Arguments dict K V : clear implicits.

(** [increment_dict(target_dict, key, increment)], for a numeric value type
    given by its zero and its addition. *)
Definition increment_dict {K V} `{Hashable K} (zero : V) (add : V -> V -> V)
    (target_dict : dict K V) (key : K) (increment : V) : dict K V :=
  let '(target, target_dict) := dict_setdefault target_dict key zero in
  dict_set target_dict key (add target increment).

(** ** Strings *)

(** Whitespace for [str.split()] among the code points below 256. *)
Definition is_space (c : ascii) : bool :=
  let n := nat_of_ascii c in
  ((9 <=? n) && (n <=? 13) || (28 <=? n) && (n <=? 32)
   || (n =? 133) || (n =? 160))%nat.

(** [s.split()]: the maximal runs of non-whitespace characters. [word] is
    the run being read. *)
Fixpoint split_ws_from (word : string) (s : string) : list string :=
  match s with
  | EmptyString => if String.eqb word "" then [] else [word]
  | String c s' =>
      if is_space c
      then (if String.eqb word "" then split_ws_from "" s'
            else word :: split_ws_from "" s')
      else split_ws_from (word ++ String c "") s'
  end.

Definition split_ws (s : string) : list string := split_ws_from "" s.

(** [s.split(sep)] for a one-character separator: never empty. *)
Fixpoint split_on (sep : ascii) (s : string) : list string :=
  match s with
  | EmptyString => [""]
  | String c s' =>
      if Ascii.eqb c sep then "" :: split_on sep s'
      else match split_on sep s' with
           | [] => [String c ""]
           | w :: ws => String c w :: ws
           end
  end.

(** [sep.join(parts)] *)
Fixpoint join (sep : string) (parts : list string) : string :=
  match parts with
  | [] => ""
  | [p] => p
  | p :: ps => p ++ sep ++ join sep ps
  end.

(** ** Entries *)

Record Posting := mkPosting {
  account : string;
  units : Z
}.

(** A transaction: the fields the three modules read. [payee] is [None] or
    a [str]; metadata maps string keys to arbitrary values; [date] is the
    ordinal of the day, so that dates compare as integers. *)
Record Transaction := mkTransaction {
  meta : dict string pyval;
  date : Z;
  flag : string;
  payee : option string;
  narration : string;
  postings : list Posting
}.

(** ** guesser.py *)

(** The three metadata keys imported from [beancount.core.interpolate],
    whose values are not fixed here. *)
Class Interpolate := {
  AUTOMATIC_META : string;
  AUTOMATIC_RESIDUAL : string;
  AUTOMATIC_TOLERANCES : string
}.

Section Guesser.
Context `{Interpolate}.

Definition EXCLUSIONS : list string :=
  ["filename"; "lineno";
   AUTOMATIC_META; AUTOMATIC_RESIDUAL; AUTOMATIC_TOLERANCES].

(** [key not in EXCLUSIONS] *)
Definition excluded (key : string) : bool :=
  existsb (String.eqb key) EXCLUSIONS.

(** [item_gen(txn)]: narration words, payee words (none when the payee is
    [None]), then the metadata values under non-excluded keys. *)
Definition item_gen (txn : Transaction) : list pyval :=
  let narr_items := split_ws (narration txn) in
  let payee_items :=
    match payee txn with
    | Some p => split_ws p
    | None => []
    end in
  let meta_vals :=
    map snd (filter (fun kv => negb (excluded (fst kv))) (meta txn)) in
  map PStr narr_items ++ map PStr payee_items ++ meta_vals.

(** *** GuessItem *)

(** [self.account_dict] *)
Definition GuessItem := dict string Z.

Definition GuessItem_init : GuessItem := [].

(** [GuessItem.add] *)
Definition add (self : GuessItem) (account : string) : GuessItem :=
  increment_dict 0 Z.add self account 1.

(** [sum(ints)] *)
Definition sumZ (l : list Z) : Z := fold_left Z.add l 0.

(** [GuessItem.get_weight] *)
Definition get_weight (self : GuessItem) (selected_account : string)
  : result float :=
  selected_votes <- dict_item self selected_account ;;
  weight <- int_true_div selected_votes (sumZ (values self)) ;;
  Ok (fmul weight weight).

(** [GuessItem.get]: a dictionary comprehension over the accounts, in
    their order. *)
Fixpoint get_over (self : GuessItem) (accounts : list string)
  : result (dict string float) :=
  match accounts with
  | [] => Ok []
  | account :: rest =>
      w <- get_weight self account ;;
      d <- get_over self rest ;;
      Ok ((account, w) :: d)
  end.

Definition get (self : GuessItem) : result (dict string float) :=
  get_over self (keys self).

(** The item a term holds after the given accounts were recorded against
    it, oldest first. *)
Definition recorded (accounts : list string) : GuessItem :=
  fold_left add accounts GuessItem_init.

(** *** AccountGuess *)

(** [self.save_dict] *)
Definition AccountGuess := dict pyval GuessItem.

Definition AccountGuess_init : AccountGuess := [].

(** Body of the loop of [add_txn]: the item stored for the term, created
    when absent, records the account. *)
Definition add_item (account_name : string) (save_dict : AccountGuess)
    (item : pyval) : AccountGuess :=
  let '(guess_item, save_dict) :=
    dict_setdefault save_dict item GuessItem_init in
  dict_set save_dict item (add guess_item account_name).

(** [AccountGuess.add_txn] *)
Definition add_txn (self : AccountGuess) (txn : Transaction)
    (account_name : string) : AccountGuess :=
  fold_left (add_item account_name) (item_gen txn) self.

(** [max(xs, key=key)] on a non-empty sequence: an element replaces the
    best so far when its key is greater. *)
Fixpoint max_from {A} (key : A -> float) (best : A) (xs : list A) : A :=
  match xs with
  | [] => best
  | x :: xs' => max_from key (if flt (key best) (key x) then x else best) xs'
  end.

(** [votes.get], as the key function of [max] over the keys of [votes];
    [max] asks it for keys of the dictionary only. *)
Definition votes_get (votes : dict string float) (acc : string) : float :=
  match dict_get votes acc with
  | Some v => v
  | None => Finite 0
  end.

(** Body of the inner loop of [get_account], over the pairs of
    [item_dict.items()]: the length is taken, converted and multiplied,
    and the product is added to what [setdefault] finds, the integer zero
    for a new account. *)
Definition cast_vote (item : pyval) (votes : dict string float)
    (acc_itemvote : string * float) : result (dict string float) :=
  let acc := fst acc_itemvote in
  let itemvote := snd acc_itemvote in
  n <- py_len item ;;
  Ok (increment_dict (Finite 0) fadd votes acc
        (fmul itemvote (float_of_int n))).

(** Body of the outer loop of [get_account], over the terms. An item
    object is always truthy, so [if guess_item] tests its presence. *)
Definition tally_item (self : AccountGuess) (votes : dict string float)
    (item : pyval) : result (dict string float) :=
  match dict_get self item with
  | Some guess_item =>
      item_dict <- get guess_item ;;
      for_each (cast_vote item) item_dict votes
  | None => Ok votes
  end.

(** The two nested loops of [get_account]. *)
Definition tally (self : AccountGuess) (txn : Transaction)
  : result (dict string float) :=
  for_each (tally_item self) (item_gen txn) [].

(** [AccountGuess.get_account] *)
Definition get_account (self : AccountGuess) (txn : Transaction)
  : result (option string) :=
  votes <- tally self txn ;;
  match keys votes with
  | [] => Ok None
  | acc :: accs => Ok (Some (max_from (votes_get votes) acc accs))
  end.

(** The model after training on a history of (transaction, account)
    pairs, oldest first. *)
Definition trained (history : list (Transaction * string)) : AccountGuess :=
  fold_left (fun ag ta => add_txn ag (fst ta) (snd ta))
    history AccountGuess_init.
End Guesser.

(** ** interactive.py *)

(** A value of the nested accounts dictionary: the boolean stored under the
    terminal marker, or the dictionary of an account. *)
#[warnings="-register-all"] Inductive node : Type :=
| NBool (b : bool)
| NDict (items : list (string * node)).

(** The marker key of a selectable account. *)
Definition ROOT : string := "__root__".

(** Truth value of a node: a dictionary is true when it is not empty. *)
Definition truthy (v : node) : bool :=
  match v with
  | NBool b => b
  | NDict [] => false
  | NDict (_ :: _) => true
  end.

(** [no_root(nest_dict)]; only a dictionary has [.items()]. *)
Definition no_root (nest_dict : node) : result (dict string node) :=
  match nest_dict with
  | NDict items =>
      Ok (filter (fun kv => negb (String.eqb (fst kv) ROOT)) items)
  | NBool _ => Raise AttributeError
  end.

(** [is_root(nest_dict)], as the condition of an [if]. *)
Definition is_root (nest_dict : node) : result bool :=
  match nest_dict with
  | NDict items =>
      match dict_get items ROOT with
      | Some v => Ok (truthy v)
      | None => Ok false
      end
  | NBool _ => Raise TypeError
  end.

(** [l[idx]]: a negative index counts from the end. *)
Definition py_index {A} (l : list A) (idx : Z) : result A :=
  let n := Z.of_nat (List.length l) in
  let pos := if idx <? 0 then idx + n else idx in
  if (0 <=? pos) && (pos <? n) then
    match nth_error l (Z.to_nat pos) with
    | Some x => Ok x
    | None => Raise IndexError
    end
  else Raise IndexError.

(** [l.index(x)] *)
Fixpoint list_index (l : list string) (x : string) : result Z :=
  match l with
  | [] => Raise ValueError
  | y :: l' =>
      if String.eqb y x then Ok 0
      else i <- list_index l' x ;; Ok (i + 1)
  end.

(** [nest_dict[part]] *)
Definition subscript (nest_dict : node) (part : string) : result node :=
  match nest_dict with
  | NDict items => dict_item items part
  | NBool _ => Raise TypeError
  end.

(** [l[-1] = x] *)
Definition set_last {A} (l : list A) (x : A) : result (list A) :=
  match l with
  | [] => Raise IndexError
  | _ :: _ => Ok (removelast l ++ [x])
  end.

(** An [AccountSelector]: the accounts dictionary and the cursor. *)
Record AccountSelector := mkSelector {
  accounts_dict : dict string node;
  selected : list Z
}.

(** [AccountSelector.reset], also the state after [__init__]. *)
Definition reset (accounts_dict : dict string node) : AccountSelector :=
  mkSelector accounts_dict [0].

(** Body of the loop of [_get_account]. *)
Definition get_account_step (st : list string * node) (idx : Z)
  : result (list string * node) :=
  let '(names, nest_dict) := st in
  d <- no_root nest_dict ;;
  name <- py_index (keys d) idx ;;
  d' <- no_root nest_dict ;;
  child <- py_index (values d') idx ;;
  Ok (names ++ [name], child).

(** [AccountSelector._get_account], read through the [account] property. *)
Definition _get_account (self : AccountSelector) : result string :=
  st <- for_each get_account_step (selected self)
          ([], NDict (accounts_dict self)) ;;
  Ok (join ":" (fst st)).

(** Body of the loop of [set_account]. *)
Definition set_account_step (st : list Z * node) (part : string)
  : result (list Z * node) :=
  let '(selected, nest_dict) := st in
  d <- no_root nest_dict ;;
  idx <- list_index (keys d) part ;;
  child <- subscript nest_dict part ;;
  Ok (selected ++ [idx], child).

(** [AccountSelector.set_account] *)
Definition set_account (self : AccountSelector) (account : string)
  : result AccountSelector :=
  let account_list := split_on ":" account in
  st <- for_each set_account_step account_list
          ([], NDict (accounts_dict self)) ;;
  Ok (mkSelector (accounts_dict self) (fst st)).

(** Body of the loop of [_get_nested_dict_from_selected]. *)
Definition nested_step (nest_dict : node) (idx : Z) : result node :=
  d <- no_root nest_dict ;;
  py_index (values d) idx.

(** [AccountSelector._get_nested_dict_from_selected] *)
Definition _get_nested_dict_from_selected (self : AccountSelector)
    (selected : list Z) : result node :=
  for_each nested_step selected (NDict (accounts_dict self)).

(** [AccountSelector.get_nested_dict] *)
Definition get_nested_dict (self : AccountSelector) : result node :=
  _get_nested_dict_from_selected self (selected self).

(** [AccountSelector.prev_account] *)
Definition prev_account (self : AccountSelector) : result AccountSelector :=
  last_idx <- py_index (selected self) (-1) ;;
  selected' <- set_last (selected self) (Z.max (last_idx - 1) 0) ;;
  Ok (mkSelector (accounts_dict self) selected').

(** [AccountSelector.next_account] *)
Definition next_account (self : AccountSelector) : result AccountSelector :=
  level <- _get_nested_dict_from_selected self (removelast (selected self)) ;;
  nest_dict <- no_root level ;;
  last_idx <- py_index (selected self) (-1) ;;
  selected' <- set_last (selected self)
                 (Z.min (last_idx + 1) (Z.of_nat (List.length nest_dict) - 1)) ;;
  Ok (mkSelector (accounts_dict self) selected').

(** [AccountSelector.prev_level] *)
Definition prev_level (self : AccountSelector) : result AccountSelector :=
  if (1 <? Z.of_nat (List.length (selected self)))
  then Ok (mkSelector (accounts_dict self) (removelast (selected self)))
  else Ok self.

(** [AccountSelector.next_level] *)
Definition next_level (self : AccountSelector) : result AccountSelector :=
  nest_dict <- _get_nested_dict_from_selected self (selected self) ;;
  d <- no_root nest_dict ;;
  match d with
  | _ :: _ => Ok (mkSelector (accounts_dict self) (selected self ++ [0]))
  | [] => Ok self
  end.

(** The four navigation commands. *)
Inductive command : Set := PrevAccount | NextAccount | PrevLevel | NextLevel.

Definition navigate (self : AccountSelector) (c : command)
  : result AccountSelector :=
  match c with
  | PrevAccount => prev_account self
  | NextAccount => next_account self
  | PrevLevel => prev_level self
  | NextLevel => next_level self
  end.

(** A cursor below a node: every index addresses one of the entries of its
    level other than the marker. *)
Fixpoint valid_path (nest_dict : node) (selected : list Z) : bool :=
  match selected with
  | [] => true
  | idx :: rest =>
      match no_root nest_dict with
      | Ok d =>
          (0 <=? idx) && (idx <? Z.of_nat (List.length d))
          && match nth_error (values d) (Z.to_nat idx) with
             | Some child => valid_path child rest
             | None => false
             end
      | Raise _ => false
      end
  end.

(** A valid cursor: at least one index, and a valid path from the top. *)
Definition valid_cursor (self : AccountSelector) : bool :=
  (1 <=? Z.of_nat (List.length (selected self)))
  && valid_path (NDict (accounts_dict self)) (selected self).

(** An accounts dictionary as [get_dict_accounts] builds them: whatever is
    stored under a key other than the marker is a dictionary of the same
    kind. *)
Fixpoint wf_node (v : node) : bool :=
  match v with
  | NBool _ => false
  | NDict items =>
      forallb (fun kv => String.eqb (fst kv) ROOT || wf_node (snd kv)) items
  end.

(** The path of an account exists below a node: each part is a key of its
    level, other than the marker. *)
Fixpoint path_exists (nest_dict : node) (parts : list string) : bool :=
  match parts with
  | [] => true
  | part :: rest =>
      match nest_dict with
      | NDict items =>
          negb (String.eqb part ROOT)
          && match dict_get items part with
             | Some child => path_exists child rest
             | None => false
             end
      | NBool _ => false
      end
  end.

(** *** The review loop of [select_account] *)

(** [entry._replace(postings=...)]; the source assigns into the list held by
    the entry, which every holder of the entry then sees. *)
Definition set_postings (entry : Transaction) (ps : list Posting)
  : Transaction :=
  {| meta := meta entry; date := date entry; flag := flag entry;
     payee := payee entry; narration := narration entry; postings := ps |}.

(** [posting._replace(account=account_name)] *)
Definition replace_account (posting : Posting) (account_name : string)
  : Posting :=
  {| account := account_name; units := units posting |}.

(** [l[idx] = x] *)
Definition set_item {A} (l : list A) (idx : Z) (x : A) : result (list A) :=
  let n := Z.of_nat (List.length l) in
  let pos := if idx <? 0 then idx + n else idx in
  if (0 <=? pos) && (pos <? n) then
    Ok (firstn (Z.to_nat pos) l ++ x :: skipn (S (Z.to_nat pos)) l)
  else Raise IndexError.

(** What the loop holds while one entry is reviewed. *)
Record review := mkReview {
  account_selected : AccountSelector;
  entry : Transaction;
  ag : AccountGuess
}.

(** How one pass of [while True] ends: the loop goes on, it is left by
    [break] with the committed account name, or [Quit] is raised. *)
Inductive outcome : Type :=
| Continue (st : review)
| Break (st : review) (account_name : string)
| Quit.

Section ReviewLoop.
Context `{Interpolate}.

(** What one pass of the loop body does with the key read by [getkey],
    once the pass has drawn. *)
Definition handle_key (keystr : string) (st : review) : result outcome :=
  if String.eqb keystr "q" then Ok Quit
  else
    sel <- (if String.eqb keystr "w" then prev_account (account_selected st)
            else Ok (account_selected st)) ;;
    sel <- (if String.eqb keystr "s" then next_account sel else Ok sel) ;;
    sel <- (if String.eqb keystr "d" then next_level sel else Ok sel) ;;
    sel <- (if String.eqb keystr "a" then prev_level sel else Ok sel) ;;
    if String.eqb keystr "r" then
      nest_dict <- get_nested_dict sel ;;
      root <- is_root nest_dict ;;
      if root then
        account_name <- _get_account sel ;;
        old <- py_index (postings (entry st)) 1 ;;
        ps <- set_item (postings (entry st)) 1
                (replace_account old account_name) ;;
        let entry := set_postings (entry st) ps in
        Ok (Break (mkReview sel entry (add_txn (ag st) entry account_name))
              account_name)
      else Ok (Continue (mkReview sel (entry st) (ag st)))
    else Ok (Continue (mkReview sel (entry st) (ag st))).

(** The passes of the loop over the keys typed so far, as far as the keys
    decide them; [Continue] when it waits for more. The drawing that
    precedes every key is part of [review_keys] below. *)
Fixpoint review_loop (typed : list string) (st : review) : result outcome :=
  match typed with
  | [] => Ok (Continue st)
  | keystr :: rest =>
      o <- handle_key keystr st ;;
      match o with
      | Continue st' => review_loop rest st'
      | Break st' account_name => Ok (Break st' account_name)
      | Quit => Ok Quit
      end
  end.
End ReviewLoop.

(** ** extract.py *)

(** Name of the metadata field that marks a likely duplicate. *)
Definition DUPLICATE_META : string := "__duplicate__".

(** An entry object: its identity [id(entry)] and its fields. *)
Record object := mkObject {
  oid : nat;
  val : Transaction
}.

(** [entry._replace(meta=marked_meta)]: a new object, at the next free
    identity. *)
Definition replace_meta (next_id : nat) (entry : object)
    (marked_meta : dict string pyval) : object :=
  {| oid := next_id;
     val := {| meta := marked_meta; date := date (val entry);
               flag := flag (val entry); payee := payee (val entry);
               narration := narration (val entry);
               postings := postings (val entry) |} |}.

(** [itertools.dropwhile] *)
Fixpoint dropwhile {A} (p : A -> bool) (l : list A) : list A :=
  match l with
  | [] => []
  | x :: l' => if p x then dropwhile p l' else l
  end.

(** Body of the marking loop of [extract_from_file]; the state is the next
    free identity, [mod_entries] and [duplicate_entries]. *)
Definition mark_step (duplicate_set : list nat)
    (st : nat * list object * list object) (entry : object)
  : nat * list object * list object :=
  let '(next_id, mod_entries, duplicate_entries) := st in
  if existsb (Nat.eqb (oid entry)) duplicate_set then
    let marked_meta :=
      dict_set (meta (val entry)) DUPLICATE_META (PBool true) in
    let entry := replace_meta next_id entry marked_meta in
    (S next_id, mod_entries ++ [entry], duplicate_entries ++ [entry])
  else (next_id, mod_entries ++ [entry], duplicate_entries).

Section Extract.
(** [data.sanity_check_types]: false when its assertions fail. *)
Variable sanity_check_types : Transaction -> bool -> bool.
(** [similar.find_similar_entries]: pairs of a new and an existing entry. *)
Variable find_similar_entries :
  list object -> list object -> list (object * object).

(** [extract_from_file], from the entries [importer.extract(file)] returned
    ([None] counts as no entries); [next_id] is the first identity no
    object has yet. *)
Definition extract_from_file (next_id : nat) (new_entries : list object)
    (existing_entries : option (list object)) (min_date : option Z)
    (allow_none_for_tags_and_links : bool)
  : result (list object * list object) :=
  match new_entries with
  | [] => Ok ([], [])
  | _ :: _ =>
      _ <- for_each
             (fun (_ : unit) entry =>
                if sanity_check_types (val entry) allow_none_for_tags_and_links
                then Ok tt else Raise AssertionError)
             new_entries tt ;;
      let new_entries :=
        match min_date with
        | Some min_date =>
            dropwhile (fun x => date (val x) <? min_date) new_entries
        | None => new_entries
        end in
      match existing_entries with
      | Some existing_entries =>
          let duplicate_pairs :=
            find_similar_entries new_entries existing_entries in
          let duplicate_set := map (fun pair => oid (fst pair)) duplicate_pairs in
          let '(_, mod_entries, duplicate_entries) :=
            fold_left (mark_step duplicate_set) new_entries (next_id, [], []) in
          Ok (mod_entries, duplicate_entries)
      | None => Ok (new_entries, [])
      end
  end.
End Extract.

(** *** The training pass of [main] *)

(** The flag of a cleared transaction, imported from
    [beancount.core.flags]. *)
Class Flags := { FLAG_OKAY : string }.

(** A call of a logging method: the level of the method, the format
    string and the arguments. The calls are kept as they are made; which of
    them a handler writes out depends on the level of the logger. *)
Record log_record := mkLog {
  levelname : string;
  message : string;
  args : list pyval
}.

(** The numeric value of a level of [logging]. *)
Definition levelno (name : string) : Z :=
  if String.eqb name "CRITICAL" then 50
  else if String.eqb name "ERROR" then 40
  else if String.eqb name "WARNING" then 30
  else if String.eqb name "INFO" then 20
  else if String.eqb name "DEBUG" then 10
  else 0.

(** The calls that loggers of the given effective level pass on to their
    handlers. *)
Definition emitted (level : string) (log : list log_record)
  : list log_record :=
  filter (fun r => levelno level <=? levelno (levelname r)) log.

(** [except KeyError: raise] around a body. *)
Definition reraise_KeyError {A} (body : result A) : result A :=
  match body with
  | Raise KeyError => Raise KeyError
  | other => other
  end.

Section Training.
Context `{Interpolate} `{Flags}.

(** The call [add_txn] makes to its logger before its loop: the format
    string has a line feed before the placeholder, and the argument is the
    list of the terms. *)
Definition add_txn_record (txn : Transaction) : log_record :=
  {| levelname := "DEBUG";
     message := "add_txn items:" ++ String (ascii_of_nat 10) "%s";
     args := item_gen txn |}.

(** The loop of the training pass over the transactions of the ledger; the
    logging calls made so far are returned also when an exception ends
    it. *)
Fixpoint train (ag : AccountGuess) (txns : list Transaction)
    (log : list log_record) : result AccountGuess * list log_record :=
  match txns with
  | [] => (Ok ag, log)
  | txn :: rest =>
      if String.eqb (flag txn) FLAG_OKAY then
        match reraise_KeyError
                (second <- py_index (postings txn) 1 ;; Ok (account second))
        with
        | Ok account_name =>
            train (add_txn ag txn account_name) rest
              (log ++ [add_txn_record txn])
        | Raise e => (Raise e, log)
        end
      else train ag rest log
  end.

(** The suggestion model [main] hands to the review: none without
    [--guessing], trained only with [--train]. *)
Definition main_training (ag_active do_train : bool)
    (txns : list Transaction) (log : list log_record)
  : result (option AccountGuess) * list log_record :=
  if ag_active then
    if do_train then
      match train AccountGuess_init txns log with
      | (Ok ag, log') => (Ok (Some ag), log')
      | (Raise e, log') => (Raise e, log')
      end
    else (Ok (Some AccountGuess_init), log)
  else (Ok None, log).
End Training.

(** ** Notions used to state the properties of guesser.py *)

Definition is_str (x : pyval) : bool :=
  match x with PStr _ => true | PBool _ | PObj _ | PSized _ _ => false end.

(** The value has a length. *)
Definition has_len (x : pyval) : bool :=
  match py_len x with Ok _ => true | Raise _ => false end.

(** The count stored for an account, zero when there is none. *)
Definition count_of (d : GuessItem) (a : string) : Z :=
  match dict_get d a with Some c => c | None => 0 end.

(** The weight of a count among a total, as [get_weight] computes it: the
    quotient is rounded, and so is its square. *)
Definition share_sq (total c : Z) : float :=
  let weight := round64 (inject_Z c / inject_Z total) in
  fmul weight weight.

(** What one term adds to the vote of an account: the product of the
    weight its item gives the account and of the length of the term;
    nothing when the term has no item, the item does not know the account,
    or the term has no length. *)
Definition add_vote (self : AccountGuess) (acc : string) (vote : float)
    (item : pyval) : float :=
  match dict_get self item with
  | Some guess_item =>
      match dict_get guess_item acc, py_len item with
      | Some count, Ok n =>
          fadd vote
            (fmul (share_sq (sumZ (values guess_item)) count) (float_of_int n))
      | _, _ => vote
      end
  | None => vote
  end.

(** The vote of an account over a sequence of terms: the float sum, from
    zero and in the order of the terms, of what the terms add. *)
Definition vote_of (self : AccountGuess) (items : list pyval) (acc : string)
  : float :=
  fold_left (add_vote self acc) items (Finite 0).

(** Sum of the squares of the counts. *)
Definition sumsq (cs : list Z) : Z := sumZ (map (fun c => c * c) cs).

(** The sum of rationals, without rounding. *)
Definition sumQ (l : list Q) : Q := fold_left Qplus l 0%Q.

(** A float that is not negative: a finite one from zero on, or the
    positive infinity. *)
Definition nonneg (v : float) : bool :=
  match v with
  | Finite q => Qle_bool 0 q
  | Inf negative => negb negative
  | NaN => false
  end.

(** A weight of an item and the count it comes from, among a total: the
    weight is a float of the interval (0, 1], and exceeds the exact square
    of the share by a relative error of at most [2 ** -51]. *)
Definition weighs (t : Z) (c : Z) (w : Q) : Prop :=
  share_sq t c = Finite w
  /\ (0 < w)%Q /\ (w <= 1)%Q
  /\ (w * (inject_Z t * inject_Z t)
      <= inject_Z (c * c) * (1 + pow2 (-51)))%Q.

(** Every stored item holds at least one recording. *)
Definition items_recorded (self : AccountGuess) : Prop :=
  forall item guess_item,
    dict_get self item = Some guess_item ->
    exists accounts, accounts <> [] /\ guess_item = recorded accounts.

(** ** Sample data *)

(** The values the three keys have in beancount. *)
Definition beancount_interpolate : Interpolate :=
  {| AUTOMATIC_META := "__automatic__";
     AUTOMATIC_RESIDUAL := "__residual__";
     AUTOMATIC_TOLERANCES := "__tolerances__" |}.

(** A card payment at a coffee shop, with two postings. *)
Definition starbucks (second : string) : Transaction :=
  {| meta := [("filename", PStr "card.csv"); ("lineno", PObj 7)];
     date := 20180301;
     flag := "*";
     payee := None;
     narration := "STARBUCKS";
     postings := [mkPosting "Liabilities:Card" (-450); mkPosting second 450] |}.

Definition starbucks_history : list (Transaction * string) :=
  [(starbucks "Expenses:Coffee", "Expenses:Coffee");
   (starbucks "Expenses:Dining", "Expenses:Dining");
   (starbucks "Expenses:Coffee", "Expenses:Coffee");
   (starbucks "Expenses:Coffee", "Expenses:Coffee")].

(** A transaction that has a narration and nothing else, and a history
    after which the votes of two accounts for the narration AB C are equal
    as exact numbers: 2 * (2/3)^2 + (1/6)^2 for Expenses:Coffee and
    2 * (1/3)^2 + (5/6)^2 for Expenses:Dining. *)
Definition note (narration : string) : Transaction :=
  {| meta := []; date := 20180301; flag := "*"; payee := None;
     narration := narration; postings := [] |}.

Definition tied_history : list (Transaction * string) :=
  [(note "AB", "Expenses:Coffee"); (note "AB", "Expenses:Coffee");
   (note "AB", "Expenses:Dining");
   (note "C", "Expenses:Coffee"); (note "C", "Expenses:Dining");
   (note "C", "Expenses:Dining"); (note "C", "Expenses:Dining");
   (note "C", "Expenses:Dining"); (note "C", "Expenses:Dining")].

(** A transaction carrying a numeric metadata value. *)
Definition with_quantity (txn : Transaction) : Transaction :=
  {| meta := meta txn ++ [("quantity", PObj 2)];
     date := date txn; flag := flag txn; payee := payee txn;
     narration := narration txn; postings := postings txn |}.


(** The accounts dictionary of Expenses:Toys:Computer, with a second
    top-level account. *)
Definition toys_accounts : dict string node :=
  [("Expenses",
    NDict [("Toys", NDict [("Computer", NDict [(ROOT, NBool true)])])]);
   ("Assets",
    NDict [(ROOT, NBool true); ("Cash", NDict [(ROOT, NBool true)])])].

(** ** Notions used to state the properties of extract.py *)

(** [o] carries what [e] carries, and its metadata map the duplicate key to
    [True] besides. *)
Definition marked_copy (e o : object) : Prop :=
  dict_get (meta (val o)) DUPLICATE_META = Some (PBool true)
  /\ (forall key, key <> DUPLICATE_META ->
                  dict_get (meta (val o)) key = dict_get (meta (val e)) key)
  /\ date (val o) = date (val e)
  /\ flag (val o) = flag (val e)
  /\ payee (val o) = payee (val e)
  /\ narration (val o) = narration (val e)
  /\ postings (val o) = postings (val e).

(** The entry is, as an object, the new entry of one of the pairs. *)
Definition in_pairs (pairs : list (object * object)) (e : object) : bool :=
  existsb (fun pair => Nat.eqb (oid (fst pair)) (oid e)) pairs.

(** The entries left after the cut-off at [min_date]. *)
Definition after_cutoff (min_date : option Z) (new_entries : list object)
  : list object :=
  match min_date with
  | Some d => dropwhile (fun x => date (val x) <? d) new_entries
  | None => new_entries
  end.

(** Entries in ascending order of date. *)
Definition date_ordered (entries : list object) : Prop :=
  Sorted (fun a b => date (val a) <= date (val b)) entries.
(** A collaborator that pairs entries of the same date, and a check that
    accepts every entry. *)
Definition same_date_pairs (new_entries existing_entries : list object)
  : list (object * object) :=
  flat_map
    (fun e =>
       map (fun x => (e, x))
         (filter (fun x => date (val x) =? date (val e)) existing_entries))
    new_entries.

Definition accept_all (entry : Transaction) (allow : bool) : bool := true.

(** Three extracted entries in date order, and a ledger that holds the
    second. *)
Definition on_date (d : Z) (txn : Transaction) : Transaction :=
  {| meta := meta txn; date := d; flag := flag txn; payee := payee txn;
     narration := narration txn; postings := postings txn |}.

Definition extracted : list object :=
  [mkObject 1 (on_date 20180301 (starbucks ""));
   mkObject 2 (on_date 20180305 (starbucks ""));
   mkObject 3 (on_date 20180309 (starbucks ""))].

Definition ledger : list object :=
  [mkObject 0 (on_date 20180305 (starbucks "Expenses:Coffee"))].

(** The flag of a cleared transaction in beancount. *)
Definition beancount_flags : Flags := {| FLAG_OKAY := "*" |}.

(** A cleared transaction with a single posting. *)
Definition lone_posting : Transaction :=
  {| meta := [("filename", PStr "ledger.beancount"); ("lineno", PObj 12)];
     date := 20180214;
     flag := "*";
     payee := None;
     narration := "Opening balance";
     postings := [mkPosting "Assets:Cash" 10000] |}.

(** ** Further notions for guesser.py *)

(** The count the model holds for a term and an account, zero when the term
    or the account is unknown. *)
Definition stored_count (self : AccountGuess) (item : pyval) (acc : string)
  : Z :=
  match dict_get self item with
  | Some guess_item => count_of guess_item acc
  | None => 0
  end.

(** How often a term occurs in a sequence of terms. *)
Definition occurrences (item : pyval) (items : list pyval) : Z :=
  Z.of_nat (List.length (filter (pyval_eqb item) items)).

Section Seen.
Context `{Interpolate}.

(** How often a term was seen with an account over a training history: the
    occurrences of the term in the transactions trained with that account. *)
Fixpoint seen (history : list (Transaction * string)) (item : pyval)
    (acc : string) : Z :=
  match history with
  | [] => 0
  | (txn, a) :: rest =>
      (if String.eqb a acc then occurrences item (item_gen txn) else 0)
      + seen rest item acc
  end.
End Seen.

(** ** Further notions for interactive.py *)

(** The node a path of account parts names, by subscripting. *)
Definition node_at (nest_dict : node) (parts : list string) : result node :=
  for_each subscript parts nest_dict.

(** A string without the separator of account names. *)
Fixpoint colon_free (s : string) : bool :=
  match s with
  | EmptyString => true
  | String c s' => negb (Ascii.eqb c ":") && colon_free s'
  end.

(** No string occurs twice. *)
Fixpoint distinct (l : list string) : bool :=
  match l with
  | [] => true
  | x :: l' => negb (existsb (String.eqb x) l') && distinct l'
  end.

(** An accounts dictionary whose keys are, as in a Python dictionary,
    distinct at every level, and whose account parts are free of the
    separator, as the parts of split account names are. *)
Fixpoint tidy_node (v : node) : bool :=
  match v with
  | NBool _ => false
  | NDict items =>
      distinct (keys items)
      && forallb
           (fun kv =>
              String.eqb (fst kv) ROOT
              || (colon_free (fst kv) && tidy_node (snd kv)))
           items
  end.

(** The navigation command a key stands for in the review loop. *)
Definition key_command (keystr : string) : option command :=
  if String.eqb keystr "w" then Some PrevAccount
  else if String.eqb keystr "s" then Some NextAccount
  else if String.eqb keystr "d" then Some NextLevel
  else if String.eqb keystr "a" then Some PrevLevel
  else None.

(** *** The session of [select_account] *)

Section Seed.
Context `{Interpolate}.

(** The selector an entry is reviewed with: a new one, moved to the guess
    for the entry when guessing is active and there is a guess. *)
Definition seed (accounts_dict : dict string node) (ag_active : bool)
    (ag : AccountGuess) (entry : Transaction) : result AccountSelector :=
  let account_selected := reset accounts_dict in
  account_name <- get_account ag entry ;;
  match account_name with
  | Some name =>
      if ag_active then set_account account_selected name
      else Ok account_selected
  | None => Ok account_selected
  end.
End Seed.

(** The list objects the [postings] fields of the entries refer to, by
    their identity. An entry is an immutable tuple; the assignment
    [entry.postings[1] = ...] changes the list, for every entry that holds
    it and for every place the entry is listed at. *)
Definition store := nat -> list Posting.

(** An assignment into the list object [id], which leaves it as [ps]. *)
Definition store_set (lists : store) (id : nat) (ps : list Posting) : store :=
  fun i => if Nat.eqb i id then ps else lists i.

(** An entry of the list [select_account] is given: the tuple, and the
    identity of the list object its [postings] field refers to. The
    postings are those the store holds for it; the [postings] of [tuple]
    are not read. *)
Record entry_ref := mkEntryRef {
  tuple : Transaction;
  postings_id : nat
}.

(** The entry as it is read at a given moment. *)
Definition deref (lists : store) (e : entry_ref) : Transaction :=
  set_postings (tuple e) (lists (postings_id e)).

(** How a session ends: every entry was reviewed, [Quit] was raised and
    caught, or the keys typed so far ran out. *)
Inductive session_end : Set := Finished | Aborted | Waiting.

Section Session.
Context `{Interpolate}.

(** The calls into [curses] and the drawing functions built on them. Each
    returns or raises ([curses.error] when a string does not fit its
    window); none changes an entry, the selector or the model.
    - [setup]: what precedes the loop over the entries, from [getmaxyx] to
      the first [refresh], with a panel for each entry;
    - [show_panel]: [itempanel.show()], [update_panels()] and [refresh]
      at the start of an entry;
    - [draw_screen]: the calls of one pass before the key is read:
      [clear], [draw_txn], [draw_accounts], [refresh];
    - [draw_commit]: the calls after the loop of an entry: [draw_txn],
      [draw_account], the two [refresh], [sleep] and [hide]. *)
Variable setup : list Transaction -> result unit.
Variable show_panel : Transaction -> result unit.
Variable draw_screen : Transaction -> AccountSelector -> result unit.
Variable draw_commit : Transaction -> string -> result unit.

(** The [while True] loop of one entry over the keys typed, with the keys
    it leaves: every pass draws, then reads a key; [Continue] when the
    keys ran out at [getkey]. *)
Fixpoint review_keys (typed : list string) (st : review)
  : result (outcome * list string) :=
  _ <- draw_screen (entry st) (account_selected st) ;;
  match typed with
  | [] => Ok (Continue st, [])
  | keystr :: rest =>
      o <- handle_key keystr st ;;
      match o with
      | Continue st' => review_keys rest st'
      | Break st' account_name => Ok (Break st' account_name, rest)
      | Quit => Ok (Quit, rest)
      end
  end.

(** The loop of [select_account] over the entries: the list objects as the
    session leaves them, the suggestion model, and how it ended. A commit
    assigns into the list object of the entry. *)
Fixpoint review_entries (accounts_dict : dict string node) (ag_active : bool)
    (ag : AccountGuess) (lists : store) (entries : list entry_ref)
    (typed : list string)
  : result (store * AccountGuess * session_end) :=
  match entries with
  | [] => Ok (lists, ag, Finished)
  | e :: rest =>
      let entry := deref lists e in
      _ <- show_panel entry ;;
      account_selected <- seed accounts_dict ag_active ag entry ;;
      r <- review_keys typed (mkReview account_selected entry ag) ;;
      match r with
      | (Break (mkReview _ committed trained_ag) account_name, typed') =>
          let lists := store_set lists (postings_id e) (postings committed) in
          _ <- draw_commit (deref lists e) account_name ;;
          review_entries accounts_dict ag_active trained_ag lists rest typed'
      | (Quit, _) => Ok (lists, ag, Aborted)
      | (Continue _, _) => Ok (lists, ag, Waiting)
      end
  end.

(** [select_account]: without a model, guessing is off and a new model
    learns from the commits. *)
Definition select_account (entries : list entry_ref)
    (accounts_dict : dict string node) (ag : option AccountGuess)
    (lists : store) (typed : list string)
  : result (store * AccountGuess * session_end) :=
  _ <- setup (map (deref lists) entries) ;;
  match ag with
  | Some ag => review_entries accounts_dict true ag lists entries typed
  | None =>
      review_entries accounts_dict false AccountGuess_init lists entries typed
  end.
End Session.

(** An accounts dictionary with the accounts of the coffee shop history. *)
Definition coffee_accounts : dict string node :=
  [("Expenses",
    NDict [("Coffee", NDict [(ROOT, NBool true)]);
           ("Dining", NDict [(ROOT, NBool true)])]);
   ("Liabilities", NDict [("Card", NDict [(ROOT, NBool true)])])].



(** Drawing that always fits its window, of one and of two arguments, and
    drawing into a window that holds the accounts of two levels only. *)
Definition fits {A} (x : A) : result unit := Ok tt.

Definition fits2 {A B} (x : A) (y : B) : result unit := Ok tt.

Definition draws_two_levels (entry : Transaction)
    (account_selected : AccountSelector) : result unit :=
  if (Z.of_nat (List.length (selected account_selected)) <=? 2)
  then Ok tt else Raise curses_error.

(** The list objects of two entries that each hold their own list, and of
    one entry listed twice. *)
Definition card_lists : store :=
  fun _ => [mkPosting "Liabilities:Card" (-450); mkPosting "" 450].

(** *** [extract] and [print_extracted_entries] *)

(** The key of the options map [extract] reads. *)
Definition ALLOW_NONE_OPTION : string :=
  "allow_deprecated_none_for_tags_and_links".

(** [options_map and options_map[key]]: [None] and the empty map are false,
    another map is subscripted. *)
Definition allow_none_option (options_map : option (dict string bool))
  : result bool :=
  match options_map with
  | None => Ok false
  | Some [] => Ok false
  | Some (kv :: rest) => dict_item (kv :: rest) ALLOW_NONE_OPTION
  end.

(** The two records [extract] logs when it catches an exception; of their
    arguments the name of the importer is kept, the text of the exception
    and of the traceback is not. *)
Definition extract_error_records (importer_name : string)
  : list log_record :=
  [ {| levelname := "ERROR";
       message := "Importer %s.extract() raised an unexpected error: %s";
       args := [PStr importer_name] |};
    {| levelname := "ERROR"; message := "Traceback: %s"; args := [] |} ].

Section ExtractWrapper.
Variable sanity_check_types : Transaction -> bool -> bool.
Variable find_similar_entries :
  list object -> list object -> list (object * object).

(** [extract]: [extracted] is what [importer.extract(file)] returns or
    raises; the result goes with the records logged. The subscript of the
    options map is outside the [try]. *)
Definition extract (importer_name : string)
    (extracted : result (list object)) (next_id : nat)
    (entries : option (list object))
    (options_map : option (dict string bool)) (mindate : option Z)
    (ascending : bool) (log : list log_record)
  : result (list object) * list log_record :=
  match allow_none_option options_map with
  | Raise e => (Raise e, log)
  | Ok allow_none_for_tags_and_links =>
      match
        new_entries <- extracted ;;
        extract_from_file sanity_check_types find_similar_entries next_id
          new_entries entries mindate allow_none_for_tags_and_links
      with
      | Raise _ => (Ok [], log ++ extract_error_records importer_name)
      | Ok (new_entries, duplicate_entries) =>
          match new_entries, duplicate_entries with
          | [], [] => (Ok [], log)
          | _, _ =>
              if ascending then (Ok new_entries, log)
              else (Ok (rev new_entries), log)
          end
      end
  end.
End ExtractWrapper.

(** The header of the extracted output, which ends in a line feed. *)
Definition HEADER : string :=
  ";; -*- mode: beancount -*-" ++ String (ascii_of_nat 10) "".

(** [SECTION.format(filename)] for the template of the section titles. *)
Definition SECTION_format (filename : string) : string :=
  "**** " ++ filename.

(** [d.pop(k)] on a dictionary that holds [k]: the dictionary without it. *)
Fixpoint dict_pop {V} (d : dict string V) (k : string) : dict string V :=
  match d with
  | [] => []
  | (k', v) :: d' =>
      if String.eqb k' k then d' else (k', v) :: dict_pop d' k
  end.

(** [entry._replace(meta=meta)] on the fields of an entry. *)
Definition set_meta (entry : Transaction) (m : dict string pyval)
  : Transaction :=
  {| meta := m; date := date entry; flag := flag entry;
     payee := payee entry; narration := narration entry;
     postings := postings entry |}.

Section Printing.
(** [printer.format_entry] and [textwrap.indent]. *)
Variable format_entry : Transaction -> string.
Variable indent : string -> string -> string.

(** The string printed for one entry. *)
Definition entry_string (entry : Transaction) : string :=
  if dict_mem (meta entry) DUPLICATE_META then
    let meta := dict_pop (meta entry) DUPLICATE_META in
    let entry := set_meta entry meta in
    indent (format_entry entry) "; "
  else format_entry entry.

(** [print_extracted_entries]: the strings handed to [print], in order. *)
Definition print_extracted_entries (entries : list Transaction)
    (filename : string) : list string :=
  [HEADER; ""; SECTION_format filename; ""]
  ++ map entry_string entries
  ++ [""].
End Printing.
(** Extracted entries out of date order. *)
Definition unordered : list object :=
  [mkObject 1 (on_date 20180301 (starbucks ""));
   mkObject 2 (on_date 20180309 (starbucks ""));
   mkObject 3 (on_date 20180302 (starbucks ""))].

(** The account of the second posting, when there is one. *)
Definition second_account (txn : Transaction) : string :=
  match postings txn with
  | _ :: second :: _ => account second
  | _ => ""
  end.

Section TrainingPairs.
Context `{Flags}.

(** The cleared transactions of a ledger, each with the account of its
    second posting. *)
Definition training_pairs (txns : list Transaction)
  : list (Transaction * string) :=
  map (fun txn => (txn, second_account txn))
    (filter (fun txn => String.eqb (flag txn) FLAG_OKAY) txns).
End TrainingPairs.

(** Two extracted entries marked as duplicates, as [extract_from_file]
    leaves them. *)
Definition flagged (txn : Transaction) : Transaction :=
  set_meta txn (dict_set (meta txn) DUPLICATE_META (PBool true)).

(** * Properties *)

(** ** Dictionaries *)

#[export] Instance string_HashableLaws : HashableLaws string.
Proof. constructor. exact String.eqb_spec. Qed.

#[export] Instance pyval_HashableLaws : HashableLaws pyval.
Proof.
  constructor. intros [s|x|n|n k] [t|y|m|m l]; simpl;
    try (constructor; congruence).
  - destruct (String.eqb_spec s t); constructor; congruence.
  - destruct x, y; constructor; congruence.
  - destruct (Nat.eqb_spec n m); constructor; congruence.
  - destruct (Nat.eqb_spec n m), (Nat.eqb_spec k l); constructor; congruence.
Qed.

Section DictFacts.
Context {K V : Type} `{HashableLaws K}.
Implicit Types (d : dict K V) (k : K) (v : V).

Lemma keqb_refl k : keqb k k = true.
Proof. destruct (keqb_spec k k); congruence. Qed.

Lemma keqb_neq k k' : k <> k' -> keqb k k' = false.
Proof. destruct (keqb_spec k k'); congruence. Qed.

Lemma dict_get_None d k : dict_get d k = None <-> ~ In k (keys d).
Proof.
  induction d as [|[k' v'] d IH]; simpl; [tauto|].
  destruct (keqb_spec k' k) as [->|Hne].
  - split; [discriminate | intros Hn; exfalso; apply Hn; now left].
  - rewrite IH. split; [intros Hn [E|Hi]; [congruence | tauto] | tauto].
Qed.

Lemma dict_get_Some_In d k v : dict_get d k = Some v -> In (k, v) d.
Proof.
  induction d as [|[k' v'] d IH]; simpl; [discriminate|].
  destruct (keqb_spec k' k) as [->|Hne].
  - intros [= ->]. now left.
  - intros Hg. right. now apply IH.
Qed.

Lemma In_dict_get d k v :
  NoDup (keys d) -> In (k, v) d -> dict_get d k = Some v.
Proof.
  induction d as [|[k' v'] d IH]; simpl; [tauto|].
  intros Hnd [E|Hi]; inversion Hnd as [|? ? Hni Hnd']; subst.
  - injection E as -> ->. now rewrite keqb_refl.
  - destruct (keqb_spec k' k) as [->|Hne]; [|now apply IH].
    exfalso. apply Hni. change k with (fst (k, v)). now apply in_map.
Qed.

Lemma dict_get_set_same d k v : dict_get (dict_set d k v) k = Some v.
Proof.
  induction d as [|[k' v'] d IH]; simpl.
  - now rewrite keqb_refl.
  - destruct (keqb_spec k' k) as [->|Hne]; simpl.
    + now rewrite keqb_refl.
    + now rewrite keqb_neq.
Qed.

Lemma dict_get_set_other d k k' v :
  k <> k' -> dict_get (dict_set d k v) k' = dict_get d k'.
Proof.
  intros Hne. induction d as [|[k0 v0] d IH]; simpl.
  - now rewrite keqb_neq.
  - destruct (keqb_spec k0 k) as [->|Hne0]; simpl.
    + now rewrite keqb_neq.
    + now rewrite IH.
Qed.

Lemma dict_set_set d k v v' : dict_set (dict_set d k v) k v' = dict_set d k v'.
Proof.
  induction d as [|[k0 v0] d IH]; simpl.
  - now rewrite keqb_refl.
  - destruct (keqb_spec k0 k) as [->|Hne0]; simpl.
    + now rewrite keqb_refl.
    + rewrite keqb_neq by assumption. now rewrite IH.
Qed.

Lemma keys_dict_set_present d k v v' :
  dict_get d k = Some v' -> keys (dict_set d k v) = keys d.
Proof.
  induction d as [|[k0 v0] d IH]; simpl; [discriminate|].
  destruct (keqb_spec k0 k) as [->|Hne0]; simpl; [reflexivity|].
  intros Hg. f_equal. now apply IH.
Qed.

Lemma dict_set_absent d k v :
  dict_get d k = None -> dict_set d k v = d ++ [(k, v)].
Proof.
  induction d as [|[k0 v0] d IH]; simpl; [reflexivity|].
  destruct (keqb_spec k0 k) as [->|Hne0]; [discriminate|].
  intros Hg. f_equal. now apply IH.
Qed.

(** [increment_dict] read as one update. *)
Lemma increment_dict_eq (zero : V) (plus : V -> V -> V) d k inc :
  increment_dict zero plus d k inc =
  dict_set d k (plus (match dict_get d k with Some x => x | None => zero end)
                  inc).
Proof.
  unfold increment_dict, dict_setdefault.
  destruct (dict_get d k) eqn:E; [reflexivity|]. apply dict_set_set.
Qed.

Lemma keys_dict_set d k v :
  keys (dict_set d k v) = if dict_mem d k then keys d else keys d ++ [k].
Proof.
  unfold dict_mem. destruct (dict_get d k) eqn:E.
  - eapply keys_dict_set_present; eassumption.
  - rewrite dict_set_absent by assumption. unfold keys. now rewrite map_app.
Qed.

Lemma In_keys_dict_set d k v k' :
  In k' (keys (dict_set d k v)) <-> k' = k \/ In k' (keys d).
Proof.
  rewrite keys_dict_set. unfold dict_mem.
  destruct (dict_get d k) eqn:E.
  - split; [tauto|]. intros [->|Hi]; [|assumption].
    apply dict_get_Some_In in E. change k with (fst (k, v0)). now apply in_map.
  - rewrite in_app_iff. simpl. split; intros Hi; intuition congruence.
Qed.

Lemma NoDup_keys_dict_set d k v :
  NoDup (keys d) -> NoDup (keys (dict_set d k v)).
Proof.
  intros Hnd. rewrite keys_dict_set. unfold dict_mem.
  destruct (dict_get d k) eqn:E; [assumption|].
  apply dict_get_None in E.
  apply NoDup_app; [assumption | repeat constructor; simpl; tauto|].
  intros x Hx [<-|[]]. tauto.
Qed.
End DictFacts.

(** ** Floating-point numbers *)

Lemma pow2_pos e : (0 < pow2 e)%Q.
Proof. apply Qpower_0_lt. reflexivity. Qed.

Lemma pow2_add a b : (pow2 (a + b) == pow2 a * pow2 b)%Q.
Proof. apply Qpower_plus. discriminate. Qed.

Lemma pow2_sub a b : (pow2 (a - b) == pow2 a / pow2 b)%Q.
Proof. apply Qpower_minus. discriminate. Qed.

Lemma pow2_le a b : a <= b -> (pow2 a <= pow2 b)%Q.
Proof. intros Hab. apply Qpower_le_compat_l; [exact Hab | discriminate]. Qed.

Lemma pow2_lt_inv a b : (pow2 a < pow2 b)%Q -> a < b.
Proof. intros Hab. eapply Qpower_lt_compat_l_inv; [exact Hab | reflexivity]. Qed.

Lemma pow2_Z n : 0 <= n -> (pow2 n == inject_Z (2 ^ n))%Q.
Proof. intros Hn. unfold pow2. now rewrite Zpower_Qpower. Qed.

Lemma pow2_succ a : (pow2 (a + 1) == 2 * pow2 a)%Q.
Proof. rewrite pow2_add. change (pow2 1) with 2%Q. ring. Qed.

Lemma Q_as_fraction (x : Q) :
  (x * inject_Z (Zpos (Qden x)) == inject_Z (Qnum x))%Q.
Proof. destruct x as [n d]. unfold Qeq, Qmult, inject_Z. simpl. lia. Qed.

Lemma Qnum_pos (x : Q) : (0 < x)%Q -> 0 < Qnum x.
Proof. destruct x as [n d]. unfold Qlt. simpl. lia. Qed.

(** [ilog2] is the integer part of the binary logarithm. *)
Lemma ilog2_spec x :
  (0 < x)%Q -> (pow2 (ilog2 x) <= x /\ x < pow2 (ilog2 x + 1))%Q.
Proof.
  intros Hx. pose proof (Qnum_pos Hx) as Hn. pose proof (Q_as_fraction x) as Hf.
  unfold ilog2.
  set (n := Qnum x) in *. set (d := Zpos (Qden x)) in *.
  assert (Hd : 0 < d) by (unfold d; lia).
  destruct (Z.log2_spec n Hn) as [Hn1 Hn2].
  destruct (Z.log2_spec d Hd) as [Hd1 Hd2].
  pose proof (Z.log2_nonneg n) as Ha. pose proof (Z.log2_nonneg d) as Hb.
  set (a := Z.log2 n) in *. set (b := Z.log2 d) in *.
  rewrite Zle_Qle, <- pow2_Z in Hn1, Hd1 by lia.
  rewrite Zlt_Qlt in Hn2, Hd2. rewrite <- (@pow2_Z (Z.succ a)) in Hn2 by lia.
  rewrite <- (@pow2_Z (Z.succ b)) in Hd2 by lia.
  unfold Z.succ in *. rewrite pow2_succ in Hn2, Hd2.
  assert (Hk : (pow2 (a - b) * pow2 b == pow2 a)%Q).
  { rewrite <- pow2_add. replace (a - b + b) with a by lia. reflexivity. }
  pose proof (pow2_pos a). pose proof (pow2_pos b). pose proof (pow2_pos (a - b)).
  assert (HD : (0 < inject_Z d)%Q) by lra.
  destruct (Qle_bool (pow2 (a - b)) x) eqn:E.
  - apply Qle_bool_iff in E. split; [exact E|]. rewrite pow2_succ.
    apply Qnot_le_lt. intros Hc.
    assert ((2 * pow2 (a - b)) * inject_Z d <= x * inject_Z d)%Q by nra.
    nra.
  - assert (Hlt : (x < pow2 (a - b))%Q).
    { apply Qnot_le_lt. intros Hc. apply Qle_bool_iff in Hc. congruence. }
    replace (a - b - 1 + 1) with (a - b) by lia. split; [|exact Hlt].
    assert (Hh : (2 * pow2 (a - b - 1) == pow2 (a - b))%Q).
    { rewrite <- pow2_succ. replace (a - b - 1 + 1) with (a - b) by lia.
      reflexivity. }
    apply Qnot_lt_le. intros Hc.
    assert (x * inject_Z d < pow2 (a - b - 1) * inject_Z d)%Q by nra.
    nra.
Qed.

Lemma ilog2_monotone x y : (0 < x)%Q -> (x <= y)%Q -> ilog2 x <= ilog2 y.
Proof.
  intros Hx Hxy. destruct (ilog2_spec Hx) as [H1 _].
  assert (Hy : (0 < y)%Q) by lra.
  destruct (ilog2_spec Hy) as [_ H2].
  assert (ilog2 x < ilog2 y + 1) by (apply pow2_lt_inv; lra).
  lia.
Qed.

(** The last bit of a positive number: the number is below 53 bits from
    it, and reaches 52 bits from it unless it is subnormal. *)
Lemma exponent_spec x :
  (0 < x)%Q ->
  (x < pow2 (exponent x + 53))%Q
  /\ (-1074 <= exponent x)
  /\ (-1074 < exponent x -> (pow2 (exponent x + 52) <= x)%Q).
Proof.
  intros Hx. destruct (ilog2_spec Hx) as [H1 H2]. unfold exponent.
  split; [|split].
  - eapply Qlt_le_trans; [exact H2|]. apply pow2_le. lia.
  - lia.
  - intros Hn. replace (Z.max (ilog2 x - 52) (-1074) + 52) with (ilog2 x) by lia.
    exact H1.
Qed.

Lemma exponent_monotone x y :
  (0 < x)%Q -> (x <= y)%Q -> exponent x <= exponent y.
Proof.
  intros Hx Hxy. pose proof (ilog2_monotone Hx Hxy). unfold exponent. lia.
Qed.

Lemma rne_bounds m :
  (inject_Z (rne m) - m <= 1 # 2)%Q /\ (m - inject_Z (rne m) <= 1 # 2)%Q.
Proof.
  unfold rne. pose proof (Qfloor_le m) as H1. pose proof (Qlt_floor m) as H2.
  rewrite inject_Z_plus in H2. change (inject_Z 1) with 1%Q in H2.
  set (f := Qfloor m) in *.
  destruct (Qcompare_spec (m - inject_Z f) (1 # 2)) as [E|E|E].
  - destruct (Z.even f);
      [|rewrite inject_Z_plus; change (inject_Z 1) with 1%Q]; lra.
  - lra.
  - rewrite inject_Z_plus; change (inject_Z 1) with 1%Q; lra.
Qed.

Lemma rne_monotone m m' : (m <= m')%Q -> rne m <= rne m'.
Proof.
  intros Hm. unfold rne.
  pose proof (Qfloor_le m) as H1. pose proof (Qlt_floor m) as H2.
  pose proof (Qfloor_le m') as H1'. pose proof (Qlt_floor m') as H2'.
  pose proof (Qfloor_resp_le _ _ Hm) as Hf.
  rewrite inject_Z_plus in H2, H2'. change (inject_Z 1) with 1%Q in H2, H2'.
  set (f := Qfloor m) in *. set (f' := Qfloor m') in *.
  destruct (Z.eq_dec f f') as [<-|Hne].
  - destruct (Qcompare_spec (m - inject_Z f) (1 # 2)) as [E|E|E];
    destruct (Qcompare_spec (m' - inject_Z f) (1 # 2)) as [E'|E'|E'];
    destruct (Z.even f); try lia; lra.
  - assert (f + 1 <= f') by lia.
    destruct (Qcompare_spec (m - inject_Z f) (1 # 2)) as [E|E|E];
    destruct (Qcompare_spec (m' - inject_Z f') (1 # 2)) as [E'|E'|E'];
    destruct (Z.even f), (Z.even f'); lia.
Qed.

Lemma rne_inject_Z z : rne (inject_Z z) = z.
Proof.
  unfold rne. rewrite Qfloor_Z.
  destruct (Qcompare_spec (inject_Z z - inject_Z z) (1 # 2)) as [E|E|E];
    [lra | reflexivity | lra].
Qed.

Lemma Qdiv_le_compat x y d : (0 < d)%Q -> (x <= y)%Q -> (x / d <= y / d)%Q.
Proof.
  intros Hd Hxy. unfold Qdiv. pose proof (Qinv_lt_0_compat d Hd). nra.
Qed.

Lemma scaled_lt x e k : (x < pow2 (e + k))%Q -> (x / pow2 e < pow2 k)%Q.
Proof.
  intros Hx. pose proof (pow2_pos e). apply Qlt_shift_div_r; [assumption|].
  rewrite <- pow2_add. now replace (k + e) with (e + k) by lia.
Qed.

Lemma scaled_ge x e k : (pow2 (e + k) <= x)%Q -> (pow2 k <= x / pow2 e)%Q.
Proof.
  intros Hx. pose proof (pow2_pos e). apply Qle_shift_div_l; [assumption|].
  rewrite <- pow2_add. now replace (k + e) with (e + k) by lia.
Qed.

Lemma round_pos_upper x :
  (0 < x)%Q -> (round_pos x <= pow2 (exponent x + 53))%Q.
Proof.
  intros Hx. destruct (exponent_spec Hx) as (H1 & _ & _).
  unfold round_pos. set (e := exponent x) in *.
  apply scaled_lt in H1.
  assert (Hr : rne (x / pow2 e) <= 2 ^ 53).
  { rewrite <- (rne_inject_Z (2 ^ 53)). apply rne_monotone.
    rewrite <- pow2_Z by lia. lra. }
  rewrite Zle_Qle, <- pow2_Z in Hr by lia.
  rewrite (Z.add_comm e 53), pow2_add. pose proof (pow2_pos e). nra.
Qed.

Lemma round_pos_lower x :
  (0 < x)%Q -> -1074 < exponent x -> (pow2 (exponent x + 52) <= round_pos x)%Q.
Proof.
  intros Hx Hn. destruct (exponent_spec Hx) as (_ & _ & H1). specialize (H1 Hn).
  unfold round_pos. set (e := exponent x) in *.
  apply scaled_ge in H1.
  assert (Hr : 2 ^ 52 <= rne (x / pow2 e)).
  { rewrite <- (rne_inject_Z (2 ^ 52)). apply rne_monotone.
    rewrite <- pow2_Z by lia. lra. }
  rewrite Zle_Qle, <- pow2_Z in Hr by lia.
  rewrite (Z.add_comm e 52), pow2_add. pose proof (pow2_pos e). nra.
Qed.

Lemma round_pos_nonneg x : (0 < x)%Q -> (0 <= round_pos x)%Q.
Proof.
  intros Hx. unfold round_pos. pose proof (pow2_pos (exponent x)).
  assert (Hr : 0 <= rne (x / pow2 (exponent x))).
  { rewrite <- (rne_inject_Z 0). apply rne_monotone.
    change (inject_Z 0) with 0%Q. apply Qle_shift_div_l; [assumption|]. lra. }
  rewrite Zle_Qle in Hr. change (inject_Z 0) with 0%Q in Hr. nra.
Qed.

(** Rounding is monotone. *)
Lemma round_pos_monotone x y :
  (0 < x)%Q -> (x <= y)%Q -> (round_pos x <= round_pos y)%Q.
Proof.
  intros Hx Hxy. assert (Hy : (0 < y)%Q) by lra.
  pose proof (exponent_monotone Hx Hxy) as He.
  destruct (Z.eq_dec (exponent x) (exponent y)) as [E|Hne].
  - unfold round_pos. rewrite E. set (e := exponent y).
    pose proof (pow2_pos e).
    assert (Hr : rne (x / pow2 e) <= rne (y / pow2 e)).
    { apply rne_monotone. now apply Qdiv_le_compat. }
    rewrite Zle_Qle in Hr. nra.
  - destruct (exponent_spec Hx) as (_ & Hmin & _).
    eapply Qle_trans; [apply round_pos_upper; assumption|].
    eapply Qle_trans; [|apply round_pos_lower; [assumption | lia]].
    apply pow2_le. lia.
Qed.

(** The rounding error is at most half a unit in the last place. *)
Lemma round_pos_error x :
  (0 < x)%Q ->
  (round_pos x - x <= pow2 (exponent x - 1)
   /\ x - round_pos x <= pow2 (exponent x - 1))%Q.
Proof.
  intros Hx. unfold round_pos. set (e := exponent x).
  pose proof (pow2_pos e) as He.
  destruct (rne_bounds (x / pow2 e)) as [H1 H2].
  assert (Hx' : (x == x / pow2 e * pow2 e)%Q) by (field; lra).
  assert (Hh : (pow2 (e - 1) == (1 # 2) * pow2 e)%Q).
  { rewrite pow2_sub. change (pow2 1) with 2%Q. field. }
  rewrite Hh. set (m := (x / pow2 e)%Q) in *. set (r := inject_Z (rne m)) in *.
  split; nra.
Qed.

(** The relative error of rounding a number of the normal range. *)
Lemma round_pos_relative x :
  (pow2 (-1022) <= x)%Q ->
  (round_pos x <= x * (1 + pow2 (-53))
   /\ x * (1 - pow2 (-53)) <= round_pos x)%Q.
Proof.
  intros Hn. assert (Hx : (0 < x)%Q) by (pose proof (pow2_pos (-1022)); lra).
  destruct (round_pos_error Hx) as [H1 H2].
  destruct (ilog2_spec Hx) as [H3 H4].
  assert (Hl : -1022 <= ilog2 x).
  { assert (-1022 < ilog2 x + 1) by (apply pow2_lt_inv; lra). lia. }
  assert (He : exponent x = ilog2 x - 52) by (unfold exponent; lia).
  assert (Hu : (pow2 (exponent x - 1) == pow2 (ilog2 x) * pow2 (-53))%Q).
  { rewrite <- pow2_add. rewrite He.
    now replace (ilog2 x - 52 - 1) with (ilog2 x + -53) by lia. }
  rewrite Hu in H1, H2. pose proof (pow2_pos (-53)). split; nra.
Qed.

Lemma round_pos_comp x y :
  (0 < x)%Q -> (x == y)%Q -> (round_pos x == round_pos y)%Q.
Proof.
  intros Hx E. apply Qle_antisym; apply round_pos_monotone; lra.
Qed.

Lemma round_pos_1 : (round_pos 1 == 1)%Q.
Proof. vm_compute. reflexivity. Qed.

Lemma round64_pos x :
  (0 < x)%Q -> (round_pos x < pow2 1024)%Q ->
  round64 x = Finite (Qred (round_pos x)).
Proof.
  intros Hx Hlt. unfold round64.
  destruct (Qcompare_spec x 0) as [E|E|E]; [lra|lra|].
  destruct (Qle_bool (pow2 1024) (round_pos x)) eqn:Eb; [|reflexivity].
  apply Qle_bool_iff in Eb. lra.
Qed.

(** Rounding a number of the unit interval. *)
Lemma round64_unit x :
  (0 < x)%Q -> (x <= 1)%Q ->
  exists q, round64 x = Finite q
            /\ (q == round_pos x)%Q /\ (0 <= q)%Q /\ (q <= 1)%Q.
Proof.
  intros H0 H1. exists (Qred (round_pos x)).
  pose proof (round_pos_monotone H0 H1) as Hm. rewrite round_pos_1 in Hm.
  pose proof (round_pos_nonneg H0).
  split; [|rewrite Qred_correct; repeat split; lra].
  apply round64_pos; [assumption|].
  eapply Qle_lt_trans; [exact Hm|]. reflexivity.
Qed.

(** Equal rationals round to the same float. *)
Lemma round64_comp x y : (x == y)%Q -> round64 x = round64 y.
Proof.
  intros E. unfold round64. rewrite E.
  destruct (Qcompare_spec y 0) as [E0|E0|E0].
  - reflexivity.
  - assert (Hr : (round_pos (- x) == round_pos (- y))%Q)
      by (apply round_pos_comp; lra).
    rewrite Hr. destruct (Qle_bool (pow2 1024) (round_pos (- y))); [reflexivity|].
    f_equal. apply Qred_complete. now rewrite Hr.
  - assert (Hr : (round_pos x == round_pos y)%Q) by (apply round_pos_comp; lra).
    rewrite Hr. destruct (Qle_bool (pow2 1024) (round_pos y)); [reflexivity|].
    f_equal. apply Qred_complete. exact Hr.
Qed.

(** The rounding at numbers whose binary64 neighbours are well known:
    0.1 and 2/3; two integers half way between floats, which go to the
    even one; the largest finite float and the first number that rounds
    to the infinity; a number half way between the two smallest
    subnormal floats. *)
Example round64_samples :
  round64 (1 # 10) = Finite (3602879701896397 # 36028797018963968)
  /\ round64 (2 # 3) = Finite (6004799503160661 # 9007199254740992)
  /\ round64 (inject_Z (2 ^ 53 + 1)) = Finite (inject_Z (2 ^ 53))
  /\ round64 (inject_Z (2 ^ 53 + 3)) = Finite (inject_Z (2 ^ 53 + 4))
  /\ round64 (inject_Z (2 ^ 1024 - 2 ^ 970 - 1))
     = Finite (inject_Z (2 ^ 1024 - 2 ^ 971))
  /\ round64 (inject_Z (2 ^ 1024 - 2 ^ 970)) = Inf false
  /\ round64 (3 # 2 ^ 1075) = Finite (1 # 2 ^ 1073).
Proof. repeat split; vm_compute; reflexivity. Qed.

(** The operations agree with the Standard Library's specification of
    binary64 arithmetic where the weights and votes of the examples below
    are computed: the quotients 2/3, 1/6 and 1/(2 ** 55 + 1), the square of
    the first, the sum of the first two, and a sum and a product at the
    upper end of the range. *)
Example floats_agree_with_SpecFloat :
  let div a b :=
    of_spec_float
      (SpecFloat.SFdiv 53 1024 (SpecFloat.S754_finite false a 0)
         (SpecFloat.S754_finite false b 0)) in
  let mul x y :=
    of_spec_float
      (SpecFloat.SFmul 53 1024 (to_spec_float x) (to_spec_float y)) in
  let add x y :=
    of_spec_float
      (SpecFloat.SFadd 53 1024 (to_spec_float x) (to_spec_float y)) in
  let two_thirds := round64 (2 # 3) in
  let sixth := round64 (1 # 6) in
  let big := round64 (inject_Z (2 ^ 1023)) in
  int_true_div 2 3 = Ok (div 2 3)%positive
  /\ int_true_div 1 6 = Ok (div 1 6)%positive
  /\ int_true_div 1 (2 ^ 55 + 1) = Ok (div 1 (2 ^ 55 + 1))%positive
  /\ fmul two_thirds two_thirds = mul two_thirds two_thirds
  /\ fmul sixth (float_of_int 9) = mul sixth (float_of_int 9)
  /\ fadd two_thirds sixth = add two_thirds sixth
  /\ fadd big big = add big big
  /\ fmul big two_thirds = mul big two_thirds.
Proof. repeat split; vm_compute; reflexivity. Qed.

Lemma Qle_bool_true a b : Qle_bool a b = true <-> (a <= b)%Q.
Proof. apply Qle_bool_iff. Qed.

Lemma Qle_bool_false a b : Qle_bool a b = false <-> (b < a)%Q.
Proof.
  split.
  - intros E. apply Qnot_le_lt. intros Hle. apply Qle_bool_iff in Hle. congruence.
  - intros Hlt. destruct (Qle_bool a b) eqn:E; [|reflexivity].
    apply Qle_bool_iff in E. lra.
Qed.

Lemma Qlt_bool_true a b : Qlt_bool a b = true <-> (a < b)%Q.
Proof. unfold Qlt_bool. rewrite negb_true_iff. apply Qle_bool_false. Qed.

Lemma Qlt_bool_false a b : Qlt_bool a b = false <-> (b <= a)%Q.
Proof. unfold Qlt_bool. rewrite negb_false_iff. apply Qle_bool_iff. Qed.

(** A rational that is not negative rounds to a float that is not. *)
Lemma round64_nonneg x : (0 <= x)%Q -> nonneg (round64 x) = true.
Proof.
  intros Hx. unfold round64.
  destruct (Qcompare_spec x 0) as [E|E|E]; [reflexivity | lra |].
  destruct (Qle_bool (pow2 1024) (round_pos x)); [reflexivity|].
  cbn [nonneg]. apply Qle_bool_iff. rewrite Qred_correct.
  now apply round_pos_nonneg.
Qed.

Lemma nonneg_Finite q : nonneg (Finite q) = true <-> (0 <= q)%Q.
Proof. apply Qle_bool_iff. Qed.

Lemma fadd_nonneg a b :
  nonneg a = true -> nonneg b = true -> nonneg (fadd a b) = true.
Proof.
  destruct a as [x|[|]|], b as [y|[|]|]; cbn [nonneg fadd negb Bool.eqb];
    try discriminate; try reflexivity.
  rewrite !Qle_bool_iff. intros Hx Hy. apply round64_nonneg. lra.
Qed.

Lemma fmul_nonneg a y :
  nonneg a = true -> (0 < y)%Q -> nonneg (fmul a (Finite y)) = true.
Proof.
  destruct a as [x|[|]|]; cbn [nonneg fmul negb]; try discriminate.
  - rewrite Qle_bool_iff. intros Hx Hy. apply round64_nonneg. nra.
  - intros _ Hy. destruct (Qcompare_spec y 0) as [E|E|E]; [lra | lra | reflexivity].
Qed.

Lemma fmul_finite_nonneg x y :
  (0 <= x)%Q -> (0 <= y)%Q -> nonneg (fmul (Finite x) (Finite y)) = true.
Proof. intros Hx Hy. cbn [fmul]. apply round64_nonneg. nra. Qed.

(** [<] is transitive; among floats that are not negative it is the strict
    part of a total preorder. *)
Lemma flt_trans a b c : flt a b = true -> flt b c = true -> flt a c = true.
Proof.
  destruct a as [x|[|]|], b as [y|[|]|], c as [z|[|]|]; cbn [flt andb negb];
    try discriminate; try reflexivity.
  rewrite !Qlt_bool_true. lra.
Qed.

Lemma flt_le_lt a b c :
  nonneg a = true -> flt b a = false -> flt b c = true -> flt a c = true.
Proof.
  destruct a as [x|[|]|], b as [y|[|]|], c as [z|[|]|];
    cbn [flt andb negb nonneg]; try discriminate; try reflexivity.
  rewrite Qlt_bool_false, !Qlt_bool_true. lra.
Qed.

Lemma flt_le_trans a b c :
  nonneg b = true ->
  flt a b = false -> flt b c = false -> flt a c = false.
Proof.
  destruct a as [x|[|]|], b as [y|[|]|], c as [z|[|]|];
    cbn [flt andb negb nonneg]; try discriminate; try reflexivity.
  rewrite !Qlt_bool_false. lra.
Qed.

Lemma flt_asym a b : flt a b = true -> flt b a = false.
Proof.
  destruct a as [x|[|]|], b as [y|[|]|]; cbn [flt andb negb];
    try discriminate; try reflexivity.
  rewrite Qlt_bool_true, Qlt_bool_false. lra.
Qed.

(** ** GuessItem *)

Lemma sumZ_from l a : fold_left Z.add l a = a + sumZ l.
Proof.
  unfold sumZ. revert a. induction l as [|x l IH]; intros a; simpl; [lia|].
  rewrite (IH (a + x)), (IH x). lia.
Qed.

Lemma sumZ_cons x l : sumZ (x :: l) = x + sumZ l.
Proof. unfold sumZ at 1. simpl. rewrite sumZ_from. lia. Qed.

Lemma sumZ_app l l' : sumZ (l ++ l') = sumZ l + sumZ l'.
Proof.
  induction l as [|x l IH]; simpl; [reflexivity|].
  rewrite !sumZ_cons, IH. lia.
Qed.

Lemma add_eq d a : add d a = dict_set d a (count_of d a + 1).
Proof. unfold add, count_of. apply increment_dict_eq. Qed.

Lemma sumZ_values_dict_set (d : GuessItem) a v :
  sumZ (values (dict_set d a v)) = sumZ (values d) - count_of d a + v.
Proof.
  unfold count_of, values. induction d as [|[k c] d IH]; simpl.
  - rewrite sumZ_cons. unfold sumZ. simpl. lia.
  - destruct (String.eqb_spec k a) as [->|Hne]; simpl.
    + rewrite !sumZ_cons. lia.
    + rewrite !sumZ_cons, IH. lia.
Qed.

Lemma recorded_snoc accs a : recorded (accs ++ [a]) = add (recorded accs) a.
Proof. unfold recorded. now rewrite fold_left_app. Qed.

Lemma count_of_add d a b :
  count_of (add d a) b = count_of d b + (if String.eqb a b then 1 else 0).
Proof.
  rewrite add_eq. unfold count_of at 1.
  destruct (String.eqb_spec a b) as [->|Hne].
  - now rewrite dict_get_set_same.
  - rewrite dict_get_set_other by assumption. fold (count_of d b). lia.
Qed.

Lemma count_occ_snoc (l : list string) a b :
  count_occ string_dec (l ++ [a]) b =
  (count_occ string_dec l b + (if String.eqb a b then 1 else 0))%nat.
Proof.
  rewrite count_occ_app. simpl.
  destruct (string_dec a b) as [->|Hne].
  - now rewrite String.eqb_refl.
  - apply String.eqb_neq in Hne. now rewrite Hne.
Qed.

(** The stored count is the number of times the account was recorded. *)
Lemma count_of_recorded accs a :
  count_of (recorded accs) a = Z.of_nat (count_occ string_dec accs a).
Proof.
  induction accs as [|b accs IH] using rev_ind; [reflexivity|].
  rewrite recorded_snoc, count_of_add, IH, count_occ_snoc.
  destruct (String.eqb b a); lia.
Qed.

(** The counts add up to the number of recordings. *)
Lemma total_recorded accs :
  sumZ (values (recorded accs)) = Z.of_nat (List.length accs).
Proof.
  induction accs as [|b accs IH] using rev_ind; [reflexivity|].
  rewrite recorded_snoc, add_eq, sumZ_values_dict_set, IH, length_app.
  simpl. lia.
Qed.

Lemma In_keys_recorded accs a : In a (keys (recorded accs)) <-> In a accs.
Proof.
  induction accs as [|b accs IH] using rev_ind; [reflexivity|].
  rewrite recorded_snoc, add_eq, In_keys_dict_set, IH, in_app_iff.
  simpl. intuition congruence.
Qed.

Lemma NoDup_keys_recorded accs : NoDup (keys (recorded accs)).
Proof.
  induction accs as [|b accs IH] using rev_ind; [constructor|].
  rewrite recorded_snoc, add_eq. now apply NoDup_keys_dict_set.
Qed.

Lemma dict_get_recorded accs a :
  In a accs ->
  dict_get (recorded accs) a = Some (Z.of_nat (count_occ string_dec accs a)).
Proof.
  intros Hin. generalize (count_of_recorded accs a). unfold count_of.
  destruct (dict_get (recorded accs) a) eqn:E; [congruence|].
  apply dict_get_None in E. rewrite In_keys_recorded in E. tauto.
Qed.

Lemma inject_Z_pos t : 0 < t -> (0 < inject_Z t)%Q.
Proof. intros Ht. change 0%Q with (inject_Z 0). rewrite <- Zlt_Qlt. exact Ht. Qed.

(** The share of a count in a total is in the unit interval. *)
Lemma share_unit t c :
  0 < c -> c <= t ->
  (0 < inject_Z c / inject_Z t /\ inject_Z c / inject_Z t <= 1)%Q.
Proof.
  intros Hc Hct.
  assert (HT : (0 < inject_Z t)%Q) by (apply inject_Z_pos; lia).
  split.
  - apply Qlt_shift_div_l; [assumption|]. rewrite Qmult_0_l.
    apply inject_Z_pos; lia.
  - apply Qle_shift_div_r; [assumption|]. rewrite Qmult_1_l.
    rewrite <- Zle_Qle. exact Hct.
Qed.

Lemma int_true_div_share t c :
  0 < c -> c <= t ->
  int_true_div c t = Ok (round64 (inject_Z c / inject_Z t)).
Proof.
  intros Hc Hct. unfold int_true_div.
  replace (t =? 0) with false by lia.
  destruct (share_unit Hc Hct) as [H0 H1].
  destruct (round64_unit H0 H1) as (w & -> & _). reflexivity.
Qed.

(** The weight of a count among a total that is at least the count: a
    float of the unit interval. *)
Lemma share_sq_unit t c :
  0 < c -> c <= t ->
  exists q, share_sq t c = Finite q /\ (0 <= q)%Q /\ (q <= 1)%Q.
Proof.
  intros Hc Hct. unfold share_sq.
  destruct (share_unit Hc Hct) as [H0 H1].
  destruct (round64_unit H0 H1) as (w & -> & _ & Hw0 & Hw1). cbn [fmul].
  destruct (Qlt_le_dec 0 (w * w)) as [Hpos|Hzero].
  - destruct (@round64_unit (w * w)) as (q & Hq & _ & Hq0 & Hq1); [lra | nra |].
    exists q. auto.
  - assert (E : (w * w == 0)%Q) by nra.
    rewrite (round64_comp E). exists 0%Q.
    split; [reflexivity|]. split; lra.
Qed.

Lemma get_weight_stored (self : GuessItem) a c :
  dict_get self a = Some c ->
  0 < c -> c <= sumZ (values self) ->
  get_weight self a = Ok (share_sq (sumZ (values self)) c).
Proof.
  intros Hg Hc Hct. unfold get_weight, dict_item. rewrite Hg. cbn [bind].
  now rewrite int_true_div_share.
Qed.

Lemma get_over_stored (self l : GuessItem) :
  (forall a c, In (a, c) l ->
               dict_get self a = Some c /\ 0 < c <= sumZ (values self)) ->
  get_over self (keys l) =
  Ok (map (fun kv => (fst kv, share_sq (sumZ (values self)) (snd kv))) l).
Proof.
  induction l as [|[a c] l IH]; intros Hl; cbn [keys map fst get_over];
    [reflexivity|].
  destruct (Hl a c) as [Hg [Hc Hct]]; [now left|].
  rewrite (get_weight_stored _ _ Hg Hc Hct). cbn [bind].
  fold (keys l). rewrite IH; [reflexivity|].
  intros a' c' Hi. apply Hl. now right.
Qed.

Lemma sumZ_positive cs :
  Forall (fun c => 0 < c) cs -> 0 <= sumZ cs /\ (sumZ cs = 0 <-> cs = []).
Proof.
  induction 1 as [|c cs Hc Hcs [IH1 IH2]].
  - split; [unfold sumZ; simpl; lia | tauto].
  - rewrite sumZ_cons. split; [lia|]. split; [lia|discriminate].
Qed.

Lemma member_le_sumZ cs c :
  Forall (fun c => 0 < c) cs -> In c cs -> c <= sumZ cs.
Proof.
  induction 1 as [|c' cs Hc Hcs IH]; simpl; [tauto|].
  rewrite sumZ_cons. destruct (sumZ_positive Hcs) as [Hs _].
  intros [->|Hi]; [lia|]. specialize (IH Hi). lia.
Qed.

(** [get] on an item with distinct keys and positive counts. *)
Lemma get_stored (self : GuessItem) :
  NoDup (keys self) ->
  Forall (fun c => 0 < c) (values self) ->
  get self =
  Ok (map (fun kv => (fst kv, share_sq (sumZ (values self)) (snd kv))) self).
Proof.
  intros Hnd Hpos. unfold get. apply get_over_stored.
  intros a c Hin. split; [now apply In_dict_get|].
  assert (Hc : In c (values self)).
  { unfold values. change c with (snd (a, c)). now apply in_map. }
  split; [|now apply member_le_sumZ].
  rewrite Forall_forall in Hpos. now apply Hpos.
Qed.

Lemma recorded_counts_positive accs :
  Forall (fun c => 0 < c) (values (recorded accs)).
Proof.
  apply Forall_forall. intros c Hc. unfold values in Hc.
  apply in_map_iff in Hc. destruct Hc as [[a c'] [Heq Hin]]. simpl in Heq. subst c'.
  assert (Hk : In a accs).
  { apply In_keys_recorded. change a with (fst (a, c)). now apply in_map. }
  apply In_dict_get in Hin; [|apply NoDup_keys_recorded].
  rewrite dict_get_recorded in Hin by assumption. injection Hin as <-.
  apply (count_occ_In string_dec) in Hk. lia.
Qed.

(** [get] after recordings. *)
Lemma get_recorded_shares accounts :
  get (recorded accounts) =
  Ok (map (fun kv => (fst kv,
                      share_sq (Z.of_nat (List.length accounts)) (snd kv)))
        (recorded accounts)).
Proof.
  rewrite <- total_recorded.
  apply get_stored; [apply NoDup_keys_recorded | apply recorded_counts_positive].
Qed.

Lemma get_weight_recorded accounts account :
  In account accounts ->
  get_weight (recorded accounts) account =
  Ok (share_sq (Z.of_nat (List.length accounts))
        (Z.of_nat (count_occ string_dec accounts account))).
Proof.
  intros Hin. rewrite <- total_recorded.
  pose proof (dict_get_recorded _ _ Hin) as Hg.
  apply get_weight_stored; [exact Hg | |].
  - apply (count_occ_In string_dec) in Hin. lia.
  - apply member_le_sumZ; [apply recorded_counts_positive|].
    apply dict_get_Some_In in Hg. unfold values.
    change (Z.of_nat (count_occ string_dec accounts account))
      with (snd (account, Z.of_nat (count_occ string_dec accounts account))).
    now apply in_map.
Qed.

Lemma count_occ_le_length (l : list string) a :
  (count_occ string_dec l a <= List.length l)%nat.
Proof.
  induction l as [|b l IH]; simpl; [lia|]. destruct (string_dec b a); lia.
Qed.

(** The weight of a count that is the whole total is one. *)
Lemma share_sq_whole t : 0 < t -> share_sq t t = Finite 1.
Proof.
  intros Ht. unfold share_sq.
  assert (E : (inject_Z t / inject_Z t == 1)%Q).
  { pose proof (inject_Z_pos Ht). field. lra. }
  rewrite (round64_comp E). vm_compute. reflexivity.
Qed.

Lemma Qmult_le_nonneg_l (a k m : Q) :
  (0 <= a)%Q -> (k <= m)%Q -> (a * k <= a * m)%Q.
Proof. intros Ha Hkm. nra. Qed.

Lemma Qsquare_le (a b : Q) : (0 <= a)%Q -> (a <= b)%Q -> (a * a <= b * b)%Q.
Proof. intros Ha Hab. nra. Qed.

Lemma pow2_m53 : (pow2 (-53) == 1 # 9007199254740992)%Q.
Proof. vm_compute. reflexivity. Qed.

(** The two roundings of a weight change the exact square by a relative
    error below [2 ** -51], when the share is not tiny. *)
Lemma share_sq_error t c :
  0 < c -> c <= t -> t < 2 ^ 500 ->
  exists q,
    share_sq t c = Finite q
    /\ (q <= 1)%Q
    /\ (q <= (inject_Z c / inject_Z t) ^ 2 * (1 + pow2 (-51)))%Q
    /\ ((inject_Z c / inject_Z t) ^ 2 * (1 - pow2 (-51)) <= q)%Q.
Proof.
  intros Hc Hct Ht. unfold share_sq.
  destruct (share_unit Hc Hct) as [H0 H1].
  set (x := (inject_Z c / inject_Z t)%Q) in *.
  assert (Hx : (pow2 (-500) <= x)%Q).
  { unfold x. assert (HT : (0 < inject_Z t)%Q) by (apply inject_Z_pos; lia).
    apply Qle_shift_div_l; [exact HT|].
    assert (Hb : (inject_Z t <= pow2 500)%Q).
    { rewrite pow2_Z by lia. rewrite <- Zle_Qle. lia. }
    assert (Hone : (pow2 (-500) * pow2 500 == 1)%Q).
    { rewrite <- pow2_add. reflexivity. }
    assert (Hc1 : (1 <= inject_Z c)%Q).
    { change 1%Q with (inject_Z 1). rewrite <- Zle_Qle. lia. }
    pose proof (pow2_pos (-500)). nra. }
  destruct (round64_unit H0 H1) as (w & -> & Hw & Hw0 & Hw1). cbn [fmul].
  assert (Hn : (pow2 (-1022) <= x)%Q).
  { eapply Qle_trans; [|exact Hx]. apply pow2_le. lia. }
  destruct (round_pos_relative Hn) as [Hr1 Hr2]. rewrite <- Hw in Hr1, Hr2.
  pose proof pow2_m53 as Hu. set (u := pow2 (-53)) in *.
  assert (Hu51 : (pow2 (-51) == 4 * u)%Q) by (vm_compute; reflexivity).
  assert (Hwlow : (pow2 (-501) <= w)%Q).
  { assert (Hh : (pow2 (-500) == 2 * pow2 (-501))%Q).
    { rewrite <- pow2_succ. reflexivity. }
    pose proof (pow2_pos (-501)). nra. }
  assert (Hww : (pow2 (-1022) <= w * w)%Q).
  { eapply Qle_trans; [apply (@pow2_le (-1022) (-501 + -501)); lia|].
    rewrite pow2_add. pose proof (pow2_pos (-501)). nra. }
  assert (Hwpos : (0 < w * w)%Q) by (pose proof (pow2_pos (-1022)); lra).
  destruct (@round64_unit (w * w)) as (q & Hq & Hqr & Hq0 & Hq1); [lra | nra |].
  destruct (round_pos_relative Hww) as [Hs1 Hs2]. rewrite <- Hqr in Hs1, Hs2.
  fold u in Hs1, Hs2.
  exists q. split; [exact Hq|]. split; [exact Hq1|]. rewrite Hu51.
  assert (Hxx : (x ^ 2 == x * x)%Q) by (simpl; ring). rewrite Hxx.
  split.
  - assert (Hsq : (w * w <= x * x * ((1 + u) * (1 + u)))%Q).
    { setoid_replace (x * x * ((1 + u) * (1 + u)))%Q
        with (x * (1 + u) * (x * (1 + u)))%Q by ring.
      now apply Qsquare_le. }
    assert (Hcube : ((1 + u) * (1 + u) * (1 + u) <= 1 + 4 * u)%Q) by nra.
    assert (Hxx0 : (0 <= x * x)%Q) by nra.
    eapply Qle_trans; [exact Hs1|].
    eapply Qle_trans; [apply Qmult_le_compat_r; [exact Hsq | lra]|].
    setoid_replace (x * x * ((1 + u) * (1 + u)) * (1 + u))%Q
      with (x * x * ((1 + u) * (1 + u) * (1 + u)))%Q by ring.
    now apply Qmult_le_nonneg_l.
  - assert (Hlow : (x * (1 - u) * (x * (1 - u)) <= w * w)%Q).
    { apply Qsquare_le; [|exact Hr2]. apply Qmult_le_0_compat; lra. }
    assert (Hcube : (1 - 4 * u <= (1 - u) * (1 - u) * (1 - u))%Q) by nra.
    assert (Hxx0 : (0 <= x * x)%Q) by nra.
    eapply Qle_trans; [|exact Hs2].
    eapply Qle_trans; [|apply Qmult_le_compat_r; [exact Hlow | lra]].
    setoid_replace (x * (1 - u) * (x * (1 - u)) * (1 - u))%Q
      with (x * x * ((1 - u) * (1 - u) * (1 - u)))%Q by ring.
    now apply Qmult_le_nonneg_l.
Qed.
(** C2. The weight of an account of an item is the square of its share of
    the counts as binary64 arithmetic gives it: the quotient
    [count_for_account / total_counts_for_term] is rounded to the nearest
    float, and so is its product with itself. It is within a relative
    error of [2 ** -51] of [(count / total)^2] (for fewer than [2 ** 500]
    recordings), and it is that number in the two cases the claim names:
    three recordings of Expenses:Coffee and one of Expenses:Dining weigh
    0.5625 and 0.0625, and recordings of a single account weigh 1.0. *)
Theorem get_weight_rounded_square :
  (forall accounts account,
      In account accounts ->
      exists weight,
        round64 (inject_Z (Z.of_nat (count_occ string_dec accounts account))
                 / inject_Z (Z.of_nat (List.length accounts))) = Finite weight
        /\ get_weight (recorded accounts) account
           = Ok (round64 (weight * weight)))
  /\ (forall accounts account,
         In account accounts ->
         Z.of_nat (List.length accounts) < 2 ^ 500 ->
         exists w,
           get_weight (recorded accounts) account = Ok (Finite w)
           /\ ((inject_Z (Z.of_nat (count_occ string_dec accounts account))
                / inject_Z (Z.of_nat (List.length accounts))) ^ 2
               * (1 - pow2 (-51)) <= w)%Q
           /\ (w <= (inject_Z (Z.of_nat (count_occ string_dec accounts account))
                     / inject_Z (Z.of_nat (List.length accounts))) ^ 2
                    * (1 + pow2 (-51)))%Q)
  /\ (exists coffee dining,
         get (recorded ["Expenses:Coffee"; "Expenses:Coffee";
                        "Expenses:Coffee"; "Expenses:Dining"]) =
         Ok [("Expenses:Coffee", Finite coffee);
             ("Expenses:Dining", Finite dining)]
         /\ (coffee == 0.5625)%Q /\ (dining == 0.0625)%Q)
  /\ (forall account n,
         (0 < n)%nat ->
         get_weight (recorded (repeat account n)) account = Ok (Finite 1)).
Proof.
  assert (Hcount : forall accounts account,
             In account accounts ->
             0 < Z.of_nat (count_occ string_dec accounts account)
             <= Z.of_nat (List.length accounts)).
  { intros accs a Hin. pose proof (count_occ_le_length accs a).
    apply (count_occ_In string_dec) in Hin. lia. }
  split; [|split; [|split]].
  - intros accs a Hin. rewrite (get_weight_recorded _ _ Hin). unfold share_sq.
    destruct (Hcount _ _ Hin) as [Hc Hct].
    destruct (share_unit Hc Hct) as [H0 H1].
    destruct (round64_unit H0 H1) as (w & Hw & _).
    exists w. rewrite Hw. split; reflexivity.
  - intros accs a Hin Hlen. rewrite (get_weight_recorded _ _ Hin).
    destruct (Hcount _ _ Hin) as [Hc Hct].
    destruct (share_sq_error Hc Hct Hlen) as (q & Hq & _ & Hup & Hlow).
    exists q. rewrite Hq. auto.
  - exists (9 # 16)%Q, (1 # 16)%Q. split; [vm_compute; reflexivity|].
    split; reflexivity.
  - intros a n Hn.
    assert (Hin : In a (repeat a n)) by (destruct n; [lia | now left]).
    rewrite (get_weight_recorded _ _ Hin).
    rewrite repeat_length, count_occ_repeat_eq by reflexivity.
    rewrite share_sq_whole by lia. reflexivity.
Qed.

Lemma get_weight_rounded_square_witness :
  exists weight,
    round64 (inject_Z 2 / inject_Z 3) = Finite weight
    /\ get_weight (recorded ["Assets:Cash"; "Expenses:Food"; "Assets:Cash"])
         "Assets:Cash" = Ok (round64 (weight * weight)).
Proof.
  apply (proj1 get_weight_rounded_square
           ["Assets:Cash"; "Expenses:Food"; "Assets:Cash"] "Assets:Cash").
  simpl. auto.
Defined.

(** Two recordings out of three: the weight is the float
    0.4444444444444444, which is not 4/9. *)
Lemma get_weight_two_of_three :
  exists w,
    get_weight (recorded ["Assets:Cash"; "Expenses:Food"; "Assets:Cash"])
      "Assets:Cash" = Ok (Finite w)
    /\ (w == 2001599834386887 # 4503599627370496)%Q
    /\ ~ (w == (inject_Z 2 / inject_Z 3) ^ 2)%Q.
Proof.
  eexists. split; [vm_compute; reflexivity|]. split; [reflexivity|].
  vm_compute. discriminate.
Qed.

Lemma single_key_iff accs :
  accs <> [] ->
  ((List.length (values (recorded accs)) <= 1)%nat <->
   forall a b : string, In a accs -> In b accs -> a = b).
Proof.
  intros Hne. unfold values. rewrite length_map.
  rewrite <- (length_map fst). fold (keys (recorded accs)).
  pose proof (NoDup_keys_recorded accs) as Hnd.
  pose proof (In_keys_recorded accs) as Hin.
  destruct (keys (recorded accs)) as [|k [|k' ks]]; simpl.
  - split; [|lia]. intros _ a b Ha. apply Hin in Ha. destruct Ha.
  - split; [|lia]. intros _ a b Ha Hb. apply Hin in Ha, Hb.
    simpl in Ha, Hb. intuition congruence.
  - split; [lia|]. intros Hall. exfalso.
    assert (k = k') by (apply Hall; apply Hin; simpl; auto).
    subst k'. inversion Hnd as [|? ? Hni _]. apply Hni. now left.
Qed.

Lemma sumsq_cons c cs : sumsq (c :: cs) = c * c + sumsq cs.
Proof. unfold sumsq. cbn [map]. now rewrite sumZ_cons. Qed.

Lemma sumsq_le_square cs :
  Forall (fun c => 0 < c) cs -> sumsq cs <= sumZ cs * sumZ cs.
Proof.
  induction 1 as [|c cs Hc Hcs IH]; [reflexivity|].
  rewrite sumsq_cons, sumZ_cons. destruct (sumZ_positive Hcs) as [Hs _]. nia.
Qed.

(** Two or more positive counts: the squares fall short of the square of
    the total by at least twice the total less two. *)
Lemma sumsq_several cs :
  Forall (fun c => 0 < c) cs -> (2 <= List.length cs)%nat ->
  sumsq cs + 2 * sumZ cs - 2 <= sumZ cs * sumZ cs.
Proof.
  intros Hpos Hlen. destruct Hpos as [|c cs Hc Hcs]; [simpl in Hlen; lia|].
  rewrite sumsq_cons, sumZ_cons.
  pose proof (sumsq_le_square Hcs) as Hsq.
  destruct (sumZ_positive Hcs) as [Hs Hz].
  assert (0 < sumZ cs).
  { destruct (Z.eq_dec (sumZ cs) 0) as [E|Hne]; [|lia].
    apply Hz in E. subst cs. simpl in Hlen. lia. }
  nia.
Qed.

Lemma sumQ_from l a : (fold_left Qplus l a == a + sumQ l)%Q.
Proof.
  unfold sumQ. revert a. induction l as [|x l IH]; intros a; simpl.
  - ring.
  - rewrite (IH (a + x)%Q), (IH (0 + x)%Q). ring.
Qed.

Lemma sumQ_cons x l : (sumQ (x :: l) == x + sumQ l)%Q.
Proof. unfold sumQ at 1. simpl. rewrite sumQ_from. ring. Qed.

Lemma share_sq_weighs t c :
  0 < c -> c <= t -> t < 2 ^ 500 -> exists w, weighs t c w.
Proof.
  intros Hc Hct Ht.
  destruct (share_sq_error Hc Hct Ht) as (q & Hq & Hq1 & Hup & Hlow).
  exists q. split; [exact Hq|].
  assert (HT : (0 < inject_Z t)%Q) by (apply inject_Z_pos; lia).
  assert (HC : (0 < inject_Z c)%Q) by (apply inject_Z_pos; lia).
  assert (Hx : ((inject_Z c / inject_Z t) ^ 2 * (inject_Z t * inject_Z t)
                == inject_Z (c * c))%Q).
  { rewrite inject_Z_mult. simpl. field. lra. }
  assert (Hsq : (0 < (inject_Z c / inject_Z t) ^ 2)%Q).
  { destruct (share_unit Hc Hct) as [H0 _].
    setoid_replace ((inject_Z c / inject_Z t) ^ 2)%Q
      with ((inject_Z c / inject_Z t) * (inject_Z c / inject_Z t))%Q
      by (simpl; ring).
    nra. }
  assert (Hu : (pow2 (-51) == 1 # 2251799813685248)%Q) by (vm_compute; reflexivity).
  set (e := pow2 (-51)) in *. set (s := ((inject_Z c / inject_Z t) ^ 2)%Q) in *.
  split; [|split; [exact Hq1|]].
  - assert (0 < s * (1 - e))%Q by nra. lra.
  - rewrite <- Hx.
    setoid_replace (s * (inject_Z t * inject_Z t) * (1 + e))%Q
      with (s * (1 + e) * (inject_Z t * inject_Z t))%Q by ring.
    apply Qmult_le_compat_r; [exact Hup | nra].
Qed.

Lemma shares_weigh t cs :
  Forall (fun c => 0 < c <= t) cs -> t < 2 ^ 500 ->
  exists ws, map (share_sq t) cs = map Finite ws /\ Forall2 (weighs t) cs ws.
Proof.
  intros Hcs Ht. induction Hcs as [|c cs [Hc Hct] _ (ws & Hmap & Hall)].
  - exists []. split; [reflexivity | constructor].
  - destruct (share_sq_weighs Hc Hct Ht) as [w Hw].
    exists (w :: ws). cbn [map]. split.
    + destruct Hw as [-> _]. now rewrite Hmap.
    + now constructor.
Qed.

Lemma weighs_sum t cs ws :
  Forall2 (weighs t) cs ws ->
  Forall (fun w => 0 < w /\ w <= 1)%Q ws
  /\ (sumQ ws * (inject_Z t * inject_Z t)
      <= inject_Z (sumsq cs) * (1 + pow2 (-51)))%Q.
Proof.
  induction 1 as [|c w cs ws (_ & H0 & H1 & Hw) _ [IHall IHsum]].
  - split; [constructor|]. vm_compute. discriminate.
  - split; [constructor; auto|].
    rewrite sumQ_cons, sumsq_cons, inject_Z_plus. nra.
Qed.

(** C10. Once at least one account has been recorded on an item, and fewer
    than [2 ** 51] recordings were made, [get] returns one weight per
    recorded account, each a float in the interval (0, 1]; the weights add
    up to at most 1, and to exactly 1 precisely when every recording names
    the same account. *)
Theorem weights_in_unit_interval_bounded accounts :
  accounts <> [] ->
  Z.of_nat (List.length accounts) < 2 ^ 51 ->
  exists weights ws,
    get (recorded accounts) = Ok weights
    /\ keys weights = keys (recorded accounts)
    /\ values weights = map Finite ws
    /\ Forall (fun w => 0 < w /\ w <= 1)%Q ws
    /\ (sumQ ws <= 1)%Q
    /\ ((sumQ ws == 1)%Q <->
        forall a b : string, In a accounts -> In b accounts -> a = b).
Proof.
  intros Hne Hlen.
  set (d := recorded accounts).
  set (t := Z.of_nat (List.length accounts)) in *.
  assert (Ht : 0 < t).
  { unfold t. destruct accounts; [congruence | simpl; lia]. }
  pose proof (recorded_counts_positive accounts) as Hpos. fold d in Hpos.
  pose proof (total_recorded accounts) as Htot. fold d t in Htot.
  assert (Hall : Forall (fun c => 0 < c <= t) (values d)).
  { apply Forall_forall. intros c Hc. split.
    - rewrite Forall_forall in Hpos. now apply Hpos.
    - rewrite <- Htot. now apply member_le_sumZ. }
  destruct (@shares_weigh t (values d) Hall ltac:(lia)) as (ws & Hmap & Hws).
  destruct (weighs_sum Hws) as [Hunit Hsum].
  exists (map (fun kv => (fst kv, share_sq t (snd kv))) d), ws.
  split; [apply get_recorded_shares|].
  split; [unfold keys; rewrite map_map; reflexivity|].
  split; [unfold values in *; rewrite map_map; rewrite <- Hmap; now rewrite map_map|].
  split; [exact Hunit|].
  assert (HT : (0 < inject_Z t)%Q) by now apply inject_Z_pos.
  assert (HT2 : (0 < inject_Z t * inject_Z t)%Q) by nra.
  assert (Hcase : (List.length (values d) <= 1)%nat
                  \/ (2 <= List.length (values d))%nat) by lia.
  rewrite <- (single_key_iff Hne). fold d.
  destruct Hcase as [Hone|Hmany].
  - destruct (values d) as [|c [|c' cs]] eqn:Ev;
      [|clear Hone|simpl in Hone; lia].
    { exfalso. rewrite <- Htot in Ht. unfold sumZ in Ht. simpl in Ht. lia. }
    assert (c = t) by (rewrite <- Htot; unfold sumZ; simpl; lia). subst c.
    inversion Hws as [|? w ? ws' Hw Hrest]; subst. inversion Hrest; subst.
    destruct Hw as (Hw & _). rewrite share_sq_whole in Hw by lia.
    injection Hw as <-.
    assert (E : (sumQ [1] == 1)%Q) by reflexivity.
    split; [rewrite E; lra|]. split; [simpl; lia | intros _; exact E].
  - pose proof (sumsq_several Hpos Hmany) as Hsq. rewrite Htot in Hsq.
    assert (Ht2 : 2 <= t).
    { rewrite <- Htot. destruct (values d) as [|c [|c' cs]];
        try (simpl in Hmany; lia).
      inversion Hpos as [|? ? Hc Hpos']; subst.
      inversion Hpos' as [|? ? Hc' Hpos'']; subst.
      rewrite !sumZ_cons. destruct (sumZ_positive Hpos''). lia. }
    assert (Hb : (inject_Z (sumsq (values d))
                  <= inject_Z t * inject_Z t - 2 * inject_Z t + 2)%Q).
    { assert (Hz : (inject_Z (sumsq (values d))
                    <= inject_Z (t * t + - (2 * t) + 2))%Q)
        by (rewrite <- Zle_Qle; lia).
      rewrite !inject_Z_plus, inject_Z_opp, !inject_Z_mult in Hz.
      change (inject_Z 2) with 2%Q in Hz. lra. }
    assert (Hu : (pow2 (-51) == 1 # 2251799813685248)%Q)
      by (vm_compute; reflexivity).
    assert (Hlt : (inject_Z t < 2251799813685248)%Q).
    { change 2251799813685248%Q with (inject_Z (2 ^ 51)).
      rewrite <- Zlt_Qlt. exact Hlen. }
    assert (Ht2' : (2 <= inject_Z t)%Q).
    { change 2%Q with (inject_Z 2). now rewrite <- Zle_Qle. }
    set (e := pow2 (-51)) in *. set (T := inject_Z t) in *.
    set (S := sumQ ws) in *. set (Q2 := inject_Z (sumsq (values d))) in *.
    assert (Hstrict : (S * (T * T) < 1 * (T * T))%Q).
    { eapply Qle_lt_trans; [exact Hsum|].
      assert (He : (e * (T * T) < T)%Q) by nra.
      assert (Hq : (Q2 * (1 + e) <= (T * T - 2 * T + 2) * (1 + e))%Q) by nra.
      nra. }
    assert (Hs1 : (S < 1)%Q).
    { apply Qnot_le_lt. intros Hc.
      assert (1 * (T * T) <= S * (T * T))%Q by nra. lra. }
    split; [lra|]. split; [intros E; lra | intros Hc; lia].
Qed.

Lemma weights_in_unit_interval_bounded_witness :
  exists weights ws,
    get (recorded ["Expenses:Coffee"; "Expenses:Dining"]) = Ok weights
    /\ keys weights = keys (recorded ["Expenses:Coffee"; "Expenses:Dining"])
    /\ values weights = map Finite ws
    /\ Forall (fun w => 0 < w /\ w <= 1)%Q ws
    /\ (sumQ ws <= 1)%Q
    /\ ((sumQ ws == 1)%Q <->
        forall a b : string,
          In a ["Expenses:Coffee"; "Expenses:Dining"] ->
          In b ["Expenses:Coffee"; "Expenses:Dining"] -> a = b).
Proof.
  apply (@weights_in_unit_interval_bounded ["Expenses:Coffee"; "Expenses:Dining"]).
  - discriminate.
  - reflexivity.
Defined.

Lemma recorded_repeat (a : string) n :
  (0 < n)%nat -> recorded (repeat a n) = [(a, Z.of_nat n)].
Proof.
  induction n as [|n IH]; [lia|]. intros _.
  replace (S n) with (n + 1)%nat by lia. rewrite repeat_app. cbn [repeat].
  rewrite recorded_snoc. destruct n as [|n].
  - rewrite add_eq. reflexivity.
  - rewrite IH by lia. rewrite add_eq. unfold count_of.
    cbn [dict_get dict_set keqb string_Hashable]. rewrite String.eqb_refl.
    do 2 f_equal. lia.
Qed.

(** A long recording: after [2 ** 55] recordings of one account and one of
    another, the weights are 1.0 and [2 ** -110]: they add up to more than
    1, and one of two weights is 1. *)
Lemma weights_of_long_recording :
  exists coffee dining,
    get (recorded (repeat "Expenses:Coffee" (Pos.to_nat 36028797018963968)
                   ++ ["Expenses:Dining"]))
    = Ok [("Expenses:Coffee", Finite coffee); ("Expenses:Dining", Finite dining)]
    /\ (coffee == 1)%Q
    /\ (0 < dining)%Q
    /\ (1 < sumQ [coffee; dining])%Q.
Proof.
  rewrite recorded_snoc, recorded_repeat by lia.
  rewrite positive_nat_Z.
  eexists _, _. split; [vm_compute; reflexivity|].
  split; [reflexivity|]. split; reflexivity.
Qed.

(** ** AccountGuess *)

Lemma votes_get_increment votes acc inc b :
  votes_get (increment_dict (Finite 0) fadd votes acc inc) b =
  if String.eqb acc b then fadd (votes_get votes acc) inc else votes_get votes b.
Proof.
  rewrite increment_dict_eq. unfold votes_get.
  destruct (String.eqb_spec acc b) as [->|Hne].
  - now rewrite dict_get_set_same.
  - now rewrite dict_get_set_other.
Qed.

Lemma keys_increment (votes : dict string float) acc inc b :
  In b (keys (increment_dict (Finite 0) fadd votes acc inc)) <->
  b = acc \/ In b (keys votes).
Proof. rewrite increment_dict_eq. apply In_keys_dict_set. Qed.

Lemma has_len_true item : has_len item = true <-> exists n, py_len item = Ok n.
Proof.
  unfold has_len. destruct (py_len item) as [n|e]; split; eauto; try discriminate.
  intros [n Hn]. discriminate.
Qed.

Lemma is_str_has_len item : is_str item = true -> has_len item = true.
Proof. destruct item; (discriminate || reflexivity). Qed.

(** The inner loop of [get_account] for a term that has a length. *)
Lemma inner_loop (item : pyval) n (item_dict : dict string float) :
  py_len item = Ok n ->
  NoDup (keys item_dict) ->
  forall votes, exists votes',
    for_each (cast_vote item) item_dict votes = Ok votes'
    /\ (forall b, In b (keys votes') <->
                  In b (keys votes) \/ In b (keys item_dict))
    /\ (forall b, votes_get votes' b =
                  match dict_get item_dict b with
                  | Some w => fadd (votes_get votes b) (fmul w (float_of_int n))
                  | None => votes_get votes b
                  end).
Proof.
  intros Hn. induction item_dict as [|[acc w] l IH]; intros Hnd votes.
  - exists votes. simpl. split; [reflexivity|]. split; [tauto | reflexivity].
  - inversion Hnd as [|? ? Hni Hnd']; subst.
    cbn [for_each]. unfold cast_vote at 1. rewrite Hn. cbn [bind fst snd].
    destruct (IH Hnd' (increment_dict (Finite 0) fadd votes acc
                         (fmul w (float_of_int n))))
      as (votes' & Hrun & Hkeys & Hget).
    exists votes'. split; [exact Hrun|]. split.
    + intros b. rewrite Hkeys, keys_increment. simpl. intuition.
    + intros b. rewrite Hget, votes_get_increment.
      cbn [dict_get keqb string_Hashable].
      destruct (String.eqb_spec acc b) as [->|Hne]; [|reflexivity].
      assert (E : dict_get l b = None) by now apply dict_get_None.
      now rewrite E.
Qed.

Lemma dict_get_map_values {V W} (f : V -> W) (d : dict string V) k :
  dict_get (map (fun kv => (fst kv, f (snd kv))) d) k =
  option_map f (dict_get d k).
Proof.
  induction d as [|[k' v] d IH]; simpl; [reflexivity|].
  destruct (String.eqb k' k); [reflexivity | exact IH].
Qed.

(** The loop body on a term that has a length and a well-formed item. *)
Lemma tally_item_recorded self item votes accounts :
  has_len item = true ->
  dict_get self item = Some (recorded accounts) ->
  exists votes',
    tally_item self votes item = Ok votes'
    /\ (forall b, In b (keys votes') <->
                  In b (keys votes) \/ In b (keys (recorded accounts)))
    /\ (forall b, votes_get votes' b = add_vote self b (votes_get votes b) item).
Proof.
  intros Hlen Hg. apply has_len_true in Hlen. destruct Hlen as [n Hn].
  unfold tally_item. rewrite Hg, get_recorded_shares. cbn [bind].
  set (item_dict := map _ (recorded accounts)).
  assert (Hkeys : keys item_dict = keys (recorded accounts)).
  { unfold item_dict, keys. rewrite map_map. reflexivity. }
  destruct (@inner_loop item n item_dict Hn
              ltac:(rewrite Hkeys; apply NoDup_keys_recorded) votes)
    as (votes' & Hrun & Hk & Hv).
  exists votes'. split; [exact Hrun|]. split.
  - intros b. rewrite Hk, Hkeys. reflexivity.
  - intros b. rewrite Hv. unfold add_vote. rewrite Hg, Hn.
    unfold item_dict. rewrite dict_get_map_values, total_recorded.
    destruct (dict_get (recorded accounts) b); reflexivity.
Qed.

(** The outer loop, when the terms that have an item have a length. *)
Lemma tally_loop self items :
  items_recorded self ->
  Forall (fun item => dict_mem self item = true -> has_len item = true) items ->
  forall votes, exists votes',
    for_each (tally_item self) items votes = Ok votes'
    /\ (forall b, In b (keys votes') <->
                  In b (keys votes) \/
                  exists item guess_item,
                    In item items /\ dict_get self item = Some guess_item
                    /\ In b (keys guess_item))
    /\ (forall b, votes_get votes' b =
                  fold_left (add_vote self b) items (votes_get votes b)).
Proof.
  intros Hrec. induction items as [|item items IH]; intros Hstr votes.
  - exists votes. split; [reflexivity|]. split; [|reflexivity].
    intros b. split; [tauto|]. intros [Hb|(i & g & [] & _)]. exact Hb.
  - inversion Hstr as [|? ? Hs Hstr']; subst. clear Hstr. rename Hstr' into Hstr.
    cbn [for_each].
    assert (Hstep : exists votes1,
      tally_item self votes item = Ok votes1
      /\ (forall b, In b (keys votes1) <->
                    In b (keys votes) \/
                    exists guess_item, dict_get self item = Some guess_item
                                       /\ In b (keys guess_item))
      /\ (forall b, votes_get votes1 b
                    = add_vote self b (votes_get votes b) item)).
    { destruct (dict_get self item) as [gi|] eqn:Hg.
      - destruct (Hrec _ _ Hg) as (accs & Hne & ->).
        assert (Hs' : has_len item = true).
        { apply Hs. unfold dict_mem. now rewrite Hg. }
        destruct (@tally_item_recorded self item votes accs Hs' Hg)
          as (v1 & H1 & H2 & H3).
        exists v1. split; [exact H1|]. split; [|exact H3].
        intros b. rewrite H2. split; intros [Hb|Hb]; auto.
        + right. eexists. split; [reflexivity|exact Hb].
        + destruct Hb as (g & [= <-] & Hb). auto.
      - exists votes. unfold tally_item, add_vote. rewrite Hg.
        split; [reflexivity|]. split; [|reflexivity].
        intros b. split; [tauto|].
        intros [Hb|(g & Hd & _)]; [exact Hb|discriminate]. }
    destruct Hstep as (votes1 & Hrun1 & Hk1 & Hv1). rewrite Hrun1. cbn [bind].
    destruct (IH Hstr votes1) as (votes' & Hrun & Hk & Hv).
    exists votes'. split; [exact Hrun|]. split.
    + intros b. rewrite Hk, Hk1. split.
      * intros [[Hb|(g & Hg & Hb)]|(i & g & Hi & Hg & Hb)]; auto.
        -- right. exists item, g. simpl. auto.
        -- right. exists i, g. simpl. auto.
      * intros [Hb|(i & g & [<-|Hi] & Hg & Hb)]; auto.
        -- left. right. exists g. auto.
        -- right. exists i, g. auto.
    + intros b. rewrite Hv, Hv1. reflexivity.
Qed.

(** [max] returns an element of the sequence. *)
Lemma max_from_In {A} (key : A -> float) xs best :
  In (max_from key best xs) (best :: xs).
Proof.
  revert best. induction xs as [|y xs IH]; intros best; cbn [max_from].
  - now left.
  - destruct (IH (if flt (key best) (key y) then y else best)) as [Hin|Hin].
    + rewrite <- Hin. destruct (flt (key best) (key y)); simpl; auto.
    + right. now right.
Qed.

Section AccountGuessFacts.
Context `{Interpolate}.

Lemma add_item_eq account_name (self : AccountGuess) item :
  add_item account_name self item =
  dict_set self item
    (add (match dict_get self item with
          | Some guess_item => guess_item
          | None => GuessItem_init
          end) account_name).
Proof.
  unfold add_item, dict_setdefault.
  destruct (dict_get self item); [reflexivity | apply dict_set_set].
Qed.

Lemma items_recorded_add_item self item account_name :
  items_recorded self -> items_recorded (add_item account_name self item).
Proof.
  intros Hrec. rewrite add_item_eq.
  assert (Hnew : exists accounts,
             accounts <> [] /\
             add (match dict_get self item with
                  | Some g => g | None => GuessItem_init end) account_name
             = recorded accounts).
  { destruct (dict_get self item) as [g|] eqn:Hg.
    - destruct (Hrec _ _ Hg) as (accs & _ & ->).
      exists (accs ++ [account_name]). split; [now destruct accs|].
      now rewrite recorded_snoc.
    - exists [account_name]. split; [discriminate | reflexivity]. }
  intros item' gi' Hget.
  destruct (keqb_spec item item') as [<-|Hne].
  - rewrite dict_get_set_same in Hget. injection Hget as <-. exact Hnew.
  - rewrite dict_get_set_other in Hget by assumption. eapply Hrec; eassumption.
Qed.

Lemma items_recorded_add_txn self txn account_name :
  items_recorded self -> items_recorded (add_txn self txn account_name).
Proof.
  unfold add_txn. generalize (item_gen txn). intros items.
  revert self. induction items as [|item items IH]; intros self Hrec; simpl.
  - exact Hrec.
  - apply IH. now apply items_recorded_add_item.
Qed.

Lemma items_recorded_trained history : items_recorded (trained history).
Proof.
  unfold trained.
  assert (H0 : items_recorded AccountGuess_init) by (intros i g; discriminate).
  revert H0. generalize AccountGuess_init.
  induction history as [|[t a] history IH]; intros ag Hag; simpl.
  - exact Hag.
  - apply IH. now apply items_recorded_add_txn.
Qed.
End AccountGuessFacts.

(** The guess for a transaction whose only term is STARBUCKS, trained
    three times against Expenses:Coffee and once against Expenses:Dining. *)
Example get_account_starbucks :
  @get_account beancount_interpolate
    (@trained beancount_interpolate starbucks_history) (starbucks "")
  = Ok (Some "Expenses:Coffee").
Proof. vm_compute. reflexivity. Qed.

(** Rounding decides a guess: after [tied_history] the exact votes of the
    two accounts for the narration AB C are equal, which would leave the
    guess with Expenses:Coffee, tallied first; the votes accumulated in
    binary64 are 0.9166666666666666 and 0.9166666666666667, and the guess
    is Expenses:Dining. *)
Example get_account_rounding_decides :
  @get_account beancount_interpolate
    (@trained beancount_interpolate tied_history) (note "AB C")
  = Ok (Some "Expenses:Dining")
  /\ @tally beancount_interpolate
       (@trained beancount_interpolate tied_history) (note "AB C")
     = Ok [("Expenses:Coffee", Finite (8256599316845909 # 9007199254740992));
           ("Expenses:Dining", Finite (4128299658422955 # 4503599627370496))]
  /\ (2 * (2 # 3) ^ 2 + (1 # 6) ^ 2 == 2 * (1 # 3) ^ 2 + (5 # 6) ^ 2)%Q.
Proof. repeat split; vm_compute; reflexivity. Qed.

(** C1. A case the claim covers and the code misses: a trained term
    without a length. After one transaction with the narration STARBUCKS
    and the metadata value 2 under the key quantity was recorded against
    Expenses:Coffee, the account with the greatest vote for a transaction
    with that narration is Expenses:Coffee, and it is returned when the
    transaction has no such metadata; with the same metadata value the
    value is a term with an item, [len] is applied to it, and
    [get_account] raises [TypeError] instead of returning an account. *)
Example get_account_term_without_len :
  @get_account beancount_interpolate
    (@trained beancount_interpolate
       [(with_quantity (starbucks "Expenses:Coffee"), "Expenses:Coffee")])
    (starbucks "")
  = Ok (Some "Expenses:Coffee")
  /\ @get_account beancount_interpolate
       (@trained beancount_interpolate
          [(with_quantity (starbucks "Expenses:Coffee"), "Expenses:Coffee")])
       (with_quantity (starbucks ""))
     = Raise TypeError.
Proof. split; vm_compute; reflexivity. Qed.

(** ** Lists and strings *)

Lemma py_index_nth {A} (l : list A) idx x :
  0 <= idx -> nth_error l (Z.to_nat idx) = Some x -> py_index l idx = Ok x.
Proof.
  intros Hi Hn. unfold py_index.
  assert (Hlt : (Z.to_nat idx < List.length l)%nat).
  { apply nth_error_Some. congruence. }
  destruct (idx <? 0) eqn:E; [lia|].
  replace ((0 <=? idx) && (idx <? Z.of_nat (List.length l))) with true
    by (symmetry; apply andb_true_iff; split; lia).
  now rewrite Hn.
Qed.

Lemma list_index_nth l x i :
  list_index l x = Ok i ->
  0 <= i /\ nth_error l (Z.to_nat i) = Some x.
Proof.
  revert i. induction l as [|y l IH]; intros i; simpl; [discriminate|].
  destruct (String.eqb_spec y x) as [->|Hne].
  - intros [= <-]. split; [lia | reflexivity].
  - destruct (list_index l x) as [j|e]; simpl; [|discriminate].
    intros [= <-]. destruct (IH j eq_refl) as [Hj Hn]. split; [lia|].
    replace (Z.to_nat (j + 1)) with (S (Z.to_nat j)) by lia. exact Hn.
Qed.

Lemma list_index_In l x :
  In x l -> exists i, list_index l x = Ok i.
Proof.
  induction l as [|y l IH]; simpl; [tauto|].
  destruct (String.eqb_spec y x) as [->|Hne]; [eauto|].
  intros [E|Hi]; [congruence|]. destruct (IH Hi) as [i ->]. simpl. eauto.
Qed.

Lemma join_split_on s : join ":" (split_on ":" s) = s.
Proof.
  induction s as [|c s IH]; simpl; [reflexivity|].
  destruct (Ascii.eqb_spec c ":") as [->|Hne].
  - destruct (split_on ":" s) as [|w ws] eqn:E.
    + simpl in IH. now subst s.
    + simpl. simpl in IH. now rewrite IH.
  - destruct (split_on ":" s) as [|w ws] eqn:E.
    + simpl in IH. now subst s.
    + simpl in *. destruct ws; simpl in *; now rewrite IH.
Qed.

Lemma for_each_app {A S} (body : S -> A -> result S) xs ys s :
  for_each body (xs ++ ys) s = (s' <- for_each body xs s ;; for_each body ys s').
Proof.
  revert s. induction xs as [|x xs IH]; intros s; simpl; [reflexivity|].
  destruct (body s x); simpl; [apply IH | reflexivity].
Qed.

(** ** Looking a key up by position *)

Lemma list_index_dict_get {V} (d : dict string V) x v :
  dict_get d x = Some v ->
  exists i, list_index (keys d) x = Ok i
            /\ 0 <= i
            /\ nth_error (keys d) (Z.to_nat i) = Some x
            /\ nth_error (values d) (Z.to_nat i) = Some v.
Proof.
  induction d as [|[k w] d IH]; simpl; [discriminate|].
  destruct (String.eqb_spec k x) as [->|Hne].
  - intros [= ->]. exists 0. repeat split; lia.
  - intros Hg. destruct (IH Hg) as (i & Hi & H0 & Hk & Hv).
    exists (i + 1). rewrite Hi. simpl.
    replace (Z.to_nat (i + 1)) with (S (Z.to_nat i)) by lia.
    repeat split; try assumption; lia.
Qed.

Lemma dict_get_filter_other {V} (r : string) (items : dict string V) part :
  String.eqb part r = false ->
  dict_get (filter (fun kv => negb (String.eqb (fst kv) r)) items) part =
  dict_get items part.
Proof.
  intros Hp. induction items as [|[k v] items IH]; simpl; [reflexivity|].
  destruct (String.eqb_spec k r) as [->|Hk]; simpl.
  - destruct (String.eqb_spec r part) as [E|_]; [|exact IH].
    subst part. now rewrite String.eqb_refl in Hp.
  - destruct (String.eqb k part); [reflexivity | exact IH].
Qed.

Lemma dict_get_no_root (items : dict string node) part :
  String.eqb part ROOT = false ->
  dict_get (filter (fun kv => negb (String.eqb (fst kv) ROOT)) items) part =
  dict_get items part.
Proof. apply dict_get_filter_other. Qed.

(** ** Round trip between an account name and the cursor *)

Lemma set_then_get_loop parts :
  forall nest_dict sel,
    path_exists nest_dict parts = true ->
    exists sel' child,
      for_each set_account_step parts (sel, nest_dict) = Ok (sel ++ sel', child)
      /\ forall names,
          for_each get_account_step sel' (names, nest_dict) =
          Ok (names ++ parts, child).
Proof.
  induction parts as [|part parts IH]; intros nest_dict sel Hp.
  - exists [], nest_dict. simpl. rewrite app_nil_r. split; [reflexivity|].
    intros names. now rewrite app_nil_r.
  - simpl in Hp. destruct nest_dict as [b|items]; [discriminate|].
    apply andb_true_iff in Hp. destruct Hp as [Hroot Hp].
    apply negb_true_iff in Hroot.
    destruct (dict_get items part) as [child|] eqn:Hg; [|discriminate].
    pose proof (dict_get_no_root items part Hroot) as Hf. rewrite Hg in Hf.
    destruct (list_index_dict_get _ _ Hf) as (i & Hi & H0 & Hk & Hv).
    destruct (IH child (sel ++ [i]) Hp) as (sel' & last_child & Hset & Hget).
    assert (Hs : set_account_step (sel, NDict items) part = Ok (sel ++ [i], child)).
    { unfold set_account_step. simpl no_root. simpl bind.
      rewrite Hi. simpl bind. unfold subscript, dict_item. now rewrite Hg. }
    assert (Hgs : forall names,
               get_account_step (names, NDict items) i = Ok (names ++ [part], child)).
    { intros names. unfold get_account_step. simpl no_root. simpl bind.
      rewrite (py_index_nth _ H0 Hk). simpl bind.
      now rewrite (py_index_nth _ H0 Hv). }
    exists (i :: sel'), last_child. split.
    + cbn [for_each]. rewrite Hs. simpl bind.
      rewrite Hset. now rewrite <- app_assoc.
    + intros names. cbn [for_each]. rewrite Hgs. simpl bind.
      rewrite Hget. now rewrite <- app_assoc.
Qed.

(** C3. For every accounts dictionary and every account name whose parts
    form a path that exists in it, [set_account] succeeds and reading the
    [account] property afterwards gives back exactly that name. *)
Theorem set_account_round_trip (self : AccountSelector) (P : string) :
  path_exists (NDict (accounts_dict self)) (split_on ":" P) = true ->
  exists self',
    set_account self P = Ok self'
    /\ accounts_dict self' = accounts_dict self
    /\ _get_account self' = Ok P.
Proof.
  intros Hp.
  destruct (set_then_get_loop _ _ [] Hp) as (sel' & child & Hset & Hget).
  exists (mkSelector (accounts_dict self) sel'). split; [|split].
  - unfold set_account. rewrite Hset. reflexivity.
  - reflexivity.
  - unfold _get_account. simpl. rewrite Hget. simpl. now rewrite join_split_on.
Qed.

Lemma set_account_round_trip_witness :
  exists self',
    set_account (reset toys_accounts) "Expenses:Toys:Computer" = Ok self'
    /\ accounts_dict self' = toys_accounts
    /\ _get_account self' = Ok "Expenses:Toys:Computer".
Proof.
  apply (@set_account_round_trip (reset toys_accounts) "Expenses:Toys:Computer").
  reflexivity.
Defined.

(** ** The cursor of the account selector *)

Lemma py_index_last {A} (l : list A) x : py_index (l ++ [x]) (-1) = Ok x.
Proof.
  unfold py_index. rewrite length_app. simpl List.length.
  replace (-1 <? 0) with true by reflexivity.
  replace (-1 + Z.of_nat (List.length l + 1)%nat) with (Z.of_nat (List.length l))
    by lia.
  replace ((0 <=? Z.of_nat (List.length l))
           && (Z.of_nat (List.length l) <? Z.of_nat (List.length l + 1)%nat))
    with true by (symmetry; apply andb_true_iff; split; lia).
  rewrite Nat2Z.id, nth_error_app2 by lia. now rewrite Nat.sub_diag.
Qed.

Lemma set_last_snoc {A} (l : list A) x y : set_last (l ++ [x]) y = Ok (l ++ [y]).
Proof.
  unfold set_last. destruct (l ++ [x]) eqn:E.
  - now destruct l.
  - rewrite <- E. now rewrite removelast_last.
Qed.

Lemma nested_step_valid nest_dict idx d child :
  no_root nest_dict = Ok d ->
  0 <= idx ->
  nth_error (values d) (Z.to_nat idx) = Some child ->
  nested_step nest_dict idx = Ok child.
Proof.
  intros Hd H0 Hn. unfold nested_step. rewrite Hd. simpl bind.
  now apply py_index_nth.
Qed.

Lemma wf_node_child items d child :
  wf_node (NDict items) = true ->
  no_root (NDict items) = Ok d ->
  In child (values d) ->
  wf_node child = true.
Proof.
  intros Hwf [= <-] Hin. unfold values in Hin. apply in_map_iff in Hin.
  destruct Hin as [[k v] [Hv Hin]]. simpl in Hv. subst v.
  apply filter_In in Hin. destruct Hin as [Hin Hk]. simpl fst in Hk.
  cbn [wf_node] in Hwf. rewrite forallb_forall in Hwf.
  specialize (Hwf _ Hin). cbn [fst snd] in Hwf.
  apply negb_true_iff in Hk. rewrite Hk in Hwf. exact Hwf.
Qed.

Lemma wf_node_no_root v : wf_node v = true -> exists d, no_root v = Ok d.
Proof. destruct v as [b|items]; [discriminate|]. simpl. eauto. Qed.

(** Following a valid cursor never fails, and leads to a dictionary. *)
Lemma nested_valid selected :
  forall nest_dict,
    valid_path nest_dict selected = true ->
    exists level,
      for_each nested_step selected nest_dict = Ok level
      /\ (wf_node nest_dict = true -> wf_node level = true).
Proof.
  induction selected as [|idx rest IH]; intros nest_dict Hv.
  - exists nest_dict. split; [reflexivity | tauto].
  - cbn [valid_path] in Hv.
    destruct (no_root nest_dict) as [d|e] eqn:Hd; [|discriminate].
    apply andb_true_iff in Hv. destruct Hv as [Hb Hv].
    apply andb_true_iff in Hb. destruct Hb as [H0 Hlt].
    destruct (nth_error (values d) (Z.to_nat idx)) as [child|] eqn:Hn;
      [|discriminate].
    destruct (IH child Hv) as (level & Hrun & Hwf).
    exists level. split.
    + assert (H0' : 0 <= idx) by lia.
      cbn [for_each]. rewrite (nested_step_valid _ Hd H0' Hn). exact Hrun.
    + intros Hw. apply Hwf. destruct nest_dict as [b|items]; [discriminate|].
      eapply wf_node_child; [exact Hw | exact Hd |].
      eapply nth_error_In; exact Hn.
Qed.

(** A cursor with one more index is valid when its prefix is and the last
    index addresses an entry of the level the prefix leads to. *)
Lemma valid_path_snoc pre i :
  forall nest_dict,
    valid_path nest_dict (pre ++ [i]) = true <->
    valid_path nest_dict pre = true
    /\ exists level d,
        for_each nested_step pre nest_dict = Ok level
        /\ no_root level = Ok d
        /\ 0 <= i < Z.of_nat (List.length d).
Proof.
  induction pre as [|j pre IH]; intros nest_dict.
  - cbn [app valid_path for_each]. split.
    + destruct (no_root nest_dict) as [d|e] eqn:Hd; [|discriminate].
      intros Hv. apply andb_true_iff in Hv. destruct Hv as [Hb _].
      apply andb_true_iff in Hb. split; [reflexivity|].
      exists nest_dict, d. repeat split; try assumption; lia.
    + intros [_ (level & d & [= <-] & Hd & Hi)]. rewrite Hd.
      replace ((0 <=? i) && (i <? Z.of_nat (List.length d))) with true
        by (symmetry; apply andb_true_iff; split; lia).
      destruct (nth_error (values d) (Z.to_nat i)) eqn:Hn; [reflexivity|].
      apply nth_error_None in Hn. unfold values in Hn. rewrite length_map in Hn. lia.
  - cbn [app valid_path for_each].
    destruct (no_root nest_dict) as [d|e] eqn:Hd.
    2:{ split; [discriminate|]. intros [Hf _]. discriminate. }
    destruct ((0 <=? j) && (j <? Z.of_nat (List.length d))) eqn:Hb; cbn [andb].
    2:{ split; [discriminate|]. intros [Hf _]. discriminate. }
    destruct (nth_error (values d) (Z.to_nat j)) as [child|] eqn:Hn.
    2:{ split; [discriminate|]. intros [Hf _]. discriminate. }
    assert (H0 : 0 <= j) by lia.
    rewrite (nested_step_valid _ Hd H0 Hn). simpl bind. apply IH.
Qed.

(** The shape of a valid cursor: a valid prefix, and a last index inside
    the level the prefix leads to. *)
Lemma valid_cursor_inv self :
  valid_cursor self = true ->
  exists pre i level d,
    selected self = pre ++ [i]
    /\ valid_path (NDict (accounts_dict self)) pre = true
    /\ _get_nested_dict_from_selected self pre = Ok level
    /\ no_root level = Ok d
    /\ 0 <= i < Z.of_nat (List.length d).
Proof.
  unfold valid_cursor. intros Hv. apply andb_true_iff in Hv.
  destruct Hv as [Hlen Hv].
  destruct (exists_last (l := selected self)) as (pre & i & E).
  { intros E. rewrite E in Hlen. discriminate. }
  rewrite E in Hv. apply valid_path_snoc in Hv.
  destruct Hv as (Hpre & level & d & Hrun & Hd & Hi).
  exists pre, i, level, d. auto.
Qed.

Lemma valid_cursor_intro accounts pre i level d :
  valid_path (NDict accounts) pre = true ->
  for_each nested_step pre (NDict accounts) = Ok level ->
  no_root level = Ok d ->
  0 <= i < Z.of_nat (List.length d) ->
  valid_cursor (mkSelector accounts (pre ++ [i])) = true.
Proof.
  intros Hpre Hrun Hd Hi. unfold valid_cursor. cbn [selected accounts_dict].
  apply andb_true_iff. split.
  - rewrite length_app. simpl. lia.
  - apply valid_path_snoc. split; [assumption|]. exists level, d. auto.
Qed.

Lemma prev_account_valid self :
  valid_cursor self = true ->
  exists pre i,
    selected self = pre ++ [i]
    /\ prev_account self =
       Ok (mkSelector (accounts_dict self) (pre ++ [Z.max (i - 1) 0]))
    /\ valid_cursor (mkSelector (accounts_dict self) (pre ++ [Z.max (i - 1) 0]))
       = true.
Proof.
  intros Hvalid.
  destruct (valid_cursor_inv _ Hvalid) as (pre & i & level & d & E & Hpre & Hrun & Hd & Hi).
  exists pre, i. split; [exact E|]. split.
  - unfold prev_account. rewrite E, py_index_last. simpl bind.
    now rewrite set_last_snoc.
  - eapply valid_cursor_intro; try eassumption. lia.
Qed.

Lemma next_account_valid self :
  valid_cursor self = true ->
  exists pre i level d,
    selected self = pre ++ [i]
    /\ _get_nested_dict_from_selected self pre = Ok level
    /\ no_root level = Ok d
    /\ next_account self =
       Ok (mkSelector (accounts_dict self)
             (pre ++ [Z.min (i + 1) (Z.of_nat (List.length d) - 1)]))
    /\ valid_cursor
         (mkSelector (accounts_dict self)
            (pre ++ [Z.min (i + 1) (Z.of_nat (List.length d) - 1)])) = true.
Proof.
  intros Hvalid.
  destruct (valid_cursor_inv _ Hvalid) as (pre & i & level & d & E & Hpre & Hrun & Hd & Hi).
  exists pre, i, level, d. repeat split; try assumption.
  - unfold next_account. rewrite E, removelast_last, Hrun. simpl bind.
    rewrite Hd. simpl bind. rewrite py_index_last. simpl bind.
    now rewrite set_last_snoc.
  - eapply valid_cursor_intro; try eassumption. lia.
Qed.

Lemma prev_level_valid self :
  valid_cursor self = true ->
  exists self', prev_level self = Ok self'
                /\ accounts_dict self' = accounts_dict self
                /\ valid_cursor self' = true
                /\ (List.length (selected self) = 1%nat -> self' = self).
Proof.
  intros Hvalid.
  destruct (valid_cursor_inv _ Hvalid) as (pre & i & level & d & E & Hpre & Hrun & Hd & Hi).
  unfold prev_level. rewrite E, length_app, removelast_last. simpl List.length.
  destruct pre as [|j pre'].
  - exists self. simpl. repeat split; auto.
  - replace (1 <? _) with true by (simpl List.length; lia).
    eexists. split; [reflexivity|]. split; [reflexivity|]. split.
    + unfold valid_cursor. cbn [selected accounts_dict].
      apply andb_true_iff. split; [simpl List.length; lia | exact Hpre].
    + simpl. lia.
Qed.

Lemma next_level_valid self :
  wf_node (NDict (accounts_dict self)) = true ->
  valid_cursor self = true ->
  exists level d,
    get_nested_dict self = Ok level
    /\ no_root level = Ok d
    /\ next_level self =
       Ok (match d with
           | [] => self
           | _ :: _ => mkSelector (accounts_dict self) (selected self ++ [0])
           end)
    /\ valid_cursor (match d with
                     | [] => self
                     | _ :: _ =>
                         mkSelector (accounts_dict self) (selected self ++ [0])
                     end) = true.
Proof.
  intros Hwf Hvalid.
  assert (Hpath : valid_path (NDict (accounts_dict self)) (selected self) = true).
  { unfold valid_cursor in Hvalid. apply andb_true_iff in Hvalid. tauto. }
  destruct (nested_valid _ _ Hpath) as (level & Hrun & Hlw).
  destruct (wf_node_no_root _ (Hlw Hwf)) as [d Hd].
  exists level, d. split; [exact Hrun|]. split; [exact Hd|]. split.
  - unfold next_level, _get_nested_dict_from_selected. rewrite Hrun. simpl bind.
    rewrite Hd. simpl bind. now destruct d.
  - destruct d as [|kv d']; [exact Hvalid|].
    eapply valid_cursor_intro; try eassumption. simpl List.length. lia.
Qed.

Lemma navigate_valid self c :
  wf_node (NDict (accounts_dict self)) = true ->
  valid_cursor self = true ->
  exists self',
    navigate self c = Ok self'
    /\ accounts_dict self' = accounts_dict self
    /\ valid_cursor self' = true.
Proof.
  intros Hwf Hvalid. destruct c; cbn [navigate].
  - destruct (prev_account_valid self Hvalid) as (pre & i & _ & Hrun & Hv). eauto.
  - destruct (next_account_valid self Hvalid) as (pre & i & l & d & _ & _ & _ & Hrun & Hv).
    eauto.
  - destruct (prev_level_valid self Hvalid) as (s' & Hrun & Ha & Hv & _). eauto.
  - destruct (next_level_valid self Hwf Hvalid) as (l & d & _ & _ & Hrun & Hv).
    eexists. split; [exact Hrun|]. split; [now destruct d | exact Hv].
Qed.

Lemma selector_eta self : mkSelector (accounts_dict self) (selected self) = self.
Proof. now destruct self. Qed.

(** C4. For every well-formed accounts dictionary with at least one entry
    other than the marker at the top, every sequence of navigation commands
    run from [reset] succeeds and leaves a valid cursor: at least one index,
    each one non-negative and below the number of entries, other than the
    marker, of its level. *)
Theorem navigation_keeps_cursor_valid
    (accounts : dict string node) (commands : list command) :
  wf_node (NDict accounts) = true ->
  (exists kv, In kv accounts /\ String.eqb (fst kv) ROOT = false) ->
  exists self,
    for_each navigate commands (reset accounts) = Ok self
    /\ accounts_dict self = accounts
    /\ valid_cursor self = true.
Proof.
  intros Hwf (kv & Hin & Hk).
  assert (H0 : valid_cursor (reset accounts) = true).
  { apply (@valid_cursor_intro accounts [] 0 (NDict accounts)
             (filter (fun kv => negb (String.eqb (fst kv) ROOT)) accounts));
      try reflexivity.
    assert (Hf : In kv (filter (fun kv => negb (String.eqb (fst kv) ROOT)) accounts)).
    { apply filter_In. split; [exact Hin|]. now rewrite Hk. }
    destruct (filter _ accounts); [destruct Hf | simpl List.length; lia]. }
  change accounts with (accounts_dict (reset accounts)) in Hwf.
  change accounts with (accounts_dict (reset accounts)) at 2.
  revert Hwf H0. generalize (reset accounts). clear.
  induction commands as [|c commands IH]; intros self Hwf Hvalid.
  - exists self. auto.
  - destruct (navigate_valid self c Hwf Hvalid) as (s1 & Hrun & Ha & Hv).
    cbn [for_each]. rewrite Hrun. simpl bind.
    rewrite <- Ha in Hwf. destruct (IH s1 Hwf Hv) as (s2 & Hrun2 & Ha2 & Hv2).
    exists s2. split; [exact Hrun2|]. split; [congruence | exact Hv2].
Qed.

Lemma navigation_keeps_cursor_valid_witness :
  exists self,
    for_each navigate [NextLevel; NextAccount; NextLevel; PrevAccount; PrevLevel]
      (reset toys_accounts) = Ok self
    /\ accounts_dict self = toys_accounts
    /\ valid_cursor self = true.
Proof.
  apply (@navigation_keeps_cursor_valid toys_accounts
           [NextLevel; NextAccount; NextLevel; PrevAccount; PrevLevel]).
  - reflexivity.
  - exists ("Expenses", NDict [("Toys", NDict [("Computer", NDict [(ROOT, NBool true)])])]).
    split; [now left | reflexivity].
Defined.

(** C5. At a valid cursor: [prev_account] at last index 0, [next_account]
    at the last entry of the level, [prev_level] at depth 1 and [next_level]
    on a node without entries other than the marker all leave the selector
    as it is; and no navigation command raises. *)
Theorem navigation_clamps (self : AccountSelector) :
  wf_node (NDict (accounts_dict self)) = true ->
  valid_cursor self = true ->
  (py_index (selected self) (-1) = Ok 0 -> prev_account self = Ok self)
  /\ (forall level d,
         _get_nested_dict_from_selected self (removelast (selected self))
         = Ok level ->
         no_root level = Ok d ->
         py_index (selected self) (-1) = Ok (Z.of_nat (List.length d) - 1) ->
         next_account self = Ok self)
  /\ (List.length (selected self) = 1%nat -> prev_level self = Ok self)
  /\ (forall level,
         get_nested_dict self = Ok level ->
         no_root level = Ok [] ->
         next_level self = Ok self)
  /\ (forall c, exists self', navigate self c = Ok self').
Proof.
  intros Hwf Hvalid. split; [|split; [|split; [|split]]].
  - intros Hlast.
    destruct (prev_account_valid self Hvalid) as (pre & i & E & Hrun & _).
    rewrite E, py_index_last in Hlast. injection Hlast as ->.
    rewrite Hrun. cbn [Z.max Z.sub Z.add Z.opp Z.compare].
    rewrite <- E. now rewrite selector_eta.
  - intros level d Hlevel Hd Hlast.
    destruct (next_account_valid self Hvalid)
      as (pre & i & level' & d' & E & Hlevel' & Hd' & Hrun & _).
    rewrite E, removelast_last in Hlevel. rewrite Hlevel in Hlevel'.
    injection Hlevel' as <-. rewrite Hd in Hd'. injection Hd' as <-.
    rewrite E, py_index_last in Hlast. injection Hlast as ->.
    rewrite Hrun.
    replace (Z.min _ _) with (Z.of_nat (List.length d) - 1) by lia.
    rewrite <- E. now rewrite selector_eta.
  - intros Hlen. destruct (prev_level_valid self Hvalid) as (s' & Hrun & _ & _ & Heq).
    rewrite Hrun. now rewrite (Heq Hlen).
  - intros level Hlevel Hd.
    destruct (next_level_valid self Hwf Hvalid) as (level' & d' & Hlevel' & Hd' & Hrun & _).
    rewrite Hlevel in Hlevel'. injection Hlevel' as <-.
    rewrite Hd in Hd'. injection Hd' as <-. exact Hrun.
  - intros c. destruct (navigate_valid self c Hwf Hvalid) as (s' & Hrun & _). eauto.
Qed.

Lemma navigation_clamps_witness :
  let computer := mkSelector toys_accounts [0; 0; 0] in
  prev_account computer = Ok computer
  /\ next_account computer = Ok computer
  /\ next_level computer = Ok computer.
Proof.
  intros computer.
  destruct (@navigation_clamps computer eq_refl eq_refl)
    as (Hprev & Hnext & _ & Hdown & _).
  split; [|split].
  - apply Hprev. reflexivity.
  - apply (Hnext (NDict [("Computer", NDict [(ROOT, NBool true)])])
             [("Computer", NDict [(ROOT, NBool true)])]); reflexivity.
  - apply (Hdown (NDict [(ROOT, NBool true)])); reflexivity.
Defined.

(** ** The review loop *)

Lemma py_index_same_length {A B} (l : list A) (l' : list B) idx x :
  List.length l = List.length l' ->
  py_index l idx = Ok x ->
  exists y, py_index l' idx = Ok y.
Proof.
  unfold py_index. intros Hlen. rewrite <- Hlen.
  destruct ((0 <=? (if idx <? 0 then idx + Z.of_nat (List.length l) else idx))
            && ((if idx <? 0 then idx + Z.of_nat (List.length l) else idx)
                <? Z.of_nat (List.length l))) eqn:Hb; [|discriminate].
  intros _.
  destruct (nth_error l' _) as [y|] eqn:Hn; [eauto|].
  apply nth_error_None in Hn. lia.
Qed.

(** Where the cursor leads to a node, it also spells an account name. *)
Lemma nested_names selected :
  forall nest_dict level names,
    for_each nested_step selected nest_dict = Ok level ->
    exists names',
      for_each get_account_step selected (names, nest_dict) = Ok (names', level).
Proof.
  induction selected as [|idx rest IH]; intros nest_dict level names.
  - intros [= <-]. exists names. reflexivity.
  - cbn [for_each]. unfold nested_step at 1, get_account_step at 1.
    destruct (no_root nest_dict) as [d|e]; [|discriminate]. simpl bind.
    destruct (py_index (values d) idx) as [child|e] eqn:Hc; [|discriminate].
    destruct (@py_index_same_length _ _ (values d) (keys d) idx child) as [name Hk].
    { unfold values, keys. now rewrite !length_map. }
    { exact Hc. }
    rewrite Hk. simpl bind. apply IH.
Qed.

Lemma get_nested_dict_account self level :
  get_nested_dict self = Ok level ->
  exists account_name, _get_account self = Ok account_name.
Proof.
  intros Hl. unfold _get_account.
  destruct (nested_names _ _ [] Hl) as [names Hn]. rewrite Hn. simpl. eauto.
Qed.

Lemma py_index_second {A} (a b : A) l : py_index (a :: b :: l) 1 = Ok b.
Proof.
  unfold py_index. cbn [Z.ltb Z.compare].
  replace ((0 <=? 1) && (1 <? Z.of_nat (List.length (a :: b :: l)))) with true
    by (simpl List.length; lia).
  reflexivity.
Qed.

Lemma set_item_second {A} (a b x : A) l :
  set_item (a :: b :: l) 1 x = Ok (a :: x :: l).
Proof.
  unfold set_item. cbn [Z.ltb Z.compare].
  replace ((0 <=? 1) && (1 <? Z.of_nat (List.length (a :: b :: l)))) with true
    by (simpl List.length; lia).
  reflexivity.
Qed.

Section ReviewLoopFacts.
Context `{Interpolate}.

(** C7. In the review loop the key 'r' acts only on a terminal node. When
    the node under the cursor does not carry a true marker, the pass leaves
    the selector, the entry and the suggestion model as they were and the
    loop goes on. When it does, and the entry has its two postings, the
    second posting gets the account name the cursor resolves to, the model
    is trained on the entry and that name, and the loop is left whatever
    is typed next. *)
Theorem commit_only_on_terminal (st : review) (nest_dict : node) :
  get_nested_dict (account_selected st) = Ok nest_dict ->
  (is_root nest_dict = Ok false ->
   handle_key "r" st = Ok (Continue st)
   /\ forall typed, review_loop ("r" :: typed) st = review_loop typed st)
  /\ (is_root nest_dict = Ok true ->
      forall first second rest,
        postings (entry st) = first :: second :: rest ->
        exists account_name,
          _get_account (account_selected st) = Ok account_name
          /\ let entry' :=
               set_postings (entry st)
                 (first :: replace_account second account_name :: rest) in
             let st' :=
               mkReview (account_selected st) entry'
                 (add_txn (ag st) entry' account_name) in
             handle_key "r" st = Ok (Break st' account_name)
             /\ forall typed,
                 review_loop ("r" :: typed) st = Ok (Break st' account_name)).
Proof.
  intros Hnode. split.
  - intros Hroot.
    assert (Hk : handle_key "r" st = Ok (Continue st)).
    { unfold handle_key. cbn [String.eqb Ascii.eqb Bool.eqb]. simpl bind.
      rewrite Hnode. simpl bind. rewrite Hroot. simpl bind.
      now destruct st. }
    split; [exact Hk|]. intros typed. cbn [review_loop]. now rewrite Hk.
  - intros Hroot first second rest Hps.
    destruct (get_nested_dict_account _ Hnode) as [account_name Hacc].
    exists account_name. split; [exact Hacc|].
    assert (Hk : handle_key "r" st =
                 Ok (Break
                       (mkReview (account_selected st)
                          (set_postings (entry st)
                             (first :: replace_account second account_name :: rest))
                          (add_txn (ag st)
                             (set_postings (entry st)
                                (first :: replace_account second account_name :: rest))
                             account_name))
                       account_name)).
    { unfold handle_key. cbn [String.eqb Ascii.eqb Bool.eqb]. simpl bind.
      rewrite Hnode. simpl bind. rewrite Hroot. simpl bind.
      rewrite Hacc. simpl bind. rewrite Hps, py_index_second. simpl bind.
      now rewrite set_item_second. }
    split; [exact Hk|]. intros typed. cbn [review_loop]. now rewrite Hk.
Qed.
End ReviewLoopFacts.

Lemma commit_only_on_terminal_witness :
  @handle_key beancount_interpolate "r"
    (mkReview (reset toys_accounts) (starbucks "") AccountGuess_init)
  = Ok (Continue (mkReview (reset toys_accounts) (starbucks "") AccountGuess_init))
  /\ exists st',
      @handle_key beancount_interpolate "r"
        (mkReview (mkSelector toys_accounts [0; 0; 0]) (starbucks "")
           AccountGuess_init)
      = Ok (Break st' "Expenses:Toys:Computer")
      /\ map account (postings (entry st')) =
         ["Liabilities:Card"; "Expenses:Toys:Computer"].
Proof.
  split.
  - apply (proj1 (@commit_only_on_terminal beancount_interpolate
                    (mkReview (reset toys_accounts) (starbucks "")
                       AccountGuess_init)
                    (NDict [("Toys",
                             NDict [("Computer", NDict [(ROOT, NBool true)])])])
                    eq_refl) eq_refl).
  - destruct (proj2 (@commit_only_on_terminal beancount_interpolate
                       (mkReview (mkSelector toys_accounts [0; 0; 0])
                          (starbucks "") AccountGuess_init)
                       (NDict [(ROOT, NBool true)]) eq_refl)
                eq_refl _ _ _ eq_refl) as (account_name & Hacc & Hkey & _).
    injection Hacc as <-.
    eexists. split; [exact Hkey | reflexivity].
Defined.

(** ** Duplicate marking and the date cut-off *)

Lemma in_duplicate_set pairs e :
  existsb (Nat.eqb (oid e)) (map (fun pair : object * object => oid (fst pair)) pairs)
  = in_pairs pairs e.
Proof.
  unfold in_pairs. induction pairs as [|p pairs IH]; simpl; [reflexivity|].
  now rewrite IH, Nat.eqb_sym.
Qed.

Lemma marked_copy_replace_meta next_id e :
  marked_copy e
    (replace_meta next_id e (dict_set (meta (val e)) DUPLICATE_META (PBool true))).
Proof.
  unfold marked_copy, replace_meta. cbn [val meta date flag payee narration postings].
  split; [apply dict_get_set_same|]. split; [|tauto].
  intros key Hne. apply dict_get_set_other. congruence.
Qed.

(** The marking loop, from any state. *)
Lemma mark_loop pairs entries :
  forall next_id mod_entries duplicate_entries,
  exists next_id' out,
    fold_left (mark_step (map (fun pair : object * object => oid (fst pair)) pairs))
      entries (next_id, mod_entries, duplicate_entries)
    = (next_id', mod_entries ++ out,
       duplicate_entries
       ++ map snd (filter (fun eo => in_pairs pairs (fst eo)) (combine entries out)))
    /\ (next_id <= next_id')%nat
    /\ Forall2 (fun e o => if in_pairs pairs e
                           then marked_copy e o /\ (next_id <= oid o)%nat
                           else o = e) entries out.
Proof.
  induction entries as [|e entries IH]; intros next_id mods dups.
  - exists next_id, []. simpl. rewrite !app_nil_r. auto.
  - cbn [fold_left]. unfold mark_step at 2. rewrite in_duplicate_set.
    destruct (in_pairs pairs e) eqn:Hin.
    + set (o := replace_meta next_id e _).
      destruct (IH (S next_id) (mods ++ [o]) (dups ++ [o])) as (n' & out & Hrun & Hle & Hall).
      exists n', (o :: out). split; [|split].
      * rewrite Hrun. cbn [combine filter fst]. rewrite Hin. cbn [map snd].
        now rewrite <- !app_assoc.
      * lia.
      * constructor.
        -- rewrite Hin. split; [apply marked_copy_replace_meta | simpl; lia].
        -- eapply Forall2_impl; [|exact Hall]. intros a b Hab. cbv beta in *.
           destruct (in_pairs pairs a); [|exact Hab].
           destruct Hab as [Hm Hl]. split; [exact Hm|lia].
    + destruct (IH next_id (mods ++ [e]) dups) as (n' & out & Hrun & Hle & Hall).
      exists n', (e :: out). split; [|split].
      * rewrite Hrun. cbn [combine filter fst]. rewrite Hin.
        now rewrite <- !app_assoc.
      * lia.
      * constructor; [now rewrite Hin | exact Hall].
Qed.

Section ExtractFacts.
Variable sanity_check_types : Transaction -> bool -> bool.
Variable find_similar_entries :
  list object -> list object -> list (object * object).

Lemma sanity_loop allow entries :
  Forall (fun e => sanity_check_types (val e) allow = true) entries ->
  for_each
    (fun (_ : unit) entry =>
       if sanity_check_types (val entry) allow then Ok tt else Raise AssertionError)
    entries tt = Ok tt.
Proof.
  induction 1 as [|e entries He _ IH]; [reflexivity|].
  cbn [for_each]. rewrite He. exact IH.
Qed.

Lemma after_cutoff_nil min_date : after_cutoff min_date [] = [].
Proof. now destruct min_date. Qed.

Lemma extract_from_file_nonempty next_id new_entries existing min_date allow :
  new_entries <> [] ->
  extract_from_file sanity_check_types find_similar_entries next_id
    new_entries existing min_date allow
  = (_ <- for_each
            (fun (_ : unit) entry =>
               if sanity_check_types (val entry) allow
               then Ok tt else Raise AssertionError)
            new_entries tt ;;
     match existing with
     | Some existing_entries =>
         let '(_, mod_entries, duplicate_entries) :=
           fold_left
             (mark_step
                (map (fun pair : object * object => oid (fst pair))
                   (find_similar_entries (after_cutoff min_date new_entries)
                      existing_entries)))
             (after_cutoff min_date new_entries) (next_id, [], []) in
         Ok (mod_entries, duplicate_entries)
     | None => Ok (after_cutoff min_date new_entries, [])
     end).
Proof. destruct new_entries; [congruence | reflexivity]. Qed.

(** C6. With existing entries given and entries that pass the type check,
    [extract_from_file] returns the entries left after the cut-off, one
    for one and in their order: an entry that is, as an object, the new
    entry of a pair returned by the collaborator is replaced by a new
    object whose metadata map the duplicate key to [True] and are otherwise
    those of the entry, the other fields being the same; every other entry
    is returned as it is. The second list holds the replaced entries, in
    the same order. *)
Theorem duplicates_marked_in_order
    (next_id : nat) (new_entries existing_entries : list object)
    (min_date : option Z) (allow : bool) :
  Forall (fun e => sanity_check_types (val e) allow = true) new_entries ->
  exists out duplicates,
    extract_from_file sanity_check_types find_similar_entries next_id
      new_entries (Some existing_entries) min_date allow
    = Ok (out, duplicates)
    /\ Forall2
         (fun e o =>
            if in_pairs (find_similar_entries (after_cutoff min_date new_entries)
                           existing_entries) e
            then marked_copy e o /\ (next_id <= oid o)%nat
            else o = e)
         (after_cutoff min_date new_entries) out
    /\ duplicates =
       map snd
         (filter
            (fun eo =>
               in_pairs (find_similar_entries (after_cutoff min_date new_entries)
                           existing_entries) (fst eo))
            (combine (after_cutoff min_date new_entries) out)).
Proof.
  intros Hsane.
  assert (Hcase : new_entries = [] \/ new_entries <> [])
    by (destruct new_entries; [left | right]; congruence).
  destruct Hcase as [->|Hne].
  - exists [], []. rewrite after_cutoff_nil. simpl. auto.
  - rewrite extract_from_file_nonempty by assumption.
    rewrite (sanity_loop Hsane). cbn [bind].
    destruct (mark_loop
                (find_similar_entries (after_cutoff min_date new_entries)
                   existing_entries)
                (after_cutoff min_date new_entries) next_id [] [])
      as (n' & out & Hrun & _ & Hall).
    rewrite Hrun. simpl app. eauto.
Qed.

(** On entries in ascending order of date, dropping the leading entries
    before the cut-off drops every entry before it. *)
Lemma dropwhile_date_ordered d entries :
  date_ordered entries ->
  dropwhile (fun x => date (val x) <? d) entries =
  filter (fun e => negb (date (val e) <? d)) entries.
Proof.
  intros Hs. apply Sorted_StronglySorted in Hs.
  2:{ intros a b c. lia. }
  induction Hs as [|e entries Hs IH Hall]; [reflexivity|].
  cbn [dropwhile filter]. destruct (date (val e) <? d) eqn:E; cbn [negb].
  - exact IH.
  - f_equal. symmetry. apply forallb_filter_id. apply forallb_forall.
    intros x Hx. rewrite Forall_forall in Hall. specialize (Hall x Hx). lia.
Qed.

(** C9. With a minimum date and entries in ascending order of date that
    pass the type check, the entries returned are those whose date is not
    before the minimum, one for one and in their order, each as it is or
    replaced by its marked copy; without existing entries the list
    returned is exactly the list of those entries. *)
Theorem min_date_drops_earlier
    (next_id : nat) (new_entries : list object)
    (existing_entries : option (list object)) (min_date : Z) (allow : bool) :
  Forall (fun e => sanity_check_types (val e) allow = true) new_entries ->
  date_ordered new_entries ->
  exists out duplicates,
    extract_from_file sanity_check_types find_similar_entries next_id
      new_entries existing_entries (Some min_date) allow
    = Ok (out, duplicates)
    /\ Forall2 (fun e o => o = e \/ marked_copy e o)
         (filter (fun e => negb (date (val e) <? min_date)) new_entries) out
    /\ (existing_entries = None ->
        out = filter (fun e => negb (date (val e) <? min_date)) new_entries).
Proof.
  intros Hsane Hord.
  assert (Hcase : new_entries = [] \/ new_entries <> [])
    by (destruct new_entries; [left | right]; congruence).
  destruct Hcase as [->|Hne].
  - exists [], []. simpl. repeat split; constructor.
  - rewrite extract_from_file_nonempty by assumption.
    rewrite (sanity_loop Hsane). cbn [bind].
    change (after_cutoff (Some min_date) new_entries)
      with (dropwhile (fun x => date (val x) <? min_date) new_entries).
    rewrite (dropwhile_date_ordered min_date Hord).
    set (kept := filter _ new_entries).
    destruct existing_entries as [existing|].
    + destruct (mark_loop (find_similar_entries kept existing) kept next_id [] [])
        as (n' & out & Hrun & _ & Hall).
      rewrite Hrun. simpl app. eexists _, _. split; [reflexivity|].
      split; [|discriminate].
      eapply Forall2_impl; [|exact Hall]. intros a b Hab. cbv beta in *.
      destruct (in_pairs _ a); [right; tauto | left; exact Hab].
    + exists kept, []. split; [reflexivity|]. split; [|reflexivity].
      clear. induction kept; constructor; auto.
Qed.
End ExtractFacts.

Lemma duplicates_marked_in_order_witness :
  exists marked,
    extract_from_file accept_all same_date_pairs 4 extracted (Some ledger) None
      false
    = Ok ([mkObject 1 (on_date 20180301 (starbucks "")); marked;
           mkObject 3 (on_date 20180309 (starbucks ""))], [marked])
    /\ marked_copy (mkObject 2 (on_date 20180305 (starbucks ""))) marked.
Proof.
  destruct (@duplicates_marked_in_order accept_all same_date_pairs 4 extracted
              ledger None false)
    as (out & dups & Hrun & Hall & Hdups).
  - repeat constructor.
  - rewrite Hrun. 
    inversion Hall as [|e1 o1 l1 r1 H1 Hall1]; subst.
    inversion Hall1 as [|e2 o2 l2 r2 H2 Hall2]; subst.
    inversion Hall2 as [|e3 o3 l3 r3 H3 Hall3]; subst.
    inversion Hall3; subst.
    cbn in H1, H2, H3. subst o1 o3. destruct H2 as [Hm _].
    exists o2. split; [reflexivity | exact Hm].
Defined.

Lemma min_date_drops_earlier_witness :
  extract_from_file accept_all same_date_pairs 4 extracted None (Some 20180305)
    false
  = Ok ([mkObject 2 (on_date 20180305 (starbucks ""));
         mkObject 3 (on_date 20180309 (starbucks ""))], []).
Proof.
  destruct (@min_date_drops_earlier accept_all same_date_pairs 4 extracted
              None 20180305 false)
    as (out & dups & Hrun & _ & Hout).
  - repeat constructor.
  - unfold date_ordered, extracted. repeat constructor; simpl; lia.
  - rewrite Hrun, (Hout eq_refl). 
    destruct dups; [reflexivity|]. exfalso. 
    revert Hrun. vm_compute. discriminate.
Defined.

(** ** The training pass *)

Lemma py_index_second_absent {A} (l : list A) :
  (List.length l < 2)%nat -> py_index l 1 = Raise IndexError.
Proof.
  intros Hlen. unfold py_index. cbn [Z.ltb Z.compare].
  replace ((0 <=? 1) && (1 <? Z.of_nat (List.length l))) with false by lia.
  reflexivity.
Qed.

Lemma py_index_second_present {A} (l : list A) :
  (2 <= List.length l)%nat -> exists x, py_index l 1 = Ok x.
Proof.
  intros Hlen. destruct l as [|a [|b l]]; simpl in Hlen; try lia.
  exists b. apply py_index_second.
Qed.

Section TrainingFacts.
Context `{Interpolate} `{Flags}.

(** The training loop up to a cleared transaction without a second
    posting. *)
Lemma train_until_failure before txn after :
  flag txn = FLAG_OKAY ->
  (List.length (postings txn) < 2)%nat ->
  Forall (fun t => flag t = FLAG_OKAY -> (2 <= List.length (postings t))%nat)
    before ->
  forall ag log,
    train ag (before ++ txn :: after) log =
    (Raise IndexError,
     log ++ map add_txn_record
              (filter (fun t => String.eqb (flag t) FLAG_OKAY) before)).
Proof.
  intros Hflag Hlen Hbefore. induction Hbefore as [|t before Ht _ IH]; intros ag log.
  - cbn [app train filter map]. rewrite Hflag, String.eqb_refl.
    rewrite py_index_second_absent by assumption. cbn [bind reraise_KeyError].
    now rewrite app_nil_r.
  - cbn [app train filter]. destruct (String.eqb_spec (flag t) FLAG_OKAY) as [E|_].
    + destruct (py_index_second_present _ (Ht E)) as [second Hs]. rewrite Hs.
      cbn [bind reraise_KeyError map]. rewrite IH. now rewrite <- app_assoc.
    + apply IH.
Qed.

(** C8, as amended. A cleared transaction without a second posting ends the
    training pass with the IndexError of the lookup, which the
    [except KeyError] clause lets through; the log then holds the records
    of the [add_txn] calls made for the cleared transactions before it and
    nothing about the failure. A KeyError would be raised again as it
    is. *)
Theorem training_failure_propagates_unlogged
    (before after : list Transaction) (txn : Transaction)
    (log : list log_record) :
  flag txn = FLAG_OKAY ->
  (List.length (postings txn) < 2)%nat ->
  Forall (fun t => flag t = FLAG_OKAY -> (2 <= List.length (postings t))%nat)
    before ->
  main_training true true (before ++ txn :: after) log =
  (Raise IndexError,
   log ++ map add_txn_record
            (filter (fun t => String.eqb (flag t) FLAG_OKAY) before))
  /\ reraise_KeyError (A := string) (Raise IndexError) = Raise IndexError
  /\ reraise_KeyError (A := string) (Raise KeyError) = Raise KeyError.
Proof.
  intros Hflag Hlen Hbefore. split; [|split; reflexivity].
  unfold main_training.
  now rewrite (@train_until_failure before txn after Hflag Hlen Hbefore).
Qed.
End TrainingFacts.

Lemma training_failure_propagates_unlogged_witness :
  @main_training beancount_interpolate beancount_flags true true
    ([starbucks "Expenses:Coffee"] ++ lone_posting :: [starbucks "Expenses:Dining"])
    []
  = (Raise IndexError,
     [] ++ map (@add_txn_record beancount_interpolate)
             (filter (fun t => String.eqb (flag t) "*")
                [starbucks "Expenses:Coffee"])).
Proof.
  apply (@training_failure_propagates_unlogged beancount_interpolate
           beancount_flags [starbucks "Expenses:Coffee"]
           [starbucks "Expenses:Dining"] lone_posting []).
  - reflexivity.
  - simpl. lia.
  - repeat constructor.
Defined.

(** The failure leaves no record: training on a single cleared transaction
    without a second posting raises, and the log holds nothing. *)
Lemma training_failure_not_logged :
  fst (@main_training beancount_interpolate beancount_flags true true
         [lone_posting] []) = Raise IndexError
  /\ ~ exists record,
        In record
          (snd (@main_training beancount_interpolate beancount_flags true true
                  [lone_posting] [])).
Proof.
  split; [reflexivity|]. intros [record Hin]. exact Hin.
Qed.

(** * Further properties *)

(** ** increment_dict *)

(** X1. Lookup after [increment_dict]: the key holds its former value, or
    the zero when it was absent, plus the increment; every other key holds
    what it held; a present key keeps its place in the iteration order and
    an absent one goes last. *)
Theorem increment_dict_lookup {K V} `{HashableLaws K} (zero : V)
    (plus : V -> V -> V) (d : dict K V) (k : K) (inc : V) :
  dict_get (increment_dict zero plus d k inc) k
  = Some (plus (match dict_get d k with Some x => x | None => zero end) inc)
  /\ (forall k', k' <> k ->
                 dict_get (increment_dict zero plus d k inc) k' = dict_get d k')
  /\ keys (increment_dict zero plus d k inc)
     = (if dict_mem d k then keys d else keys d ++ [k]).
Proof.
  rewrite increment_dict_eq. split; [apply dict_get_set_same|]. split.
  - intros k' Hne. apply dict_get_set_other. congruence.
  - apply keys_dict_set.
Qed.

(** ** What training stores *)

Lemma pyval_eqb_iff a b : pyval_eqb a b = true <-> a = b.
Proof.
  change (pyval_eqb a b) with (keqb a b).
  destruct (keqb_spec a b); split; congruence.
Qed.

Lemma pyval_eqb_refl a : pyval_eqb a a = true.
Proof. now apply pyval_eqb_iff. Qed.

Lemma pyval_eqb_neq a b : a <> b -> pyval_eqb a b = false.
Proof.
  intros Hne. destruct (pyval_eqb a b) eqn:E; [|reflexivity].
  apply pyval_eqb_iff in E. contradiction.
Qed.

Lemma stored_count_add_item account_name (self : AccountGuess) item t acc :
  stored_count (add_item account_name self item) t acc =
  stored_count self t acc
  + (if pyval_eqb t item && String.eqb account_name acc then 1 else 0).
Proof.
  rewrite add_item_eq. unfold stored_count.
  destruct (keqb_spec item t) as [<-|Hne].
  - rewrite dict_get_set_same, pyval_eqb_refl, count_of_add. cbn [andb].
    destruct (dict_get self item); [reflexivity|]. reflexivity.
  - rewrite dict_get_set_other by assumption.
    rewrite pyval_eqb_neq by congruence. cbn [andb]. lia.
Qed.

Lemma occurrences_cons item x items :
  occurrences item (x :: items) =
  (if pyval_eqb item x then 1 else 0) + occurrences item items.
Proof.
  unfold occurrences. cbn [filter]. destruct (pyval_eqb item x); cbn [List.length]; lia.
Qed.

Lemma stored_count_fold account_name items :
  forall (self : AccountGuess) t acc,
    stored_count (fold_left (add_item account_name) items self) t acc =
    stored_count self t acc
    + (if String.eqb account_name acc then occurrences t items else 0).
Proof.
  induction items as [|item items IH]; intros self t acc; cbn [fold_left].
  - unfold occurrences. simpl. destruct (String.eqb account_name acc); lia.
  - rewrite IH, stored_count_add_item, occurrences_cons.
    destruct (pyval_eqb t item), (String.eqb account_name acc); cbn [andb]; lia.
Qed.

Section TrainedFacts.
Context `{Interpolate}.

Lemma stored_count_add_txn (self : AccountGuess) txn account_name t acc :
  stored_count (add_txn self txn account_name) t acc =
  stored_count self t acc
  + (if String.eqb account_name acc then occurrences t (item_gen txn) else 0).
Proof. apply stored_count_fold. Qed.

Lemma stored_count_history history :
  forall (self : AccountGuess) t acc,
    stored_count
      (fold_left (fun ag ta => add_txn ag (fst ta) (snd ta)) history self) t acc
    = stored_count self t acc + seen history t acc.
Proof.
  induction history as [|[txn a] history IH]; intros self t acc; cbn [fold_left seen].
  - lia.
  - rewrite IH. cbn [fst snd]. rewrite stored_count_add_txn. lia.
Qed.

(** X2. What the model stores after training: for every term and account,
    the count is the number of occurrences of the term in the transactions
    trained with that account, repeated terms counted as often as they occur;
    and every count that is stored is strictly positive. *)
Theorem trained_counts (history : list (Transaction * string))
    (item : pyval) (acc : string) :
  stored_count (trained history) item acc = seen history item acc
  /\ (forall guess_item c,
         dict_get (trained history) item = Some guess_item ->
         dict_get guess_item acc = Some c ->
         0 < c).
Proof.
  split.
  - unfold trained. rewrite stored_count_history. reflexivity.
  - intros gi c Hg Hc.
    destruct (items_recorded_trained history _ Hg) as (accs & _ & ->).
    pose proof (recorded_counts_positive accs) as Hpos.
    rewrite Forall_forall in Hpos. apply Hpos.
    apply dict_get_Some_In in Hc. unfold values.
    change c with (snd (acc, c)). now apply in_map.
Qed.
End TrainedFacts.

Lemma increment_dict_lookup_witness :
  dict_get (increment_dict 0 Z.add [("Expenses:Coffee", 3)] "Expenses:Dining" 1)
    "Expenses:Coffee" = Some 3.
Proof.
  rewrite (proj1 (proj2 (increment_dict_lookup 0 Z.add
                           [("Expenses:Coffee", 3)] "Expenses:Dining" 1))).
  - reflexivity.
  - discriminate.
Defined.

Lemma trained_counts_witness :
  stored_count (@trained beancount_interpolate starbucks_history)
    (PStr "STARBUCKS") "Expenses:Coffee" = 3
  /\ forall c,
      dict_get (recorded ["Expenses:Coffee"; "Expenses:Dining";
                          "Expenses:Coffee"; "Expenses:Coffee"])
        "Expenses:Dining" = Some c -> 0 < c.
Proof.
  destruct (@trained_counts beancount_interpolate starbucks_history
              (PStr "STARBUCKS") "Expenses:Coffee") as [Hcount _].
  split; [rewrite Hcount; reflexivity|].
  intros c Hc.
  apply (proj2 (@trained_counts beancount_interpolate starbucks_history
                  (PStr "STARBUCKS") "Expenses:Dining")
           (recorded ["Expenses:Coffee"; "Expenses:Dining";
                      "Expenses:Coffee"; "Expenses:Coffee"]) c);
    [reflexivity | exact Hc].
Defined.

(** ** Weights and votes *)

(** Rounding keeps the order of the numbers of the unit interval. *)
Lemma round64_unit_monotone x y :
  (0 <= x)%Q -> (x <= y)%Q -> (y <= 1)%Q ->
  exists p q, round64 x = Finite p /\ round64 y = Finite q
              /\ (0 <= p)%Q /\ (p <= q)%Q /\ (q <= 1)%Q.
Proof.
  intros H0 Hxy H1.
  destruct (Qlt_le_dec 0 x) as [Hx|Hx].
  - destruct (@round64_unit x) as (p & Hp & Hpr & Hp0 & Hp1); [lra | lra |].
    destruct (@round64_unit y) as (q & Hq & Hqr & Hq0 & Hq1); [lra | lra |].
    exists p, q. repeat (split; [assumption|]). split; [|assumption].
    rewrite Hpr, Hqr. now apply round_pos_monotone.
  - assert (E : (x == 0)%Q) by lra. rewrite (round64_comp E).
    destruct (Qlt_le_dec 0 y) as [Hy|Hy].
    + destruct (@round64_unit y) as (q & Hq & Hqr & Hq0 & Hq1); [lra | lra |].
      exists 0%Q, q. split; [reflexivity|]. split; [exact Hq|]. lra.
    + assert (E' : (y == 0)%Q) by lra. rewrite (round64_comp E').
      exists 0%Q, 0%Q. split; [reflexivity|]. split; [reflexivity|]. lra.
Qed.

Lemma share_sq_monotone t c1 c2 :
  0 < c1 -> c1 <= c2 -> c2 <= t ->
  exists w1 w2,
    share_sq t c1 = Finite w1 /\ share_sq t c2 = Finite w2 /\ (w1 <= w2)%Q.
Proof.
  intros H1 H12 H2t. unfold share_sq.
  assert (HT : (0 < inject_Z t)%Q) by (apply inject_Z_pos; lia).
  destruct (@share_unit t c1) as [Ha _]; [lia | lia |].
  destruct (@share_unit t c2) as [_ Hb]; [lia | lia |].
  assert (Hab : (inject_Z c1 / inject_Z t <= inject_Z c2 / inject_Z t)%Q).
  { apply Qdiv_le_compat; [exact HT|]. now rewrite <- Zle_Qle. }
  destruct (round64_unit_monotone (Qlt_le_weak _ _ Ha) Hab Hb)
    as (p & q & -> & -> & Hp0 & Hpq & Hq1).
  cbn [fmul].
  destruct (@round64_unit_monotone (p * p) (q * q)) as (w1 & w2 & Hw1 & Hw2 & _ & Hw & _);
    [nra | nra | nra |].
  exists w1, w2. auto.
Qed.

(** X3. Within one item the weights follow the counts: of two recorded
    accounts, the one recorded at most as often as the other has a weight
    that is at most the other's. *)
Theorem weights_ordered_as_counts (accounts : list string) (a b : string) :
  In a accounts -> In b accounts ->
  (count_occ string_dec accounts a <= count_occ string_dec accounts b)%nat ->
  exists wa wb,
    get_weight (recorded accounts) a = Ok (Finite wa)
    /\ get_weight (recorded accounts) b = Ok (Finite wb)
    /\ (wa <= wb)%Q.
Proof.
  intros Ha Hb Hab.
  rewrite (get_weight_recorded _ _ Ha), (get_weight_recorded _ _ Hb).
  destruct (@share_sq_monotone (Z.of_nat (List.length accounts))
              (Z.of_nat (count_occ string_dec accounts a))
              (Z.of_nat (count_occ string_dec accounts b)))
    as (wa & wb & -> & -> & Hle).
  - apply (count_occ_In string_dec) in Ha. lia.
  - lia.
  - pose proof (count_occ_le_length accounts b). lia.
  - exists wa, wb. auto.
Qed.

Lemma weights_ordered_as_counts_witness :
  exists wa wb,
    get_weight (recorded ["Expenses:Coffee"; "Expenses:Dining"; "Expenses:Coffee"])
      "Expenses:Dining" = Ok (Finite wa)
    /\ get_weight (recorded ["Expenses:Coffee"; "Expenses:Dining"; "Expenses:Coffee"])
         "Expenses:Coffee" = Ok (Finite wb)
    /\ (wa <= wb)%Q.
Proof.
  apply (@weights_ordered_as_counts
           ["Expenses:Coffee"; "Expenses:Dining"; "Expenses:Coffee"]
           "Expenses:Dining" "Expenses:Coffee").
  - simpl. auto.
  - simpl. auto.
  - simpl. lia.
Defined.

(** ** Terms without a length *)

Lemma cast_vote_type_error item (item_dict : dict string float) votes :
  has_len item = false ->
  item_dict <> [] ->
  for_each (cast_vote item) item_dict votes = Raise TypeError.
Proof.
  intros Hs Hne. destruct item_dict as [|kv rest]; [congruence|].
  cbn [for_each]. unfold cast_vote at 1.
  destruct item as [s|b|n|n k]; [discriminate | reflexivity | reflexivity | discriminate].
Qed.

Lemma get_recorded accounts :
  accounts <> [] ->
  exists item_dict,
    get (recorded accounts) = Ok item_dict
    /\ keys item_dict = keys (recorded accounts)
    /\ item_dict <> [].
Proof.
  intros Hne. rewrite get_recorded_shares.
  eexists. split; [reflexivity|]. split.
  - unfold keys. rewrite map_map. reflexivity.
  - intros E. apply (f_equal (@List.length _)) in E. rewrite length_map in E.
    assert (Hk : In (hd "" accounts) (keys (recorded accounts))).
    { apply In_keys_recorded. destruct accounts; [congruence | now left]. }
    unfold keys in Hk. destruct (recorded accounts); [destruct Hk | discriminate].
Qed.

Lemma tally_type_error self items :
  items_recorded self ->
  (exists item, In item items /\ dict_mem self item = true
                /\ has_len item = false) ->
  forall votes, for_each (tally_item self) items votes = Raise TypeError.
Proof.
  intros Hrec. induction items as [|item items IH]; intros (bad & Hin & Hmem & Hs) votes.
  - destruct Hin.
  - cbn [for_each]. destruct (dict_get self item) as [gi|] eqn:Hg.
    + destruct (Hrec _ _ Hg) as (accs & Hne & ->).
      destruct (has_len item) eqn:Hstr.
      * destruct (@tally_item_recorded self item votes accs Hstr Hg)
          as (v1 & H1 & _). rewrite H1. cbn [bind]. apply IH.
        exists bad. destruct Hin as [<-|Hin]; [congruence | auto].
      * unfold tally_item at 1. rewrite Hg.
        destruct (get_recorded Hne) as (item_dict & Hget & _ & Hd).
        rewrite Hget. cbn [bind].
        now rewrite (cast_vote_type_error _ votes Hstr Hd).
    + unfold tally_item at 1. rewrite Hg. cbn [bind]. apply IH.
      exists bad. destruct Hin as [<-|Hin]; [|auto].
      unfold dict_mem in Hmem. now rewrite Hg in Hmem.
Qed.

Section GuessFacts.
Context `{Interpolate}.

End GuessFacts.


(** ** The choice among equal votes *)

(** [max] keeps the first of the elements with the greatest key, when no
    key is negative or a NaN. *)
Lemma max_from_first {A} (key : A -> float) xs :
  forall pre best mid,
    (forall x, In x (pre ++ best :: mid ++ xs) -> nonneg (key x) = true) ->
    (forall x, In x pre -> flt (key x) (key best) = true) ->
    (forall x, In x mid -> flt (key best) (key x) = false) ->
    exists pre' post',
      pre ++ best :: mid ++ xs = pre' ++ max_from key best xs :: post'
      /\ (forall x, In x pre' -> flt (key x) (key (max_from key best xs)) = true)
      /\ (forall x, In x post' ->
                    flt (key (max_from key best xs)) (key x) = false).
Proof.
  induction xs as [|y xs IH]; intros pre best mid Hall Hpre Hmid.
  - exists pre, mid. cbn [max_from]. rewrite app_nil_r. auto.
  - cbn [max_from]. destruct (flt (key best) (key y)) eqn:E.
    + destruct (IH (pre ++ best :: mid) y []) as (pre' & post' & Heq & H1 & H2).
      * intros x Hx. apply Hall. rewrite <- !app_assoc in Hx. exact Hx.
      * intros x Hx. apply in_app_iff in Hx. destruct Hx as [Hx|[<-|Hx]].
        -- eapply flt_trans; [apply Hpre; exact Hx | exact E].
        -- exact E.
        -- apply (@flt_le_lt (key x) (key best) (key y)); [|auto|exact E].
           apply Hall. apply in_app_iff. right. right.
           apply in_app_iff. now left.
      * intros x [].
      * exists pre', post'. split; [|auto].
        rewrite <- Heq. rewrite <- !app_assoc. reflexivity.
    + destruct (IH pre best (mid ++ [y])) as (pre' & post' & Heq & H1 & H2).
      * intros x Hx. apply Hall. rewrite <- !app_assoc in Hx. exact Hx.
      * exact Hpre.
      * intros x Hx. apply in_app_iff in Hx. destruct Hx as [Hx|[<-|[]]]; auto.
      * exists pre', post'. split; [|auto].
        rewrite <- Heq. rewrite <- !app_assoc. reflexivity.
Qed.

Lemma py_len_nonneg item n : py_len item = Ok n -> 0 <= n.
Proof. destruct item; cbn [py_len]; intros [= <-] || discriminate; lia. Qed.

Lemma round_pos_2_1023 : (round_pos (pow2 1023) == pow2 1023)%Q.
Proof. vm_compute. reflexivity. Qed.

(** The float of a length. *)
Lemma float_of_int_finite n :
  0 <= n -> n < 2 ^ 1023 ->
  exists q, float_of_int n = Finite q /\ (0 <= q)%Q.
Proof.
  intros H0 Hn. unfold float_of_int.
  destruct (Z.eq_dec n 0) as [->|Hne].
  - exists 0%Q. split; [reflexivity | lra].
  - assert (Hpos : (0 < inject_Z n)%Q) by (apply inject_Z_pos; lia).
    assert (Hle : (inject_Z n <= pow2 1023)%Q).
    { rewrite pow2_Z by lia. rewrite <- Zle_Qle. lia. }
    pose proof (round_pos_monotone Hpos Hle) as Hm. rewrite round_pos_2_1023 in Hm.
    exists (Qred (round_pos (inject_Z n))). split.
    + apply round64_pos; [exact Hpos|].
      eapply Qle_lt_trans; [exact Hm|]. reflexivity.
    + rewrite Qred_correct. now apply round_pos_nonneg.
Qed.

(** What a term adds keeps a vote from being negative or a NaN. *)
Lemma add_vote_nonneg self acc vote item :
  items_recorded self ->
  (forall n, py_len item = Ok n -> n < 2 ^ 1023) ->
  nonneg vote = true ->
  nonneg (add_vote self acc vote item) = true.
Proof.
  intros Hrec Hlen Hv. unfold add_vote.
  destruct (dict_get self item) as [gi|] eqn:Hg; [|exact Hv].
  destruct (dict_get gi acc) as [c|] eqn:Hc; [|exact Hv].
  destruct (py_len item) as [n|e] eqn:Hn; [|exact Hv].
  destruct (Hrec _ _ Hg) as (accs & _ & ->).
  assert (Hin : In c (values (recorded accs))).
  { apply dict_get_Some_In in Hc. unfold values.
    change c with (snd (acc, c)). now apply in_map. }
  pose proof (recorded_counts_positive accs) as Hpos.
  assert (Hc0 : 0 < c) by (rewrite Forall_forall in Hpos; now apply Hpos).
  pose proof (@member_le_sumZ _ _ Hpos Hin) as Hct.
  destruct (share_sq_unit Hc0 Hct) as (w & -> & Hw0 & _).
  destruct (@float_of_int_finite n) as (q & -> & Hq0);
    [eapply py_len_nonneg; eassumption | now apply Hlen |].
  apply fadd_nonneg; [exact Hv|]. now apply fmul_finite_nonneg.
Qed.

Lemma vote_of_nonneg self items acc :
  items_recorded self ->
  (forall item n, In item items -> py_len item = Ok n -> n < 2 ^ 1023) ->
  nonneg (vote_of self items acc) = true.
Proof.
  intros Hrec. unfold vote_of.
  assert (H0 : nonneg (Finite 0) = true) by reflexivity.
  revert H0. generalize (Finite 0).
  induction items as [|item items IH]; intros v Hv Hlen; cbn [fold_left].
  - exact Hv.
  - apply IH.
    + apply add_vote_nonneg; [exact Hrec | | exact Hv].
      intros n. apply Hlen. now left.
    + intros i n Hi. apply Hlen. now right.
Qed.

Section ChoiceFacts.
Context `{Interpolate}.

(** The tally of a transaction whose terms with an item have a length. *)
Lemma tally_votes (history : list (Transaction * string)) (txn : Transaction) :
  (forall item, In item (item_gen txn) ->
                dict_mem (trained history) item = true -> has_len item = true) ->
  exists votes,
    tally (trained history) txn = Ok votes
    /\ (forall acc,
           In acc (keys votes) <->
           exists item guess_item,
             In item (item_gen txn)
             /\ dict_get (trained history) item = Some guess_item
             /\ In acc (keys guess_item))
    /\ (forall acc,
           votes_get votes acc = vote_of (trained history) (item_gen txn) acc).
Proof.
  intros Hlen. apply Forall_forall in Hlen.
  destruct (@tally_loop _ _ (items_recorded_trained history) Hlen [])
    as (votes & Hrun & Hk & Hv).
  exists votes. split; [exact Hrun|]. split.
  - intros acc. rewrite Hk. simpl. tauto.
  - intros acc. rewrite Hv. reflexivity.
Qed.

(** When the tally returns, the terms with an item have a length. *)
Lemma tally_returns (history : list (Transaction * string)) (txn : Transaction)
    votes :
  tally (trained history) txn = Ok votes ->
  forall item, In item (item_gen txn) ->
               dict_mem (trained history) item = true -> has_len item = true.
Proof.
  intros Hrun item Hin Hmem. destruct (has_len item) eqn:Hl; [reflexivity|].
  unfold tally in Hrun.
  rewrite (@tally_type_error _ _ (items_recorded_trained history)) in Hrun;
    [discriminate|].
  exists item. auto.
Qed.

(** X5. The account [get_account] returns. After any training history, for
    a transaction whose terms are shorter than [2 ** 1023] (a length is at
    most [sys.maxsize]), whenever [get_account] returns an account: the
    tally holds, for each account, the float sum over the terms, in their
    order, of weight times term length; the accounts that come before the
    returned one in the tally have strictly smaller votes, and those after
    it have votes that are not greater. So the returned account has a
    greatest vote, as binary64 arithmetic accumulates the votes, and is the
    first such account. *)
Theorem get_account_first_maximum (history : list (Transaction * string))
    (txn : Transaction) (best : string) :
  (forall item n, In item (item_gen txn) -> py_len item = Ok n -> n < 2 ^ 1023) ->
  get_account (trained history) txn = Ok (Some best) ->
  exists votes before after,
    tally (trained history) txn = Ok votes
    /\ (forall acc,
           votes_get votes acc = vote_of (trained history) (item_gen txn) acc)
    /\ keys votes = before ++ best :: after
    /\ (forall acc, In acc before ->
                    flt (votes_get votes acc) (votes_get votes best) = true)
    /\ (forall acc, In acc after ->
                    flt (votes_get votes best) (votes_get votes acc) = false).
Proof.
  intros Hshort. unfold get_account.
  destruct (tally (trained history) txn) as [votes|e] eqn:Hrun; [|discriminate].
  cbn [bind]. destruct (keys votes) as [|acc accs] eqn:Ek; [discriminate|].
  intros [= <-].
  destruct (tally_votes history txn (tally_returns _ _ Hrun))
    as (votes' & Hrun' & _ & Hv).
  rewrite Hrun in Hrun'. injection Hrun' as <-.
  destruct (@max_from_first _ (votes_get votes) accs [] acc [])
    as (pre & post & Heq & Hpre & Hpost).
  - intros x _. rewrite Hv.
    apply vote_of_nonneg; [apply items_recorded_trained | exact Hshort].
  - intros x [].
  - intros x [].
  - exists votes, pre, post. split; [reflexivity|]. split; [exact Hv|].
    split; [rewrite Ek; exact Heq|]. split; assumption.
Qed.

(** X6. A guess all evidence agrees on: after any training history, when
    the terms of a transaction that have an item are strings, at least one
    term has an item, and those items know no account but one, that
    account is the guess. *)
Theorem get_account_unanimous (history : list (Transaction * string))
    (txn : Transaction) (account_name : string) :
  (forall item, In item (item_gen txn) ->
                dict_mem (trained history) item = true -> is_str item = true) ->
  (exists item, In item (item_gen txn) /\ dict_mem (trained history) item = true) ->
  (forall item guess_item acc,
      In item (item_gen txn) ->
      dict_get (trained history) item = Some guess_item ->
      In acc (keys guess_item) -> acc = account_name) ->
  get_account (trained history) txn = Ok (Some account_name).
Proof.
  intros Hstr (item & Hin & Hmem) Hone.
  pose proof (items_recorded_trained history) as Hrec.
  destruct (@tally_votes history txn) as (votes & Hrun & Hk & _).
  { intros i Hi Hm. apply is_str_has_len. now apply Hstr. }
  unfold get_account. rewrite Hrun. cbn [bind].
  assert (Hall : forall acc, In acc (keys votes) -> acc = account_name).
  { intros acc Hacc. apply Hk in Hacc. destruct Hacc as (i & g & Hi & Hg & Ha).
    eapply Hone; eassumption. }
  unfold dict_mem in Hmem.
  destruct (dict_get (trained history) item) as [gi|] eqn:Hg; [|discriminate].
  destruct (Hrec _ _ Hg) as (accs & Hne & ->).
  assert (Hkey : exists a, In a (keys votes)).
  { destruct accs as [|a accs]; [congruence|]. exists a. apply Hk.
    exists item, (recorded (a :: accs)). repeat split; try assumption.
    apply In_keys_recorded. now left. }
  destruct (keys votes) as [|k ks] eqn:Ek; [destruct Hkey as [a []]|].
  pose proof (max_from_In (votes_get votes) ks k) as Hbest.
  do 2 f_equal. apply Hall. exact Hbest.
Qed.
End ChoiceFacts.

Lemma get_account_first_maximum_witness :
  exists votes before after,
    @tally beancount_interpolate
      (@trained beancount_interpolate starbucks_history) (starbucks "") = Ok votes
    /\ keys votes = before ++ "Expenses:Coffee" :: after
    /\ (forall acc, In acc before ->
                    flt (votes_get votes acc) (votes_get votes "Expenses:Coffee")
                    = true)
    /\ (forall acc, In acc after ->
                    flt (votes_get votes "Expenses:Coffee") (votes_get votes acc)
                    = false).
Proof.
  destruct (@get_account_first_maximum beancount_interpolate
              starbucks_history (starbucks "") "Expenses:Coffee")
    as (votes & before & after & Hrun & _ & Hrest).
  - intros item n [<-|[]] [= <-]. reflexivity.
  - vm_compute. reflexivity.
  - exists votes, before, after. split; [exact Hrun | exact Hrest].
Defined.

Lemma get_account_unanimous_witness :
  @get_account beancount_interpolate
    (@trained beancount_interpolate
       [(starbucks "Expenses:Coffee", "Expenses:Coffee")])
    (starbucks "")
  = Ok (Some "Expenses:Coffee").
Proof.
  apply (@get_account_unanimous beancount_interpolate
           [(starbucks "Expenses:Coffee", "Expenses:Coffee")] (starbucks "")
           "Expenses:Coffee").
  - intros item [<-|[]] _. reflexivity.
  - exists (PStr "STARBUCKS"). split; [now left | reflexivity].
  - intros item gi acc [<-|[]] [= <-] [<-|[]]. reflexivity.
Defined.

(** ** Resolving an account name *)

Lemma list_index_absent l x : ~ In x l -> list_index l x = Raise ValueError.
Proof.
  induction l as [|y l IH]; intros Hni; cbn [list_index]; [reflexivity|].
  destruct (String.eqb_spec y x) as [->|Hne].
  - exfalso. apply Hni. now left.
  - rewrite IH; [reflexivity|]. intros Hi. apply Hni. now right.
Qed.

Lemma In_keys_no_root (items : dict string node) part :
  In part (keys (filter (fun kv => negb (String.eqb (fst kv) ROOT)) items)) ->
  String.eqb part ROOT = false /\ exists child, dict_get items part = Some child.
Proof.
  intros Hin. unfold keys in Hin. apply in_map_iff in Hin.
  destruct Hin as [[k v] [Hk Hin]]. cbn [fst] in Hk. subst k.
  apply filter_In in Hin. destruct Hin as [Hin Hroot]. cbn [fst] in Hroot.
  apply negb_true_iff in Hroot. split; [exact Hroot|].
  destruct (dict_get items part) as [c|] eqn:E; [eauto|].
  apply dict_get_None in E. exfalso. apply E.
  change part with (fst (part, v)). apply in_map. exact Hin.
Qed.

Lemma set_loop_missing parts :
  forall nest_dict sel,
    wf_node nest_dict = true ->
    path_exists nest_dict parts = false ->
    for_each set_account_step parts (sel, nest_dict) = Raise ValueError.
Proof.
  induction parts as [|part parts IH]; intros nest_dict sel Hwf Hp.
  - discriminate.
  - destruct nest_dict as [b|items]; [discriminate|].
    cbn [for_each]. unfold set_account_step at 1. cbn [no_root bind].
    destruct (list_index _ part) as [idx|e] eqn:Hi.
    + destruct (list_index_nth _ _ Hi) as [H0 Hn].
      apply nth_error_In in Hn. apply In_keys_no_root in Hn.
      destruct Hn as [Hroot [child Hg]].
      cbn [path_exists] in Hp. rewrite Hroot, Hg in Hp. cbn [negb andb] in Hp.
      cbn [bind subscript]. unfold dict_item. rewrite Hg. cbn [bind].
      apply IH; [|exact Hp].
      apply (@wf_node_child items _ child Hwf eq_refl).
      assert (Hf : dict_get (filter (fun kv => negb (String.eqb (fst kv) ROOT)) items)
                     part = Some child)
        by (rewrite dict_get_no_root; assumption).
      apply dict_get_Some_In in Hf. unfold values.
      change child with (snd (part, child)). now apply in_map.
    + assert (Hni : ~ In part
                      (keys (filter (fun kv => negb (String.eqb (fst kv) ROOT)) items))).
      { intros Hin. destruct (list_index_In _ _ Hin) as [i Hi']. congruence. }
      rewrite (list_index_absent _ _ Hni) in Hi. injection Hi as <-. reflexivity.
Qed.

(** X7. A name that is no path of the accounts dictionary: on a well-formed
    dictionary [set_account] raises [ValueError] for every account name
    some part of which is missing at its level. *)
Theorem set_account_missing_path (self : AccountSelector) (P : string) :
  wf_node (NDict (accounts_dict self)) = true ->
  path_exists (NDict (accounts_dict self)) (split_on ":" P) = false ->
  set_account self P = Raise ValueError.
Proof.
  intros Hwf Hp. unfold set_account.
  now rewrite (set_loop_missing _ _ [] Hwf Hp).
Qed.

Lemma set_account_missing_path_witness :
  set_account (reset toys_accounts) "Expenses:Books" = Raise ValueError.
Proof.
  apply set_account_missing_path; reflexivity.
Defined.

Lemma split_on_not_nil sep s : split_on sep s <> [].
Proof.
  destruct s as [|c s]; cbn [split_on]; [discriminate|].
  destruct (Ascii.eqb c sep); [discriminate|].
  destruct (split_on sep s); discriminate.
Qed.

(** The cursor [set_account] builds: valid, one index per part, and leading
    to the node the parts name. *)
Lemma set_loop_valid parts :
  forall nest_dict sel,
    path_exists nest_dict parts = true ->
    exists sel' child,
      for_each set_account_step parts (sel, nest_dict) = Ok (sel ++ sel', child)
      /\ valid_path nest_dict sel' = true
      /\ List.length sel' = List.length parts
      /\ for_each nested_step sel' nest_dict = Ok child
      /\ node_at nest_dict parts = Ok child.
Proof.
  induction parts as [|part parts IH]; intros nest_dict sel Hp.
  - exists [], nest_dict. rewrite app_nil_r. repeat split; reflexivity.
  - cbn [path_exists] in Hp. destruct nest_dict as [b|items]; [discriminate|].
    apply andb_true_iff in Hp. destruct Hp as [Hroot Hp].
    apply negb_true_iff in Hroot.
    destruct (dict_get items part) as [child|] eqn:Hg; [|discriminate].
    pose proof (dict_get_no_root items part Hroot) as Hf. rewrite Hg in Hf.
    destruct (list_index_dict_get _ _ Hf) as (i & Hi & H0 & Hk & Hv).
    assert (Hs : set_account_step (sel, NDict items) part = Ok (sel ++ [i], child)).
    { unfold set_account_step. cbn [no_root bind].
      rewrite Hi. cbn [bind subscript]. unfold dict_item. now rewrite Hg. }
    destruct (IH child (sel ++ [i]) Hp) as (sel' & last & Hset & Hvalid & Hlen & Hnest & Hat).
    exists (i :: sel'), last. split; [|split; [|split; [|split]]].
    + cbn [for_each]. rewrite Hs. cbn [bind]. rewrite Hset. now rewrite <- app_assoc.
    + cbn [valid_path no_root]. rewrite Hv, Hvalid.
      assert (Hlt : (Z.to_nat i < List.length (values
                 (filter (fun kv => negb (String.eqb (fst kv) ROOT)) items)))%nat).
      { apply nth_error_Some. congruence. }
      unfold values in Hlt. rewrite length_map in Hlt.
      apply andb_true_iff. split; [|reflexivity]. lia.
    + cbn [List.length]. now rewrite Hlen.
    + cbn [for_each]. rewrite (@nested_step_valid (NDict items) i _ child eq_refl H0 Hv).
      exact Hnest.
    + unfold node_at. cbn [for_each subscript]. unfold dict_item. rewrite Hg.
      exact Hat.
Qed.

(** X8. The cursor of a resolved name: for an account name that is a path
    of the accounts dictionary, [set_account] leaves a valid cursor with one
    index for each part of the name, and [get_nested_dict] then returns the
    node the name leads to by subscripting. *)
Theorem set_account_cursor (self : AccountSelector) (P : string) :
  path_exists (NDict (accounts_dict self)) (split_on ":" P) = true ->
  exists self' target,
    set_account self P = Ok self'
    /\ valid_cursor self' = true
    /\ List.length (selected self') = List.length (split_on ":" P)
    /\ node_at (NDict (accounts_dict self)) (split_on ":" P) = Ok target
    /\ get_nested_dict self' = Ok target.
Proof.
  intros Hp.
  destruct (set_loop_valid _ _ [] Hp) as (sel' & child & Hset & Hvalid & Hlen & Hnest & Hat).
  exists (mkSelector (accounts_dict self) sel'), child.
  split; [|split; [|split; [|split]]].
  - unfold set_account. now rewrite Hset.
  - unfold valid_cursor. cbn [selected accounts_dict]. rewrite Hvalid, Hlen.
    pose proof (@split_on_not_nil ":" P) as Hne.
    destruct (split_on ":" P); [congruence | cbn [List.length]].
    apply andb_true_iff. split; [lia | reflexivity].
  - exact Hlen.
  - exact Hat.
  - exact Hnest.
Qed.

Lemma set_account_cursor_witness :
  exists self',
    set_account (reset toys_accounts) "Assets:Cash" = Ok self'
    /\ valid_cursor self' = true
    /\ get_nested_dict self' = Ok (NDict [(ROOT, NBool true)]).
Proof.
  destruct (@set_account_cursor (reset toys_accounts) "Assets:Cash" eq_refl)
    as (self' & target & Hset & Hvalid & _ & Hat & Hnest).
  injection Hat as <-.
  exists self'. auto.
Defined.

(** ** From the cursor to the name and back *)

Lemma distinct_NoDup l : distinct l = true -> NoDup l.
Proof.
  induction l as [|x l IH]; cbn [distinct]; [constructor|].
  intros Hd. apply andb_true_iff in Hd. destruct Hd as [Hx Hl].
  constructor; [|now apply IH].
  intros Hin. apply negb_true_iff in Hx.
  assert (Ht : existsb (String.eqb x) l = true).
  { apply existsb_exists. exists x. split; [exact Hin | apply String.eqb_refl]. }
  congruence.
Qed.

Lemma NoDup_keys_filter {V} (p : string * V -> bool) (d : dict string V) :
  NoDup (keys d) -> NoDup (keys (filter p d)).
Proof.
  unfold keys. induction d as [|[k v] d IH]; cbn [map filter fst]; [auto|].
  intros Hnd. inversion Hnd as [|? ? Hni Hnd']; subst.
  destruct (p (k, v)); [|now apply IH].
  cbn [map fst]. constructor; [|now apply IH].
  intros Hin. apply Hni. apply in_map_iff in Hin.
  destruct Hin as [kv [Hk Hin]]. apply filter_In in Hin.
  apply in_map_iff. exists kv. tauto.
Qed.

Lemma list_index_NoDup l i x :
  NoDup l -> nth_error l i = Some x -> list_index l x = Ok (Z.of_nat i).
Proof.
  revert i. induction l as [|y l IH]; intros i Hnd Hn; [now destruct i|].
  inversion Hnd as [|? ? Hni Hnd']; subst. cbn [list_index].
  destruct i as [|i]; cbn [nth_error] in Hn.
  - injection Hn as ->. now rewrite String.eqb_refl.
  - destruct (String.eqb_spec y x) as [->|Hne].
    + exfalso. apply Hni. eapply nth_error_In; eassumption.
    + rewrite (IH i Hnd' Hn). cbn [bind]. f_equal. lia.
Qed.

Lemma nth_error_keys_values {V} (d : dict string V) i k v :
  nth_error (keys d) i = Some k ->
  nth_error (values d) i = Some v ->
  In (k, v) d.
Proof.
  unfold keys, values. revert i. induction d as [|[k' v'] d IH]; intros i Hk Hv.
  - now destruct i.
  - destruct i as [|i]; cbn [map nth_error fst snd] in *.
    + injection Hk as ->. injection Hv as ->. now left.
    + right. eapply IH; eassumption.
Qed.

Lemma split_on_colon_free s : colon_free s = true -> split_on ":" s = [s].
Proof.
  induction s as [|c s IH]; cbn [colon_free split_on]; [reflexivity|].
  intros Hc. apply andb_true_iff in Hc. destruct Hc as [Hc Hs].
  apply negb_true_iff in Hc. rewrite Hc, (IH Hs). reflexivity.
Qed.

Lemma split_on_append s t :
  colon_free s = true ->
  split_on ":" (s ++ ":" ++ t) = s :: split_on ":" t.
Proof.
  induction s as [|c s IH]; cbn [colon_free].
  - intros _. reflexivity.
  - intros Hc. apply andb_true_iff in Hc. destruct Hc as [Hc Hs].
    apply negb_true_iff in Hc.
    change ((String c s ++ ":" ++ t)%string) with (String c (s ++ ":" ++ t)%string).
    cbn [split_on]. rewrite Hc, (IH Hs). reflexivity.
Qed.

(** Splitting undoes joining when no part holds the separator. *)
Lemma split_on_join names :
  names <> [] ->
  Forall (fun n => colon_free n = true) names ->
  split_on ":" (join ":" names) = names.
Proof.
  induction names as [|n names IH]; [congruence|].
  intros _ Hall. inversion Hall as [|? ? Hn Hrest]; subst.
  destruct names as [|m names].
  - cbn [join]. now apply split_on_colon_free.
  - change (join ":" (n :: m :: names))
      with ((n ++ ":" ++ join ":" (m :: names))%string).
    rewrite split_on_append by assumption. f_equal. apply IH; [discriminate | exact Hrest].
Qed.


Lemma tidy_node_entry items k v :
  tidy_node (NDict items) = true ->
  In (k, v) (filter (fun kv => negb (String.eqb (fst kv) ROOT)) items) ->
  colon_free k = true /\ tidy_node v = true.
Proof.
  cbn [tidy_node]. intros Ht Hin. apply andb_true_iff in Ht. destruct Ht as [_ Ht].
  apply filter_In in Hin. destruct Hin as [Hin Hk]. cbn [fst] in Hk.
  rewrite forallb_forall in Ht. specialize (Ht _ Hin). cbn [fst snd] in Ht.
  apply negb_true_iff in Hk. rewrite Hk in Ht. cbn [orb] in Ht.
  now apply andb_true_iff in Ht.
Qed.

Lemma get_then_set_loop selected :
  forall nest_dict names0,
    tidy_node nest_dict = true ->
    valid_path nest_dict selected = true ->
    exists names child,
      for_each get_account_step selected (names0, nest_dict)
      = Ok (names0 ++ names, child)
      /\ Forall (fun n => colon_free n = true) names
      /\ List.length names = List.length selected
      /\ path_exists nest_dict names = true
      /\ forall sel0,
          for_each set_account_step names (sel0, nest_dict)
          = Ok (sel0 ++ selected, child).
Proof.
  induction selected as [|idx rest IH]; intros nest_dict names0 Htidy Hv.
  - exists [], nest_dict. rewrite app_nil_r. repeat split; try reflexivity; auto.
    intros sel0. now rewrite app_nil_r.
  - cbn [valid_path] in Hv. destruct nest_dict as [b|items]; [discriminate|].
    cbn [no_root] in Hv. set (d := filter _ items) in *.
    apply andb_true_iff in Hv. destruct Hv as [Hb Hv].
    destruct (nth_error (values d) (Z.to_nat idx)) as [child|] eqn:Hc; [|discriminate].
    assert (H0 : 0 <= idx) by lia.
    destruct (nth_error (keys d) (Z.to_nat idx)) as [name|] eqn:Hk.
    2:{ apply nth_error_None in Hk. unfold keys in Hk. rewrite length_map in Hk. lia. }
    pose proof (nth_error_keys_values _ _ Hk Hc) as Hin.
    destruct (@tidy_node_entry items name child Htidy Hin) as [Hfree Hchild].
    assert (Hnd : NoDup (keys items)).
    { cbn [tidy_node] in Htidy. apply andb_true_iff in Htidy.
      apply distinct_NoDup. tauto. }
    assert (Hroot : String.eqb name ROOT = false).
    { apply filter_In in Hin. destruct Hin as [_ Hr]. now apply negb_true_iff in Hr. }
    assert (Hg : dict_get items name = Some child).
    { apply In_dict_get; [exact Hnd|]. apply filter_In in Hin. tauto. }
    destruct (IH child (names0 ++ [name]) Hchild Hv)
      as (names & last & Hget & Hall & Hlen & Hpath & Hset).
    exists (name :: names), last. split; [|split; [|split; [|split]]].
    + cbn [for_each]. unfold get_account_step at 1. cbn [no_root bind]. fold d.
      rewrite (py_index_nth _ H0 Hk). cbn [bind].
      rewrite (py_index_nth _ H0 Hc). cbn [bind].
      rewrite Hget. now rewrite <- app_assoc.
    + constructor; assumption.
    + cbn [List.length]. now rewrite Hlen.
    + cbn [path_exists]. now rewrite Hroot, Hg.
    + intros sel0. cbn [for_each]. unfold set_account_step at 1.
      cbn [no_root bind]. fold d.
      rewrite (@list_index_NoDup (keys d) (Z.to_nat idx) name
                 (NoDup_keys_filter _ _ Hnd) Hk).
      cbn [bind subscript]. unfold dict_item. rewrite Hg. cbn [bind].
      rewrite Z2Nat.id by exact H0. rewrite Hset. now rewrite <- app_assoc.
Qed.

(** X9. From the cursor to the name and back: in an accounts dictionary
    whose keys are distinct and free of the separator, reading [account] at
    a valid cursor gives a name that is a path of the dictionary, and
    [set_account] on that name restores the cursor. *)
Theorem account_then_set_account (self : AccountSelector) :
  tidy_node (NDict (accounts_dict self)) = true ->
  valid_cursor self = true ->
  exists name,
    _get_account self = Ok name
    /\ path_exists (NDict (accounts_dict self)) (split_on ":" name) = true
    /\ forall other : AccountSelector,
        accounts_dict other = accounts_dict self ->
        set_account other name = Ok self.
Proof.
  intros Htidy Hvalid. unfold valid_cursor in Hvalid.
  apply andb_true_iff in Hvalid. destruct Hvalid as [Hlen Hpath].
  destruct (get_then_set_loop _ _ [] Htidy Hpath)
    as (names & child & Hget & Hall & Hnames & Hexists & Hset).
  assert (Hne : names <> []).
  { intros ->. cbn [List.length] in Hnames. lia. }
  exists (join ":" names). split; [|split].
  - unfold _get_account. rewrite Hget. reflexivity.
  - now rewrite (split_on_join Hne Hall).
  - intros other Hsame. unfold set_account.
    rewrite (split_on_join Hne Hall), Hsame, Hset. cbn [bind fst app].
    now rewrite selector_eta.
Qed.

Lemma account_then_set_account_witness :
  exists name,
    _get_account (mkSelector toys_accounts [1; 0]) = Ok name
    /\ set_account (reset toys_accounts) name
       = Ok (mkSelector toys_accounts [1; 0]).
Proof.
  destruct (@account_then_set_account (mkSelector toys_accounts [1; 0])
              eq_refl eq_refl) as (name & Hget & _ & Hset).
  exists name. split; [exact Hget | apply Hset; reflexivity].
Defined.

(** ** Moves and their opposites *)

Lemma snoc_inj {A} (l : list A) x y : l ++ [x] = l ++ [y] -> x = y.
Proof. intros E. apply app_inv_head in E. now injection E. Qed.

(** X10. A move that changes the cursor is undone by the opposite move: at
    a valid cursor of a well-formed accounts dictionary, [prev_level] undoes
    a [next_level] that went down, [prev_account] undoes a [next_account]
    that moved, and [next_account] undoes a [prev_account] that moved. *)
Theorem moves_are_undone (self : AccountSelector) :
  wf_node (NDict (accounts_dict self)) = true ->
  valid_cursor self = true ->
  (forall self', next_level self = Ok self' -> self' <> self ->
                 prev_level self' = Ok self)
  /\ (forall self', next_account self = Ok self' -> self' <> self ->
                    prev_account self' = Ok self)
  /\ (forall self', prev_account self = Ok self' -> self' <> self ->
                    next_account self' = Ok self).
Proof.
  intros Hwf Hvalid. split; [|split].
  - intros self' Hrun Hmoved.
    destruct (next_level_valid self Hwf Hvalid) as (level & d & _ & _ & Hrun' & _).
    rewrite Hrun in Hrun'. injection Hrun' as ->.
    destruct d as [|kv d]; [congruence|].
    destruct (valid_cursor_inv _ Hvalid) as (pre & i & _ & _ & E & _).
    unfold prev_level. cbn [selected accounts_dict].
    rewrite length_app, removelast_last, E, length_app. cbn [List.length].
    replace (1 <? _) with true by lia.
    rewrite <- E. now rewrite selector_eta.
  - intros self' Hrun Hmoved.
    destruct (next_account_valid self Hvalid)
      as (pre & i & level & d & E & Hlevel & Hd & Hrun' & Hvalid').
    rewrite Hrun in Hrun'. injection Hrun' as ->.
    destruct (valid_cursor_inv _ Hvalid) as (pre0 & i0 & level0 & d0 & E0 & _ & Hl0 & Hd0 & Hi0).
    rewrite E in E0. apply app_inj_tail in E0. destruct E0 as [<- <-].
    rewrite Hlevel in Hl0. injection Hl0 as <-. rewrite Hd in Hd0. injection Hd0 as <-.
    assert (Hstep : Z.min (i + 1) (Z.of_nat (List.length d) - 1) = i + 1).
    { destruct (Z.eq_dec (Z.min (i + 1) (Z.of_nat (List.length d) - 1)) i) as [Heq|Hne];
        [|lia].
      exfalso. apply Hmoved. rewrite Heq, <- E. apply selector_eta. }
    rewrite Hstep in *.
    destruct (prev_account_valid _ Hvalid') as (pre1 & i1 & E1 & Hrun1 & _).
    cbn [selected accounts_dict] in E1. apply app_inj_tail in E1.
    destruct E1 as [<- <-]. rewrite Hrun1. cbn [accounts_dict].
    replace (Z.max (i + 1 - 1) 0) with i by lia.
    rewrite <- E. now rewrite selector_eta.
  - intros self' Hrun Hmoved.
    destruct (prev_account_valid self Hvalid) as (pre & i & E & Hrun' & Hvalid').
    rewrite Hrun in Hrun'. injection Hrun' as ->.
    destruct (valid_cursor_inv _ Hvalid) as (pre0 & i0 & level0 & d0 & E0 & _ & Hl0 & Hd0 & Hi0).
    rewrite E in E0. apply app_inj_tail in E0. destruct E0 as [<- <-].
    assert (Hstep : Z.max (i - 1) 0 = i - 1).
    { destruct (Z.eq_dec (Z.max (i - 1) 0) i) as [Heq|Hne]; [|lia].
      exfalso. apply Hmoved. rewrite Heq, <- E. apply selector_eta. }
    rewrite Hstep in *.
    destruct (next_account_valid _ Hvalid')
      as (pre1 & i1 & level1 & d1 & E1 & Hl1 & Hd1 & Hrun1 & _).
    cbn [selected accounts_dict] in E1. apply app_inj_tail in E1.
    destruct E1 as [<- <-].
    unfold _get_nested_dict_from_selected in Hl0, Hl1. cbn [accounts_dict] in Hl1.
    rewrite Hl0 in Hl1. injection Hl1 as <-. rewrite Hd0 in Hd1. injection Hd1 as <-.
    rewrite Hrun1. cbn [accounts_dict].
    replace (Z.min (i - 1 + 1) (Z.of_nat (List.length d0) - 1)) with i by lia.
    rewrite <- E. now rewrite selector_eta.
Qed.

Lemma moves_are_undone_witness :
  prev_level (mkSelector toys_accounts [1; 0]) = Ok (mkSelector toys_accounts [1])
  /\ prev_account (mkSelector toys_accounts [1]) = Ok (reset toys_accounts).
Proof.
  split.
  - apply (proj1 (@moves_are_undone (mkSelector toys_accounts [1])
                    eq_refl eq_refl)); [reflexivity | discriminate].
  - apply (proj1 (proj2 (@moves_are_undone (reset toys_accounts)
                           eq_refl eq_refl))); [reflexivity | discriminate].
Defined.

(** ** Keys of the review loop *)

Section KeyFacts.
Context `{Interpolate}.

(** The chain of key tests of the loop body, for a key that neither quits
    nor commits. *)
Lemma handle_key_dispatch (st : review) (keystr : string) :
  keystr <> "q" -> keystr <> "r" ->
  handle_key keystr st =
  match key_command keystr with
  | Some c =>
      sel <- navigate (account_selected st) c ;;
      Ok (Continue (mkReview sel (entry st) (ag st)))
  | None => Ok (Continue st)
  end.
Proof.
  intros Hq Hr. unfold handle_key, key_command.
  destruct (String.eqb_spec keystr "q") as [|_]; [contradiction|].
  destruct (String.eqb_spec keystr "w") as [->|_].
  { cbn [String.eqb Ascii.eqb Bool.eqb navigate].
    destruct (prev_account (account_selected st)); reflexivity. }
  destruct (String.eqb_spec keystr "s") as [->|_].
  { cbn [String.eqb Ascii.eqb Bool.eqb navigate bind].
    destruct (next_account (account_selected st)); reflexivity. }
  destruct (String.eqb_spec keystr "d") as [->|_].
  { cbn [String.eqb Ascii.eqb Bool.eqb navigate bind].
    destruct (next_level (account_selected st)); reflexivity. }
  destruct (String.eqb_spec keystr "a") as [->|_].
  { cbn [String.eqb Ascii.eqb Bool.eqb navigate bind].
    destruct (prev_level (account_selected st)) eqn:E; rewrite ?E; reflexivity. }
  destruct (String.eqb_spec keystr "r") as [|_]; [contradiction|].
  cbn [bind]. now destruct st.
Qed.

(** A pass on a key that neither quits nor commits, at a valid cursor. *)
Lemma handle_key_moves (st : review) (keystr : string) :
  wf_node (NDict (accounts_dict (account_selected st))) = true ->
  valid_cursor (account_selected st) = true ->
  keystr <> "q" -> keystr <> "r" ->
  exists sel,
    handle_key keystr st = Ok (Continue (mkReview sel (entry st) (ag st)))
    /\ accounts_dict sel = accounts_dict (account_selected st)
    /\ valid_cursor sel = true
    /\ match key_command keystr with
       | Some c => navigate (account_selected st) c = Ok sel
       | None => sel = account_selected st
       end.
Proof.
  intros Hwf Hvalid Hq Hr. rewrite (handle_key_dispatch st Hq Hr).
  destruct (key_command keystr) as [c|].
  - destruct (navigate_valid (account_selected st) c Hwf Hvalid)
      as (sel & Hnav & Hsame & Hvalid').
    exists sel. rewrite Hnav. cbn [bind]. auto.
  - exists (account_selected st). destruct st. cbn [account_selected entry ag].
    auto.
Qed.

(** X11. A key other than 'q' and 'r' never ends the loop and never
    raises: at a valid cursor of a well-formed accounts dictionary the pass
    returns, the loop goes on with the entry and the suggestion model
    untouched, and the cursor is still valid. For one of 'w', 's', 'd',
    'a' the selector is the one its navigation command gives; for any
    other key it is the same selector. *)
Theorem handle_key_navigates (st : review) (keystr : string) :
  wf_node (NDict (accounts_dict (account_selected st))) = true ->
  valid_cursor (account_selected st) = true ->
  keystr <> "q" -> keystr <> "r" ->
  exists sel,
    handle_key keystr st = Ok (Continue (mkReview sel (entry st) (ag st)))
    /\ accounts_dict sel = accounts_dict (account_selected st)
    /\ valid_cursor sel = true
    /\ match key_command keystr with
       | Some c => navigate (account_selected st) c = Ok sel
       | None => sel = account_selected st
       end.
Proof. apply handle_key_moves. Qed.

Lemma handle_key_commit (st : review) node b first second rest :
  get_nested_dict (account_selected st) = Ok node ->
  is_root node = Ok b ->
  postings (entry st) = first :: second :: rest ->
  exists account_name,
    _get_account (account_selected st) = Ok account_name
    /\ handle_key "r" st =
       if b then
         Ok (Break
               (mkReview (account_selected st)
                  (set_postings (entry st)
                     (first :: replace_account second account_name :: rest))
                  (add_txn (ag st)
                     (set_postings (entry st)
                        (first :: replace_account second account_name :: rest))
                     account_name))
               account_name)
       else Ok (Continue st).
Proof.
  intros Hnode Hroot Hps.
  destruct (get_nested_dict_account _ Hnode) as [account_name Hacc].
  exists account_name. split; [exact Hacc|].
  unfold handle_key. cbn [String.eqb Ascii.eqb Bool.eqb bind].
  rewrite Hnode. cbn [bind]. rewrite Hroot. cbn [bind]. destruct b.
  - rewrite Hacc. cbn [bind]. rewrite Hps, py_index_second. cbn [bind].
    now rewrite set_item_second.
  - now destruct st.
Qed.

Lemma is_root_wf node : wf_node node = true -> exists b, is_root node = Ok b.
Proof.
  destruct node as [b|items]; [discriminate|]. intros _. cbn [is_root].
  destruct (dict_get items ROOT); eauto.
Qed.

Section Drawn.
Variable draw_screen : Transaction -> AccountSelector -> result unit.

Lemma review_keys_unfold typed st :
  review_keys draw_screen typed st =
  (_ <- draw_screen (entry st) (account_selected st) ;;
   match typed with
   | [] => Ok (Continue st, [])
   | keystr :: rest =>
       o <- handle_key keystr st ;;
       match o with
       | Continue st' => review_keys draw_screen rest st'
       | Break st' account_name => Ok (Break st' account_name, rest)
       | Quit => Ok (Quit, rest)
       end
   end).
Proof. destruct typed; reflexivity. Qed.

(** When the loop with its drawing returns, the keys alone have decided
    the outcome: it is that of [review_loop]. *)
Lemma review_keys_review_loop (typed : list string) :
  forall (st : review) (o : outcome) (unread : list string),
    review_keys draw_screen typed st = Ok (o, unread) ->
    review_loop typed st = Ok o.
Proof.
  induction typed as [|keystr typed IH]; intros st o unread;
    rewrite review_keys_unfold;
    destruct (draw_screen (entry st) (account_selected st)) as [[]|exn];
    cbn [bind]; try discriminate.
  - now intros [= <- _].
  - cbn [review_loop].
    destruct (handle_key keystr st) as [[st'|st' name|]|exn]; cbn [bind];
      try discriminate.
    + apply IH.
    + now intros [= <- _].
    + now intros [= <- _].
Qed.

(** The loop of one entry: an exception is one the drawing raised; else
    the outcome is as the keys make it. *)
Lemma review_keys_outcomes (typed : list string) :
  forall (st : review) (first second : Posting) (rest : list Posting),
    wf_node (NDict (accounts_dict (account_selected st))) = true ->
    valid_cursor (account_selected st) = true ->
    postings (entry st) = first :: second :: rest ->
    match review_keys draw_screen typed st with
    | Raise exn =>
        exists account_selected,
          draw_screen (entry st) account_selected = Raise exn
    | Ok (Quit, _) => True
    | Ok (Continue st', unread) =>
        unread = []
        /\ entry st' = entry st
        /\ ag st' = ag st
        /\ accounts_dict (account_selected st')
           = accounts_dict (account_selected st)
        /\ valid_cursor (account_selected st') = true
    | Ok (Break st' account_name, _) =>
        accounts_dict (account_selected st')
        = accounts_dict (account_selected st)
        /\ valid_cursor (account_selected st') = true
        /\ _get_account (account_selected st') = Ok account_name
        /\ (exists node,
               get_nested_dict (account_selected st') = Ok node
               /\ is_root node = Ok true)
        /\ entry st'
           = set_postings (entry st)
               (first :: replace_account second account_name :: rest)
        /\ ag st' = add_txn (ag st) (entry st') account_name
    end.
Proof.
  induction typed as [|keystr typed IH]; intros st first second rest Hwf Hvalid Hps;
    rewrite review_keys_unfold;
    destruct (draw_screen (entry st) (account_selected st)) as [[]|exn] eqn:Hdraw;
    cbn [bind]; try (exists (account_selected st); exact Hdraw).
  - auto.
  - destruct (String.eqb_spec keystr "q") as [->|Hq]; [exact I|].
    destruct (String.eqb_spec keystr "r") as [->|Hr].
    + assert (Hpath : valid_path (NDict (accounts_dict (account_selected st)))
                        (selected (account_selected st)) = true).
      { unfold valid_cursor in Hvalid. apply andb_true_iff in Hvalid. tauto. }
      destruct (nested_valid _ _ Hpath) as (node & Hnode & Hnwf).
      destruct (is_root_wf _ (Hnwf Hwf)) as [b Hroot].
      destruct (@handle_key_commit st node b first second rest Hnode Hroot Hps)
        as (account_name & Hacc & Hkey).
      rewrite Hkey. destruct b.
      * cbn [bind account_selected entry ag].
        repeat split; try assumption; try reflexivity.
        exists node. auto.
      * cbn [bind]. eapply IH; eassumption.
    + destruct (handle_key_moves st Hwf Hvalid Hq Hr)
        as (sel & Hkey & Hsame & Hvalid' & _).
      rewrite Hkey. cbn [bind].
      specialize (IH (mkReview sel (entry st) (ag st)) first second rest).
      cbn [account_selected entry ag] in IH. rewrite Hsame in IH.
      specialize (IH Hwf Hvalid' Hps).
      destruct (review_keys draw_screen typed (mkReview sel (entry st) (ag st)))
        as [[[st'|st' name|] unread]|exn]; auto.
Qed.

(** X12. How the review of one entry can end. From a valid cursor of a
    well-formed accounts dictionary, on an entry with its two postings,
    whatever is typed and whatever the drawing does: an exception that
    leaves the loop is one that the drawing of a pass raised, for this
    entry. While the loop goes on, the entry and the model are untouched
    and the cursor stays valid. When it is left by a commit, the cursor is
    on a node with a true marker, the name committed is the account at the
    cursor, the entry differs from the original in the account of its
    second posting only, and the model is the former one trained on that
    entry and name. *)
Theorem review_loop_outcomes (typed : list string) (st : review)
    (first second : Posting) (rest : list Posting) :
  wf_node (NDict (accounts_dict (account_selected st))) = true ->
  valid_cursor (account_selected st) = true ->
  postings (entry st) = first :: second :: rest ->
  match review_keys draw_screen typed st with
  | Raise exn =>
      exists account_selected,
        draw_screen (entry st) account_selected = Raise exn
  | Ok (Quit, _) => True
  | Ok (Continue st', unread) =>
      unread = []
      /\ entry st' = entry st
      /\ ag st' = ag st
      /\ accounts_dict (account_selected st')
         = accounts_dict (account_selected st)
      /\ valid_cursor (account_selected st') = true
  | Ok (Break st' account_name, _) =>
      accounts_dict (account_selected st')
      = accounts_dict (account_selected st)
      /\ valid_cursor (account_selected st') = true
      /\ _get_account (account_selected st') = Ok account_name
      /\ (exists node,
             get_nested_dict (account_selected st') = Ok node
             /\ is_root node = Ok true)
      /\ entry st'
         = set_postings (entry st)
             (first :: replace_account second account_name :: rest)
      /\ ag st' = add_txn (ag st) (entry st') account_name
  end.
Proof. apply review_keys_outcomes. Qed.
End Drawn.

(** With drawing that always returns, the loop is [review_loop], and the
    keys it leaves are those after the pass that left it. *)
Lemma review_keys_quiet (typed : list string) :
  forall st : review,
    (r <- review_keys fits2 typed st ;; Ok (fst r)) = review_loop typed st.
Proof.
  induction typed as [|keystr typed IH]; intros st;
    rewrite review_keys_unfold; unfold fits2 at 1; cbn [bind review_loop fst].
  - reflexivity.
  - destruct (handle_key keystr st) as [[st'|st' name|]|exn]; cbn [bind fst];
      try reflexivity.
    apply IH.
Qed.
End KeyFacts.

Lemma handle_key_navigates_witness :
  exists sel,
    @handle_key beancount_interpolate "d"
      (mkReview (reset toys_accounts) (starbucks "") AccountGuess_init)
    = Ok (Continue (mkReview sel (starbucks "") AccountGuess_init))
    /\ selected sel = [0; 0].
Proof.
  destruct (@handle_key_navigates beancount_interpolate
              (mkReview (reset toys_accounts) (starbucks "") AccountGuess_init)
              "d" eq_refl eq_refl)
    as (sel & Hkey & _ & _ & Hnav); [discriminate | discriminate |].
  exists sel. split; [exact Hkey|].
  cbn in Hnav. injection Hnav as <-. reflexivity.
Defined.

Lemma review_loop_outcomes_witness :
  (exists st' unread,
      @review_keys beancount_interpolate fits2 ["d"; "x"; "d"; "r"; "w"]
        (mkReview (reset toys_accounts) (starbucks "") AccountGuess_init)
      = Ok (Break st' "Expenses:Toys:Computer", unread)
      /\ _get_account (account_selected st') = Ok "Expenses:Toys:Computer")
  /\ @review_keys beancount_interpolate draws_two_levels
       ["d"; "x"; "d"; "r"; "w"]
       (mkReview (reset toys_accounts) (starbucks "") AccountGuess_init)
     = Raise curses_error.
Proof.
  split; [|vm_compute; reflexivity].
  pose proof (@review_loop_outcomes beancount_interpolate fits2
                ["d"; "x"; "d"; "r"; "w"]
                (mkReview (reset toys_accounts) (starbucks "") AccountGuess_init)
                (mkPosting "Liabilities:Card" (-450)) (mkPosting "" 450) []
                eq_refl eq_refl eq_refl) as Hout.
  destruct (@review_keys beancount_interpolate fits2 ["d"; "x"; "d"; "r"; "w"]
              (mkReview (reset toys_accounts) (starbucks "") AccountGuess_init))
    as [[[st'|st' name|] unread]|exn] eqn:E;
    try (exfalso; revert E; vm_compute; discriminate).
  destruct Hout as (_ & _ & Hacc & _).
  assert (Hname : name = "Expenses:Toys:Computer").
  { revert E. vm_compute. now intros [= _ <- _]. }
  subst name. exists st', unread. split; [reflexivity | exact Hacc].
Defined.

(** ** Seeding the selector with a guess *)

Lemma seen_positive `{Interpolate} history item acc :
  0 < seen history item acc -> In acc (map snd history).
Proof.
  induction history as [|[txn a] history IH]; cbn [seen map snd]; [lia|].
  intros Hpos. destruct (String.eqb_spec a acc) as [->|Hne]; [now left|].
  right. apply IH. lia.
Qed.

Lemma occurrences_nonneg item items : 0 <= occurrences item items.
Proof. unfold occurrences. lia. Qed.

Section SeedFacts.
Context `{Interpolate}.

(** Every account the model knows was given to it in training. *)
Lemma trained_accounts history item guess_item acc :
  dict_get (trained history) item = Some guess_item ->
  In acc (keys guess_item) ->
  In acc (map snd history).
Proof.
  intros Hg Hin.
  destruct (dict_get guess_item acc) as [c|] eqn:Hc.
  2:{ apply dict_get_None in Hc. contradiction. }
  destruct (items_recorded_trained history _ Hg) as (accs & _ & ->).
  assert (Hpos : 0 < c).
  { pose proof (recorded_counts_positive accs) as Hp.
    rewrite Forall_forall in Hp. apply Hp.
    apply dict_get_Some_In in Hc. unfold values.
    change c with (snd (acc, c)). now apply in_map. }
  apply (@seen_positive _ history item acc).
  assert (Hs : stored_count (trained history) item acc = c).
  { unfold stored_count, count_of. now rewrite Hg, Hc. }
  unfold trained in Hs. rewrite stored_count_history in Hs.
  unfold stored_count in Hs. cbn in Hs. lia.
Qed.

(** The guess, when there is one, is an account given in training. *)
Lemma get_account_trained history txn name :
  get_account (trained history) txn = Ok (Some name) ->
  In name (map snd history).
Proof.
  unfold get_account, tally. 
  destruct (for_each (tally_item (trained history)) (item_gen txn) []) as [votes|e] eqn:Hrun;
    [|discriminate].
  cbn [bind]. destruct (keys votes) as [|k ks] eqn:Ek; [discriminate|].
  intros [= <-].
  pose proof (max_from_In (votes_get votes) ks k) as Hbest.
  rewrite <- Ek in Hbest. revert Hbest. generalize (max_from (votes_get votes) k ks).
  intros best Hbest. clear Ek k ks.
  assert (Hgen : forall items votes0 votes1,
             for_each (tally_item (trained history)) items votes0 = Ok votes1 ->
             forall b, In b (keys votes1) ->
                       In b (keys votes0) \/ In b (map snd history)).
  { clear. induction items as [|item items IH]; intros votes0 votes1 Hrun b Hb.
    - injection Hrun as <-. now left.
    - cbn [for_each] in Hrun.
      destruct (tally_item (trained history) votes0 item) as [v|e] eqn:Hstep;
        [|discriminate].
      cbn [bind] in Hrun. destruct (IH _ _ Hrun b Hb) as [Hv|Hh]; [|now right].
      unfold tally_item in Hstep.
      destruct (dict_get (trained history) item) as [gi|] eqn:Hg.
      + destruct (get gi) as [item_dict|e] eqn:Hget; [|discriminate].
        cbn [bind] in Hstep.
        assert (Hkeys : keys item_dict = keys gi).
        { destruct (items_recorded_trained history _ Hg) as (accs & Hne & ->).
          destruct (get_recorded Hne) as (d' & Hget' & Hk' & _). congruence. }
        assert (Hin : forall l v0 v1,
                   for_each (cast_vote item) l v0 = Ok v1 ->
                   forall x, In x (keys v1) -> In x (keys v0) \/ In x (keys l)).
        { clear. induction l as [|[a w] l IHl]; intros v0 v1 Hr x Hx.
          - injection Hr as <-. now left.
          - cbn [for_each] in Hr. unfold cast_vote at 1 in Hr.
            destruct (py_len item) as [n|e]; [|discriminate]. cbn [bind fst snd] in Hr.
            destruct (IHl _ _ Hr x Hx) as [Hx'|Hx']; [|right; now right].
            apply keys_increment in Hx'. destruct Hx' as [->|Hx']; [|now left].
            right. now left. }
        destruct (Hin _ _ _ Hstep b Hv) as [Hb0|Hbk]; [now left|].
        right. rewrite Hkeys in Hbk. eapply trained_accounts; eassumption.
      + injection Hstep as <-. now left. }
  destruct (Hgen _ _ _ Hrun best Hbest) as [[]|Hh]. exact Hh.
Qed.


End SeedFacts.


(** ** The session over the entries *)



Section SessionFacts.
Context `{Interpolate}.

Lemma trained_snoc history txn account_name :
  trained (history ++ [(txn, account_name)])
  = add_txn (trained history) txn account_name.
Proof. unfold trained. now rewrite fold_left_app. Qed.

Lemma item_gen_set_postings txn ps : item_gen (set_postings txn ps) = item_gen txn.
Proof. reflexivity. Qed.

Lemma add_txn_set_postings (ag : AccountGuess) txn ps account_name :
  add_txn ag (set_postings txn ps) account_name = add_txn ag txn account_name.
Proof. reflexivity. Qed.

Variable setup : list Transaction -> result unit.
Variable show_panel : Transaction -> result unit.
Variable draw_screen : Transaction -> AccountSelector -> result unit.
Variable draw_commit : Transaction -> string -> result unit.


End SessionFacts.


(** An entry listed twice: the commit made at its first place shows at the
    second, where the review was left by 'q'. *)
Example select_account_listed_twice :
  exists lists' ag',
    @select_account beancount_interpolate fits fits fits2 fits2
      [mkEntryRef (starbucks "") 0; mkEntryRef (starbucks "") 0]
      coffee_accounts
      (Some (@trained beancount_interpolate starbucks_history))
      card_lists ["r"; "s"; "q"]
    = Ok (lists', ag', Aborted)
    /\ map (fun e => map account (postings (deref lists' e)))
         [mkEntryRef (starbucks "") 0; mkEntryRef (starbucks "") 0]
       = [["Liabilities:Card"; "Expenses:Coffee"];
          ["Liabilities:Card"; "Expenses:Coffee"]].
Proof. eexists _, _. split; vm_compute; reflexivity. Qed.

(** ** Failing type checks and unordered dates *)

Section ExtractMoreFacts.
Variable sanity_check_types : Transaction -> bool -> bool.
Variable find_similar_entries :
  list object -> list object -> list (object * object).

Lemma sanity_loop_fails allow entries :
  (exists e, In e entries /\ sanity_check_types (val e) allow = false) ->
  for_each
    (fun (_ : unit) entry =>
       if sanity_check_types (val entry) allow then Ok tt else Raise AssertionError)
    entries tt = Raise AssertionError.
Proof.
  induction entries as [|x entries IH]; intros (e & Hin & He); [destruct Hin|].
  cbn [for_each]. destruct (sanity_check_types (val x) allow) eqn:Hx.
  - cbn [bind]. apply IH. exists e. destruct Hin as [<-|Hin]; [congruence | auto].
  - reflexivity.
Qed.

(** X15. One entry that fails the type check fails the whole extraction:
    [extract_from_file] raises [AssertionError] whenever an extracted entry
    does not pass [sanity_check_types], whatever the existing entries and
    the minimum date, also when the entry lies before the minimum date. *)
Theorem extract_from_file_type_check
    (next_id : nat) (new_entries : list object)
    (existing_entries : option (list object)) (min_date : option Z)
    (allow : bool) :
  (exists e, In e new_entries /\ sanity_check_types (val e) allow = false) ->
  extract_from_file sanity_check_types find_similar_entries next_id
    new_entries existing_entries min_date allow
  = Raise AssertionError.
Proof.
  intros Hbad.
  assert (Hne : new_entries <> []).
  { destruct Hbad as (e & Hin & _). intros ->. destruct Hin. }
  rewrite extract_from_file_nonempty by assumption.
  now rewrite (@sanity_loop_fails allow new_entries Hbad).
Qed.

Lemma dropwhile_split {A} (p : A -> bool) l :
  exists dropped,
    l = dropped ++ dropwhile p l
    /\ Forall (fun x => p x = true) dropped
    /\ match dropwhile p l with
       | x :: _ => p x = false
       | [] => True
       end.
Proof.
  induction l as [|x l IH]; [exists []; cbn; now auto|].
  destruct IH as (dropped & Heq & Hall & Hhd).
  cbn [dropwhile]. destruct (p x) eqn:Hx.
  - exists (x :: dropped). cbn [app]. rewrite <- Heq. auto.
  - exists []. auto.
Qed.

(** X16. The cut-off on entries in any order: without existing entries and
    with a minimum date, [extract_from_file] returns the entries from the
    first one that is not before the minimum date on. The entries dropped
    are all before the minimum date; an entry before it that comes after
    the first kept entry is kept. *)
Theorem min_date_drops_leading_run
    (next_id : nat) (new_entries : list object) (min_date : Z) (allow : bool) :
  Forall (fun e => sanity_check_types (val e) allow = true) new_entries ->
  exists dropped out,
    extract_from_file sanity_check_types find_similar_entries next_id
      new_entries None (Some min_date) allow
    = Ok (out, [])
    /\ new_entries = dropped ++ out
    /\ Forall (fun e => date (val e) < min_date) dropped
    /\ match out with
       | e :: _ => min_date <= date (val e)
       | [] => True
       end.
Proof.
  intros Hsane.
  destruct (dropwhile_split (fun x => date (val x) <? min_date) new_entries)
    as (dropped & Heq & Hall & Hhd).
  exists dropped, (dropwhile (fun x => date (val x) <? min_date) new_entries).
  split; [|split; [exact Heq|split]].
  - destruct new_entries as [|e0 l0] eqn:E; [reflexivity|].
    rewrite <- E in *. rewrite extract_from_file_nonempty by (rewrite E; discriminate).
    rewrite (@sanity_loop sanity_check_types allow new_entries Hsane). reflexivity.
  - eapply Forall_impl; [|exact Hall]. cbv beta. intros e He. lia.
  - destruct (dropwhile _ new_entries); [exact I | lia].
Qed.
End ExtractMoreFacts.

Lemma extract_from_file_type_check_witness :
  extract_from_file (fun entry _ => 20180305 <=? date entry) same_date_pairs 4
    extracted (Some ledger) (Some 20180305) false
  = Raise AssertionError.
Proof.
  apply extract_from_file_type_check.
  exists (mkObject 1 (on_date 20180301 (starbucks ""))). split; [now left | reflexivity].
Defined.

Lemma min_date_drops_leading_run_witness :
  extract_from_file accept_all same_date_pairs 4 unordered None (Some 20180305)
    false
  = Ok ([mkObject 2 (on_date 20180309 (starbucks ""));
         mkObject 3 (on_date 20180302 (starbucks ""))], []).
Proof.
  destruct (@min_date_drops_leading_run accept_all same_date_pairs 4 unordered
              20180305 false) as (dropped & out & Hrun & _).
  - repeat constructor.
  - rewrite Hrun. revert Hrun. vm_compute. now intros [= <-].
Defined.

(** ** What [extract] catches *)

Section ExtractWrapperFacts.
Variable sanity_check_types : Transaction -> bool -> bool.
Variable find_similar_entries :
  list object -> list object -> list (object * object).

(** X17. What [extract] catches and what it lets through. An exception of
    the importer, or an entry that fails the type check, gives an empty
    result and two error records, and nothing is raised; an options map
    that is not empty and lacks the key read before the [try] makes
    [extract] raise [KeyError] with nothing logged. *)
Theorem extract_failures (importer_name : string)
    (extracted : result (list object)) (next_id : nat)
    (entries : option (list object))
    (options_map : option (dict string bool)) (mindate : option Z)
    (ascending : bool) (log : list log_record) :
  (forall allow,
      allow_none_option options_map = Ok allow ->
      ((exists e, extracted = Raise e)
       \/ (exists new_entries bad,
              extracted = Ok new_entries /\ In bad new_entries
              /\ sanity_check_types (val bad) allow = false)) ->
      extract sanity_check_types find_similar_entries importer_name extracted
        next_id entries options_map mindate ascending log
      = (Ok [], log ++ extract_error_records importer_name))
  /\ (forall kv rest,
         options_map = Some (kv :: rest) ->
         dict_get (kv :: rest) ALLOW_NONE_OPTION = None ->
         extract sanity_check_types find_similar_entries importer_name
           extracted next_id entries options_map mindate ascending log
         = (Raise KeyError, log)).
Proof.
  split.
  - intros allow Hallow Hfail. unfold extract. rewrite Hallow.
    destruct Hfail as [[e ->]|(new_entries & bad & -> & Hin & Hbad)].
    + reflexivity.
    + cbn [bind].
      rewrite (@extract_from_file_nonempty sanity_check_types find_similar_entries)
        by (intros ->; destruct Hin).
      rewrite (@sanity_loop_fails sanity_check_types allow new_entries)
        by (exists bad; auto).
      reflexivity.
  - intros kv rest -> Hmissing. unfold extract, allow_none_option, dict_item.
    now rewrite Hmissing.
Qed.

(** X18. The two orders of [extract]: with [ascending] false it returns the
    reverse of what it returns with [ascending] true, raises what that
    raises, and logs the same records. *)
Theorem extract_descending (importer_name : string)
    (extracted : result (list object)) (next_id : nat)
    (entries : option (list object))
    (options_map : option (dict string bool)) (mindate : option Z)
    (log : list log_record) :
  extract sanity_check_types find_similar_entries importer_name extracted
    next_id entries options_map mindate false log
  = (match fst (extract sanity_check_types find_similar_entries importer_name
                  extracted next_id entries options_map mindate true log) with
     | Ok new_entries => Ok (rev new_entries)
     | Raise e => Raise e
     end,
     snd (extract sanity_check_types find_similar_entries importer_name
            extracted next_id entries options_map mindate true log)).
Proof.
  unfold extract. destruct (allow_none_option options_map) as [allow|e]; [|reflexivity].
  destruct (bind extracted _) as [[new_entries duplicate_entries]|e]; [|reflexivity].
  destruct new_entries as [|x new_entries]; [destruct duplicate_entries|]; reflexivity.
Qed.
End ExtractWrapperFacts.

Lemma extract_failures_witness :
  extract accept_all same_date_pairs "csv_importer" (Raise ValueError) 4
    (Some ledger) (Some [(ALLOW_NONE_OPTION, false)]) None true []
  = (Ok [], [] ++ extract_error_records "csv_importer")
  /\ extract accept_all same_date_pairs "csv_importer" (Ok extracted) 4
       (Some ledger) (Some [("title", false)]) None true []
     = (Raise KeyError, []).
Proof.
  split.
  - apply (proj1 (@extract_failures accept_all same_date_pairs "csv_importer"
                    (Raise ValueError) 4 (Some ledger)
                    (Some [(ALLOW_NONE_OPTION, false)]) None true []) false).
    + reflexivity.
    + left. eauto.
  - apply (proj2 (@extract_failures accept_all same_date_pairs "csv_importer"
                    (Ok extracted) 4 (Some ledger)
                    (Some [("title", false)]) None true [])
             ("title", false) []); reflexivity.
Defined.

(** ** The training pass that succeeds *)

Section TrainingMoreFacts.
Context `{Interpolate} `{Flags}.

Lemma train_succeeds txns :
  Forall (fun t => flag t = FLAG_OKAY -> (2 <= List.length (postings t))%nat) txns ->
  forall ag log,
    train ag txns log =
    (Ok (fold_left (fun ag ta => add_txn ag (fst ta) (snd ta))
           (training_pairs txns) ag),
     log ++ map add_txn_record
              (filter (fun t => String.eqb (flag t) FLAG_OKAY) txns)).
Proof.
  induction 1 as [|t txns Ht _ IH]; intros ag log.
  - cbn. now rewrite app_nil_r.
  - cbn [train]. unfold training_pairs. cbn [filter].
    destruct (String.eqb_spec (flag t) FLAG_OKAY) as [E|_].
    + specialize (Ht E).
      destruct (postings t) as [|first [|second rest]] eqn:Hps;
        try (cbn [List.length] in Ht; lia).
      rewrite py_index_second. cbn [bind reraise_KeyError map fold_left fst snd].
      rewrite IH. unfold second_account. rewrite Hps.
      unfold training_pairs. now rewrite <- app_assoc.
    + apply IH.
Qed.

Lemma add_txn_records_not_emitted txns :
  emitted "WARNING" (map add_txn_record txns) = [].
Proof. induction txns as [|t txns IH]; [reflexivity | exact IH]. Qed.

(** X19. What the training pass learns. When every cleared transaction of
    the ledger has a second posting, training with guessing and training
    switched on raises nothing and gives the model trained on the cleared
    transactions, each with the account of its second posting, in ledger
    order; transactions with another flag are passed over. For each
    cleared transaction [add_txn] makes one call of [logger.debug], with
    the terms of the transaction; a logger at the level WARNING, the level
    loggers have until [main] sets another after the pass, passes none of
    these calls on. *)
Theorem main_training_learns (txns : list Transaction)
    (log : list log_record) :
  Forall (fun t => flag t = FLAG_OKAY -> (2 <= List.length (postings t))%nat) txns ->
  exists calls,
    main_training true true txns log =
    (Ok (Some (trained (training_pairs txns))), log ++ calls)
    /\ calls = map add_txn_record
                 (filter (fun t => String.eqb (flag t) FLAG_OKAY) txns)
    /\ emitted "WARNING" calls = [].
Proof.
  intros Hall. eexists. split; [|split; [reflexivity|]].
  - unfold main_training. now rewrite (train_succeeds Hall).
  - apply add_txn_records_not_emitted.
Qed.
End TrainingMoreFacts.

Lemma main_training_learns_witness :
  exists calls,
    @main_training beancount_interpolate beancount_flags true true
      [starbucks "Expenses:Coffee";
       on_date 20180302 (starbucks "Expenses:Dining")]
      []
    = (Ok (Some (@trained beancount_interpolate
                   (@training_pairs beancount_flags
                      [starbucks "Expenses:Coffee";
                       on_date 20180302 (starbucks "Expenses:Dining")]))),
       [] ++ calls)
    /\ calls = map (@add_txn_record beancount_interpolate)
                 (filter (fun t => String.eqb (flag t) (@FLAG_OKAY beancount_flags))
                    [starbucks "Expenses:Coffee";
                     on_date 20180302 (starbucks "Expenses:Dining")])
    /\ emitted "WARNING" calls = [].
Proof.
  apply (@main_training_learns beancount_interpolate beancount_flags
           [starbucks "Expenses:Coffee";
            on_date 20180302 (starbucks "Expenses:Dining")] []).
  repeat constructor; simpl; lia.
Defined.

(** ** Printing what was marked *)

Lemma dict_pop_set {V} (d : dict string V) k v :
  dict_get d k = None -> dict_pop (dict_set d k v) k = d.
Proof.
  induction d as [|[k' v'] d IH]; cbn [dict_get dict_set dict_pop keqb string_Hashable].
  - intros _. now rewrite String.eqb_refl.
  - destruct (String.eqb k' k) eqn:E; [discriminate|].
    intros Hg. cbn [dict_pop]. rewrite E. now rewrite (IH Hg).
Qed.

Lemma set_meta_back (entry : Transaction) m :
  set_meta (set_meta entry m) (meta entry) = entry.
Proof. now destruct entry. Qed.

(** The values of the entries the marking loop returns. *)
Lemma mark_loop_values pairs entries :
  forall next_id mod_entries duplicate_entries,
  exists next_id' out duplicates,
    fold_left (mark_step (map (fun pair : object * object => oid (fst pair)) pairs))
      entries (next_id, mod_entries, duplicate_entries)
    = (next_id', mod_entries ++ out, duplicate_entries ++ duplicates)
    /\ map val out =
       map (fun e =>
              if in_pairs pairs e
              then set_meta (val e)
                     (dict_set (meta (val e)) DUPLICATE_META (PBool true))
              else val e)
         entries.
Proof.
  induction entries as [|e entries IH]; intros next_id mods dups.
  - exists next_id, [], []. cbn. now rewrite !app_nil_r.
  - cbn [fold_left]. unfold mark_step at 2. rewrite in_duplicate_set.
    destruct (in_pairs pairs e) eqn:Hin.
    + set (o := replace_meta next_id e _).
      destruct (IH (S next_id) (mods ++ [o]) (dups ++ [o]))
        as (n' & out & ds & Hrun & Hvals).
      exists n', (o :: out), (o :: ds). split.
      * rewrite Hrun. now rewrite <- !app_assoc.
      * cbn [map]. rewrite Hin, Hvals. reflexivity.
    + destruct (IH next_id (mods ++ [e]) dups) as (n' & out & ds & Hrun & Hvals).
      exists n', (e :: out), ds. split.
      * rewrite Hrun. now rewrite <- !app_assoc.
      * cbn [map]. rewrite Hin, Hvals. reflexivity.
Qed.

Section PrintingFacts.
Variable sanity_check_types : Transaction -> bool -> bool.
Variable find_similar_entries :
  list object -> list object -> list (object * object).
Variable format_entry : Transaction -> string.
Variable indent : string -> string -> string.

Lemma entry_string_marked (entry : Transaction) :
  dict_mem (meta entry) DUPLICATE_META = false ->
  entry_string format_entry indent
    (set_meta entry (dict_set (meta entry) DUPLICATE_META (PBool true)))
  = indent (format_entry entry) "; ".
Proof.
  intros Hfree. unfold entry_string, dict_mem in *. cbn [meta set_meta].
  rewrite dict_get_set_same.
  destruct (dict_get (meta entry) DUPLICATE_META) eqn:Hg; [discriminate|].
  rewrite (@dict_pop_set _ (meta entry) DUPLICATE_META (PBool true) Hg).
  now rewrite set_meta_back.
Qed.

Lemma entry_strings_marked pairs (kept : list object) :
  Forall (fun e => dict_mem (meta (val e)) DUPLICATE_META = false) kept ->
  map (entry_string format_entry indent)
    (map (fun e =>
            if in_pairs pairs e
            then set_meta (val e)
                   (dict_set (meta (val e)) DUPLICATE_META (PBool true))
            else val e) kept)
  = map (fun e => if in_pairs pairs e
                  then indent (format_entry (val e)) "; "
                  else format_entry (val e)) kept.
Proof.
  induction 1 as [|e kept' He _ IH]; [reflexivity|].
  cbn [map]. rewrite IH. f_equal.
  destruct (in_pairs pairs e).
  - now apply entry_string_marked.
  - unfold entry_string. now rewrite He.
Qed.

(** X20. Marking, then printing. When no extracted entry carries the
    duplicate key and all pass the type check, what
    [print_extracted_entries] prints for the entries [extract_from_file]
    returns is, after the header and the section title, one string for
    each entry left after the cut-off, in order: the rendering of the entry
    as it was extracted, indented with the comment prefix when the entry was
    matched and as it is when it was not; and an empty string at the end. *)
Theorem marked_entries_printed
    (next_id : nat) (new_entries existing_entries : list object)
    (min_date : option Z) (allow : bool) (filename : string) :
  Forall (fun e => sanity_check_types (val e) allow = true) new_entries ->
  Forall (fun e => dict_mem (meta (val e)) DUPLICATE_META = false) new_entries ->
  exists out duplicates,
    extract_from_file sanity_check_types find_similar_entries next_id
      new_entries (Some existing_entries) min_date allow
    = Ok (out, duplicates)
    /\ print_extracted_entries format_entry indent (map val out) filename
       = [HEADER; ""; SECTION_format filename; ""]
         ++ map (fun e =>
                   if in_pairs
                        (find_similar_entries
                           (after_cutoff min_date new_entries) existing_entries)
                        e
                   then indent (format_entry (val e)) "; "
                   else format_entry (val e))
              (after_cutoff min_date new_entries)
         ++ [""].
Proof.
  intros Hsane Hfree.
  assert (Hcase : new_entries = [] \/ new_entries <> [])
    by (destruct new_entries; [left | right]; congruence).
  destruct Hcase as [->|Hne].
  - exists [], []. rewrite after_cutoff_nil. split; reflexivity.
  - rewrite extract_from_file_nonempty by assumption.
    rewrite (@sanity_loop sanity_check_types allow new_entries Hsane). cbn [bind].
    set (kept := after_cutoff min_date new_entries).
    assert (Hkept : Forall (fun e => dict_mem (meta (val e)) DUPLICATE_META = false)
                      kept).
    { unfold kept, after_cutoff. destruct min_date as [d|]; [|exact Hfree].
      destruct (dropwhile_split (fun x => date (val x) <? d) new_entries)
        as (dropped & Heq & _). rewrite Heq in Hfree.
      now apply Forall_app in Hfree. }
    destruct (mark_loop_values (find_similar_entries kept existing_entries)
                kept next_id [] [])
      as (n' & out & ds & Hrun & Hvals).
    rewrite Hrun. cbn [app]. exists out, ds. split; [reflexivity|].
    unfold print_extracted_entries. rewrite Hvals.
    now rewrite (entry_strings_marked _ Hkept).
Qed.
End PrintingFacts.

Lemma marked_entries_printed_witness :
  exists out duplicates,
    extract_from_file accept_all same_date_pairs 4 extracted (Some ledger) None
      false
    = Ok (out, duplicates)
    /\ print_extracted_entries narration String.append (map val out) "card.csv"
       = [HEADER; ""; "**** card.csv"; ""; "STARBUCKS";
          String.append "STARBUCKS" "; "; "STARBUCKS"; ""].
Proof.
  destruct (@marked_entries_printed accept_all same_date_pairs narration
              String.append 4 extracted ledger None false "card.csv")
    as (out & dups & Hrun & Hprint).
  - repeat constructor.
  - repeat constructor.
  - exists out, dups. split; [exact Hrun|]. rewrite Hprint. reflexivity.
Defined.

(** ** The guess and the accounts of the training *)

Section GuessMoreFacts.
Context `{Interpolate}.

(** X21. The guess is an account of the training: whenever [get_account]
    returns an account after a training history, that account is one the
    history was trained with. *)
Theorem get_account_among_trained (history : list (Transaction * string))
    (txn : Transaction) (name : string) :
  get_account (trained history) txn = Ok (Some name) ->
  In name (map snd history).
Proof. apply get_account_trained. Qed.

Lemma In_item_gen_meta txn key v :
  excluded key = false ->
  In (key, v) (meta txn) ->
  In v (item_gen txn).
Proof.
  intros Hex Hin. unfold item_gen. rewrite !in_app_iff. right. right.
  apply in_map_iff. exists (key, v). split; [reflexivity|].
  apply filter_In. split; [exact Hin|]. cbn [fst]. now rewrite Hex.
Qed.

Lemma add_item_known account_name items :
  forall (self : AccountGuess) item,
    In item items \/ dict_mem self item = true ->
    dict_mem (fold_left (add_item account_name) items self) item = true.
Proof.
  induction items as [|x items IH]; intros self item Hin; cbn [fold_left].
  - destruct Hin as [[]|Hm]. exact Hm.
  - apply IH. destruct Hin as [[<-|Hin]|Hm]; [right|now left|right].
    + rewrite add_item_eq. unfold dict_mem. now rewrite dict_get_set_same.
    + rewrite add_item_eq. unfold dict_mem in *.
      destruct (keqb_spec x item) as [<-|Hne].
      * now rewrite dict_get_set_same.
      * now rewrite dict_get_set_other.
Qed.

Lemma add_txn_known (self : AccountGuess) txn account_name item :
  In item (item_gen txn) ->
  dict_mem (add_txn self txn account_name) item = true.
Proof. intros Hin. apply add_item_known. now left. Qed.

(** X22. The duplicate flag is a term. The key of the flag is not among the
    excluded ones, so the value [True] of a flagged entry is one of its
    terms; as it has no length, once the model has been trained on one
    flagged entry, [get_account] raises [TypeError] for every flagged
    entry. *)
Theorem flagged_entries_stop_the_guess
    (history : list (Transaction * string))
    (first next : Transaction) (account_name : string) :
  excluded DUPLICATE_META = false ->
  dict_get (meta first) DUPLICATE_META = Some (PBool true) ->
  dict_get (meta next) DUPLICATE_META = Some (PBool true) ->
  In (PBool true) (item_gen first)
  /\ get_account (add_txn (trained history) first account_name) next
     = Raise TypeError.
Proof.
  intros Hex Hfirst Hnext.
  assert (H1 : In (PBool true) (item_gen first)).
  { eapply In_item_gen_meta; [exact Hex|]. now apply dict_get_Some_In. }
  assert (H2 : In (PBool true) (item_gen next)).
  { eapply In_item_gen_meta; [exact Hex|]. now apply dict_get_Some_In. }
  split; [exact H1|].
  rewrite <- trained_snoc. unfold get_account, tally.
  rewrite (@tally_type_error (trained (history ++ [(first, account_name)]))
             (item_gen next) (items_recorded_trained _)); [reflexivity|].
  exists (PBool true). split; [exact H2|]. split; [|reflexivity].
  rewrite trained_snoc. now apply add_txn_known.
Qed.
End GuessMoreFacts.

Lemma get_account_among_trained_witness :
  In "Expenses:Coffee" (map snd starbucks_history).
Proof.
  apply (@get_account_among_trained beancount_interpolate starbucks_history
           (starbucks "") "Expenses:Coffee").
  reflexivity.
Defined.

Lemma flagged_entries_stop_the_guess_witness :
  @get_account beancount_interpolate
    (@add_txn beancount_interpolate
       (@trained beancount_interpolate starbucks_history)
       (flagged (starbucks "Expenses:Coffee")) "Expenses:Coffee")
    (flagged (on_date 20180305 (starbucks "")))
  = Raise TypeError.
Proof.
  apply (proj2 (@flagged_entries_stop_the_guess beancount_interpolate
                  starbucks_history (flagged (starbucks "Expenses:Coffee"))
                  (flagged (on_date 20180305 (starbucks "")))
                  "Expenses:Coffee" eq_refl eq_refl eq_refl)).
Defined.

(** A session over two flagged entries: the commit of the first makes the
    seeding of the second raise. *)
Example flagged_session_raises :
  @select_account beancount_interpolate fits fits fits2 fits2
    [mkEntryRef (flagged (starbucks "")) 0;
     mkEntryRef (flagged (on_date 20180305 (starbucks ""))) 1]
    coffee_accounts None card_lists ["d"; "r"]
  = Raise TypeError.
Proof. vm_compute. reflexivity. Qed.
